(** * Kifu Dojo: the position and capture engine

    A shallow embedding of the Go logic of the recorder
    ([components/GameLog]: [getNeighbors], [getGroup], [countLiberties],
    [handleBoardClick], [undoLastMove], [replayGame]), of the click filter of
    the board component ([components/GoBoard]: [handleBoardClick]) and of the
    drill check ([App]: [checkDrill]), followed by the properties of the
    engine.

    Conventions of the embedding.
    - A JavaScript number that holds a board coordinate is an integer of [Z];
      a count of stones is a [nat].
    - A [BoardState] (a JavaScript object used as a dictionary from the key
      ["x,y"] to a color) is a finite map [gmap string StoneColor].  Both
      colors are non-empty strings, hence truthy: [board[k]] is falsy exactly
      when [k] has no entry.  The enumeration order of [Object.entries] and
      [Object.keys] is the order of [map_to_list]; nothing below depends on
      it.
    - A [Set<string>] is a [gset string]; an array is a [list].
    - A React state variable is a field of a record; a handler reads the
      record it was rendered with and returns the record of the next
      render. *)

From stdpp Require Import gmap strings list fin_maps.
From Stdlib Require Import ZArith Ascii DecimalString DecimalZ.

Open Scope Z_scope.

(** ** types.ts *)

Inductive StoneColor := black | white.

Global Instance StoneColor_eq_dec : EqDecision StoneColor.
Proof. solve_decision. Defined.

(** [BoardState = Record<string, StoneColor>], the key is ["x,y"]. *)
Abbreviation BoardState := (gmap string StoneColor).

(** [interface Move { x; y; color; captures? }] *)
Record Move := mkMove {
  m_x : Z;
  m_y : Z;
  m_color : StoneColor;
  m_captures : option nat
}.

(** ** Keys: the template literal [`${x},${y}`] and its inverse
    [key.split(',').map(Number)] *)

Module Keys.

(** [`${n}`] for an integer [n]: decimal digits, a leading [-] when
    negative. *)
Definition showZ (n : Z) : string := NilZero.string_of_int (Z.to_int n).

(** [`${x},${y}`] *)
Definition key (x y : Z) : string := showZ x +:+ "," +:+ showZ y.

(** The same for a pair [[nx, ny]]. *)
Definition keyOf (c : Z * Z) : string := key c.1 c.2.

(** [s.split(sep)] for a one-character separator. *)
Fixpoint split (sep : Ascii.ascii) (s : string) : list string :=
  match s with
  | EmptyString => [EmptyString]
  | String a s' =>
      if Ascii.eqb a sep then EmptyString :: split sep s'
      else match split sep s' with
           | h :: t => String a h :: t
           | [] => [String a EmptyString]
           end
  end.

(** [Number(s)] on the decimal integers; [None] stands for [NaN].  Strings
    that are not an optional minus sign followed by digits are outside the
    keys this program builds. *)
Definition Number (s : string) : option Z :=
  Z.of_int <$> NilZero.int_of_string s.

(** [const [x, y] = key.split(',').map(Number)] *)
Definition parseKey (k : string) : option (Z * Z) :=
  match Number <$> split ","%char k with
  | Some x :: Some y :: _ => Some (x, y)
  | _ => None
  end.

End Keys.

Import Keys.

(** ** components/GameLog: the Go logic helpers *)

Module GoLogic.

(** [getNeighbors(x, y, size)]: the four pushes, in the order of the
    source. *)
Definition getNeighbors (x y size : Z) : list (Z * Z) :=
  (if decide (0 < x) then [(x - 1, y)] else []) ++
  (if decide (x < size - 1) then [(x + 1, y)] else []) ++
  (if decide (0 < y) then [(x, y - 1)] else []) ++
  (if decide (y < size - 1) then [(x, y + 1)] else []).

(** The three local variables of [getGroup]. *)
Record Search := mkSearch {
  group : list string;
  queue : list (Z * Z);
  visited : gset string
}.

(** The body of the inner [forEach] of [getGroup], for one neighbor. *)
Definition visit (board : BoardState) (color : StoneColor)
    (st : Search) (n : Z * Z) : Search :=
  let k := keyOf n in
  if decide (board !! k = Some color ∧ k ∉ visited st)
  then {| group := group st ++ [k];
          queue := queue st ++ [n];
          visited := {[k]} ∪ visited st |}
  else st.

(** One iteration of [while (queue.length > 0)]: [queue.shift()] and the
    [forEach] over the neighbors. *)
Definition expand (board : BoardState) (color : StoneColor) (size : Z)
    (c : Z * Z) (st : Search) : Search :=
  foldl (visit board color) st (getNeighbors c.1 c.2 size).

(** The [while] loop, bounded by [fuel] iterations.  [getGroup_loop_exit]
    below shows that with the fuel [getGroup] gives it the loop stops on
    its own condition, [queue.length = 0]. *)
Fixpoint search (fuel : nat) (board : BoardState) (color : StoneColor)
    (size : Z) (st : Search) : Search :=
  match fuel with
  | O => st
  | S fuel' =>
      match queue st with
      | [] => st
      | c :: q =>
          search fuel' board color size
            (expand board color size c
               {| group := group st; queue := q; visited := visited st |})
      end
  end.

Definition start (startX startY : Z) : Search :=
  {| group := [key startX startY];
     queue := [(startX, startY)];
     visited := {[key startX startY]} |}.

(** [getGroup(board, startX, startY, size)]; [None] is [null]. *)
Definition getGroup (board : BoardState) (startX startY size : Z)
    : option (list string) :=
  match board !! key startX startY with
  | None => None
  | Some color =>
      Some (group (search (stdpp.base.size board) board color size
                     (start startX startY)))
  end.

(** The inner [forEach] of [countLiberties], for one neighbor. *)
Definition addLiberty (board : BoardState) (liberties : gset string)
    (n : Z * Z) : gset string :=
  match board !! keyOf n with
  | None => {[keyOf n]} ∪ liberties
  | Some _ => liberties
  end.

(** The outer [forEach] of [countLiberties], for one member of the
    group. *)
Definition addLiberties (board : BoardState) (size : Z)
    (liberties : gset string) (k : string) : gset string :=
  match parseKey k with
  | Some (x, y) => foldl (addLiberty board) liberties (getNeighbors x y size)
  | None => liberties
  end.

Definition libertySet (board : BoardState) (group : list string) (size : Z)
    : gset string :=
  foldl (addLiberties board size) ∅ group.

(** [countLiberties(board, group, size)] *)
Definition countLiberties (board : BoardState) (group : list string)
    (size : Z) : nat :=
  stdpp.base.size (libertySet board group size).

End GoLogic.

Import GoLogic.

(** ** components/GameLog: the recorder and the replay *)

Module GameLog.

(** [{ black: number, white: number }]: stones captured BY that color. *)
Record Captures := mkCaptures { cap_black : nat; cap_white : nat }.

(** [c[color]] *)
Definition getCap (c : Captures) (color : StoneColor) : nat :=
  match color with black => cap_black c | white => cap_white c end.

(** [c[color] += n], and [{ ...prev, [turn]: prev[turn] + n }] *)
Definition addCap (c : Captures) (color : StoneColor) (n : nat) : Captures :=
  match color with
  | black => {| cap_black := cap_black c + n; cap_white := cap_white c |}
  | white => {| cap_black := cap_black c; cap_white := cap_white c + n |}
  end.

(** [color === 'black' ? 'white' : 'black'] *)
Definition opponentOf (color : StoneColor) : StoneColor :=
  match color with black => white | white => black end.

(** The recorder state: [moves], [board], [captures], [turn]. *)
Record Recorder := mkRecorder {
  moves : list Move;
  board : BoardState;
  captures : Captures;
  turn : StoneColor
}.

(** The three ways out of [handleBoardClick]: the [return] on an occupied
    cell, the [alert] and [return] of the suicide check, and the end of the
    function after the state updates. *)
Inductive Outcome := Placed | OccupiedCell | SuicideMove.

(** [group.forEach(k => { delete newBoard[k]; capturedStones++; })] *)
Definition removeStone (acc : BoardState * nat) (k : string)
    : BoardState * nat :=
  (delete k acc.1, S acc.2).

(** The body of [neighbors.forEach] in [handleBoardClick]. *)
Definition captureNeighbor (opponent : StoneColor) (size : Z)
    (acc : BoardState * nat) (n : Z * Z) : BoardState * nat :=
  if decide (acc.1 !! keyOf n = Some opponent) then
    match getGroup acc.1 n.1 n.2 size with
    | Some group =>
        if decide (countLiberties acc.1 group size = 0%nat)
        then foldl removeStone acc group
        else acc
    | None => acc
    end
  else acc.

(** The placement and the capture loop of [handleBoardClick]: the final
    [newBoard] and [capturedStones]. *)
Definition placeStone (size : Z) (board : BoardState) (x y : Z)
    (turn : StoneColor) : BoardState * nat :=
  foldl (captureNeighbor (opponentOf turn) size)
    (<[key x y := turn]> board, 0%nat) (getNeighbors x y size).

(** [handleBoardClick(x, y)] of the recorder.  [newBoard] is the copy
    [{ ...board }]: the placement and the deletions of the capture loop act
    on the copy, and the board of the state changes only through
    [setBoard(newBoard)] on the accepting path.  [playStoneSound()] and the
    [alert] touch no state and are left out. *)
Definition handleBoardClick (size : Z) (st : Recorder) (x y : Z)
    : Outcome * Recorder :=
  match board st !! key x y with
  | Some _ => (OccupiedCell, st)
  | None =>
      let '(newBoard, capturedStones) :=
        placeStone size (board st) x y (turn st) in
      let accepted :=
        (Placed,
         {| board := newBoard;
            moves := moves st ++ [mkMove x y (turn st) (Some capturedStones)];
            captures :=
              if decide (0 < capturedStones)%nat
              then addCap (captures st) (turn st) capturedStones
              else captures st;
            turn := opponentOf (turn st) |}) in
      match getGroup newBoard x y size with
      | Some myGroup =>
          if decide (countLiberties newBoard myGroup size = 0%nat)
          then (SuicideMove, st)
          else accepted
      | None => accepted
      end
  end.

(** [resetRecorder()] *)
Definition resetRecorder : Recorder :=
  {| moves := []; board := ∅; captures := mkCaptures 0 0; turn := black |}.

(** The body of [neighbors.forEach] in [replayGame]. *)
Definition replayNeighbor (color : StoneColor) (boardSize : Z)
    (acc : BoardState * Captures) (n : Z * Z) : BoardState * Captures :=
  if decide (acc.1 !! keyOf n = Some (opponentOf color)) then
    match getGroup acc.1 n.1 n.2 boardSize with
    | Some group =>
        if decide (countLiberties acc.1 group boardSize = 0%nat)
        then (foldl (λ b k, delete k b) acc.1 group,
              addCap acc.2 color (length group))
        else acc
    | None => acc
    end
  else acc.

(** The body of [moveList.forEach] in [replayGame]. *)
Definition replayMove (boardSize : Z) (acc : BoardState * Captures)
    (m : Move) : BoardState * Captures :=
  foldl (replayNeighbor (m_color m) boardSize)
    (<[key (m_x m) (m_y m) := m_color m]> acc.1, acc.2)
    (getNeighbors (m_x m) (m_y m) boardSize).

(** [replayGame(moveList, boardSize)]: the pair [{ board, captures }]. *)
Definition replayGame (moveList : list Move) (boardSize : Z)
    : BoardState * Captures :=
  foldl (replayMove boardSize) (∅, mkCaptures 0 0) moveList.

(** [undoLastMove()]; [moves.slice(0, -1)] keeps all but the last move. *)
Definition undoLastMove (size : Z) (st : Recorder) : Recorder :=
  if decide (length (moves st) = 0%nat) then st
  else
    let newMoves := take (length (moves st) - 1) (moves st) in
    let '(b, c) := replayGame newMoves size in
    {| board := b;
       captures := c;
       moves := newMoves;
       turn := if decide (length newMoves mod 2 = 0)%nat
               then black else white |}.

End GameLog.

(** ** components/GoBoard: the click handler of the board *)

Module GoBoard.

(** [handleBoardClick(e)] after the conversion of the pixel position to
    the grid: [xGrid] and [yGrid] are the two results of [Math.round].
    [onIntersectionClick] is the callback of the host, a transformer of
    the host state [S]; [None] is a missing callback. *)
Definition handleBoardClick {S : Type} (size : Z) (readOnly : bool)
    (onIntersectionClick : option (Z → Z → S → S))
    (xGrid yGrid : Z) (host : S) : S :=
  match onIntersectionClick with
  | None => host
  | Some f =>
      if readOnly then host
      else if decide (0 ≤ xGrid ∧ xGrid < size ∧ 0 ≤ yGrid ∧ yGrid < size)
           then f xGrid yGrid host
           else host
  end.

(** The click on the [i]-th invisible interaction target, [i] ranging over
    [Array.from({ length: size * size })]: [x = i % size],
    [y = Math.floor(i / size)].  The targets exist only when the board is not
    read-only. *)
Definition handleTargetClick {S : Type} (size : Z) (readOnly : bool)
    (onIntersectionClick : option (Z → Z → S → S))
    (i : Z) (host : S) : S :=
  if readOnly then host
  else match onIntersectionClick with
       | Some f => f (i `mod` size) (i `div` size) host
       | None => host
       end.

(** The board of the recorder form: [<GoBoard size={size} stones={board}
    onIntersectionClick={handleBoardClick} .../>]. *)
Definition recorderBoardClick (size : Z) (xGrid yGrid : Z)
    (st : GameLog.Recorder) : GameLog.Recorder :=
  handleBoardClick size false
    (Some (λ x y st, (GameLog.handleBoardClick size st x y).2))
    xGrid yGrid st.

End GoBoard.

(** ** App: the drill check *)

Module App.

(** [{ missing: string[], extra: string[], correct: string[] }] *)
Record Feedback := mkFeedback {
  missing : list string;
  extra : list string;
  correct : list string
}.

Inductive DrillPhase := idle | memorize | rebuild | feedbackPhase.

(** The drill state read and written by [checkDrill]. *)
Record Drill := mkDrill {
  drillTarget : option BoardState;
  stones : BoardState;
  feedback : option Feedback;
  drillPhase : DrillPhase
}.

(** The body of [Object.entries(drillTarget).forEach]. *)
Definition checkTarget (stones : BoardState) (fb : Feedback)
    (entry : string * StoneColor) : Feedback :=
  if decide (stones !! entry.1 = Some entry.2)
  then {| missing := missing fb; extra := extra fb;
          correct := correct fb ++ [entry.1] |}
  else {| missing := missing fb ++ [entry.1]; extra := extra fb;
          correct := correct fb |}.

(** The body of [Object.keys(stones).forEach]. *)
Definition checkExtra (drillTarget stones : BoardState) (fb : Feedback)
    (k : string) : Feedback :=
  match drillTarget !! k with
  | None =>
      {| missing := missing fb; extra := extra fb ++ [k];
         correct := correct fb |}
  | Some _ =>
      if decide (stones !! k ≠ drillTarget !! k)
      then {| missing := missing fb; extra := extra fb ++ [k];
              correct := correct fb |}
      else fb
  end.

(** The three arrays built by [checkDrill]. *)
Definition diff (drillTarget stones : BoardState) : Feedback :=
  foldl (checkExtra drillTarget stones)
    (foldl (checkTarget stones) (mkFeedback [] [] [])
       (map_to_list drillTarget))
    (map_to_list stones).*1.

(** [checkDrill()] *)
Definition checkDrill (st : Drill) : Drill :=
  match drillTarget st with
  | None => st
  | Some target =>
      {| drillTarget := drillTarget st;
         stones := stones st;
         feedback := Some (diff target (stones st));
         drillPhase := feedbackPhase |}
  end.

End App.

(** ** services/storage.ts *)

Module Storage.

Definition SHAPES_KEY : string := "go_trainer_shapes".
Definition LOGS_KEY : string := "go_trainer_logs".

(** [localStorage]: strings under string keys. *)
Abbreviation LocalStorage := (gmap string string).

(** The common body of [loadShapes] and [loadLogs]:
    [raw ? JSON.parse(raw) : []] inside a [try] whose [catch] returns [[]].
    [parse] stands for [JSON.parse] at the type the caller casts to; [None]
    is a thrown exception.  A missing key ([getItem] returns [null]) and the
    empty string are both falsy. *)
Definition load {A : Type} (KEY : string) (parse : string → option (list A))
    (storage : LocalStorage) : list A :=
  match storage !! KEY with
  | None => []
  | Some raw =>
      if decide (raw = "") then []
      else match parse raw with
           | Some value => value
           | None => []
           end
  end.

(** The common body of [saveShapes] and [saveLogs]:
    [localStorage.setItem(KEY, JSON.stringify(value))]. *)
Definition save {A : Type} (KEY : string) (stringify : list A → string)
    (value : list A) (storage : LocalStorage) : LocalStorage :=
  <[KEY := stringify value]> storage.

Definition loadShapes {A : Type} := @load A SHAPES_KEY.
Definition saveShapes {A : Type} := @save A SHAPES_KEY.
Definition loadLogs {A : Type} := @load A LOGS_KEY.
Definition saveLogs {A : Type} := @save A LOGS_KEY.

End Storage.

(** ** App: the editor and the drill *)

Module Trainer.

(** [interface SavedShape] *)
Record SavedShape := mkShape {
  shape_id : string;
  shape_name : string;
  shape_size : Z;
  shape_stones : BoardState;
  shape_createdAt : Z
}.

Inductive View := editor | drill | log.

(** The state variables of [App] that the handlers below read or write. *)
Record State := mkState {
  view : View;
  mobileMenuOpen : bool;
  boardSize : Z;
  stones : BoardState;
  currentToolColor : StoneColor;
  savedShapes : list SavedShape;
  newShapeName : string;
  drillPhase : App.DrillPhase;
  drillTarget : option BoardState;
  drillTimer : Z;
  feedback : option App.Feedback;
  selectedShapeId : string
}.

(** The initial values of the [useState] calls. *)
Definition initialState : State :=
  {| view := editor; mobileMenuOpen := false; boardSize := 19; stones := ∅;
     currentToolColor := black; savedShapes := []; newShapeName := "";
     drillPhase := App.idle; drillTarget := None; drillTimer := 0;
     feedback := None; selectedShapeId := "" |}.

Definition setStones (b : BoardState) (st : State) : State :=
  {| view := view st; mobileMenuOpen := mobileMenuOpen st;
     boardSize := boardSize st; stones := b;
     currentToolColor := currentToolColor st; savedShapes := savedShapes st;
     newShapeName := newShapeName st; drillPhase := drillPhase st;
     drillTarget := drillTarget st; drillTimer := drillTimer st;
     feedback := feedback st; selectedShapeId := selectedShapeId st |}.

(** The updater passed to [setStones] by [handleIntersectionClick]: on the
    copy [{ ...prev }], delete the key when it holds a stone, write the tool
    color otherwise. *)
Definition toggleStone (k : string) (tool : StoneColor) (prev : BoardState)
    : BoardState :=
  match prev !! k with
  | Some _ => delete k prev
  | None => <[k := tool]> prev
  end.

(** [handleIntersectionClick(x, y)] *)
Definition handleIntersectionClick (st : State) (x y : Z) : State :=
  match drillPhase st with
  | App.memorize | App.feedbackPhase => st
  | _ => setStones (toggleStone (key x y) (currentToolColor st) (stones st)) st
  end.

(** [endDrill()] *)
Definition endDrill (st : State) : State :=
  {| view := view st; mobileMenuOpen := mobileMenuOpen st;
     boardSize := boardSize st; stones := ∅;
     currentToolColor := currentToolColor st; savedShapes := savedShapes st;
     newShapeName := newShapeName st; drillPhase := App.idle;
     drillTarget := None; drillTimer := drillTimer st;
     feedback := None; selectedShapeId := selectedShapeId st |}.

(** [clearBoard()] *)
Definition clearBoard (st : State) : State :=
  let st1 := setStones ∅ st in
  match drillPhase st with
  | App.idle => st1
  | _ => endDrill st1
  end.

(** [startDrill(shape)] *)
Definition startDrill (shape : SavedShape) (st : State) : State :=
  {| view := drill; mobileMenuOpen := mobileMenuOpen st;
     boardSize := shape_size shape; stones := shape_stones shape;
     currentToolColor := currentToolColor st; savedShapes := savedShapes st;
     newShapeName := newShapeName st; drillPhase := App.memorize;
     drillTarget := Some (shape_stones shape); drillTimer := 5;
     feedback := None; selectedShapeId := selectedShapeId st |}.

(** [checkDrill()] on the state of [App]. *)
Definition checkDrill (st : State) : State :=
  match drillTarget st with
  | None => st
  | Some target =>
      {| view := view st; mobileMenuOpen := mobileMenuOpen st;
         boardSize := boardSize st; stones := stones st;
         currentToolColor := currentToolColor st;
         savedShapes := savedShapes st; newShapeName := newShapeName st;
         drillPhase := App.feedbackPhase; drillTarget := drillTarget st;
         drillTimer := drillTimer st;
         feedback := Some (App.diff target (stones st));
         selectedShapeId := selectedShapeId st |}
  end.

(** [retryDrill()]; the empty id is falsy. *)
Definition retryDrill (st : State) : State :=
  if decide (selectedShapeId st = "") then st
  else match list_find (λ s, shape_id s = selectedShapeId st) (savedShapes st) with
       | Some (_, shape) => startDrill shape st
       | None => st
       end.

(** The drill timer, one step: the effect on [[drillPhase, drillTimer]].
    While memorizing with time left, the interval fires after a second and
    runs [setDrillTimer(prev => prev - 1)]; while memorizing with no time
    left, the effect itself clears the board and starts the rebuild; in the
    other phases nothing is scheduled. *)
Definition drillTick (st : State) : State :=
  match drillPhase st with
  | App.memorize =>
      if decide (0 < drillTimer st) then
        {| view := view st; mobileMenuOpen := mobileMenuOpen st;
           boardSize := boardSize st; stones := stones st;
           currentToolColor := currentToolColor st;
           savedShapes := savedShapes st; newShapeName := newShapeName st;
           drillPhase := drillPhase st; drillTarget := drillTarget st;
           drillTimer := drillTimer st - 1;
           feedback := feedback st; selectedShapeId := selectedShapeId st |}
      else if decide (drillTimer st = 0) then
        {| view := view st; mobileMenuOpen := mobileMenuOpen st;
           boardSize := boardSize st; stones := ∅;
           currentToolColor := currentToolColor st;
           savedShapes := savedShapes st; newShapeName := newShapeName st;
           drillPhase := App.rebuild; drillTarget := drillTarget st;
           drillTimer := drillTimer st;
           feedback := feedback st; selectedShapeId := selectedShapeId st |}
      else st
  | _ => st
  end.

(** The board of the drill view: [<GoBoard size={boardSize} stones={stones}
    onIntersectionClick={handleIntersectionClick}
    readOnly={drillPhase === 'memorize' || drillPhase === 'feedback'} .../>],
    clicked at the grid position [(xGrid, yGrid)]. *)
Definition drillBoardClick (xGrid yGrid : Z) (st : State) : State :=
  GoBoard.handleBoardClick (boardSize st)
    (match drillPhase st with
     | App.memorize | App.feedbackPhase => true
     | _ => false
     end)
    (Some (λ x y st, handleIntersectionClick st x y))
    xGrid yGrid st.

(** The board of the editor view: [<GoBoard size={boardSize} stones={stones}
    onIntersectionClick={handleIntersectionClick} />]; [readOnly] is
    absent, hence falsy. *)
Definition editorBoardClick (xGrid yGrid : Z) (st : State) : State :=
  GoBoard.handleBoardClick (boardSize st) false
    (Some (λ x y st, handleIntersectionClick st x y))
    xGrid yGrid st.

(** The click on the [i]-th interaction target of either board of [App]. *)
Definition targetClick (readOnly : bool) (i : Z) (st : State) : State :=
  GoBoard.handleTargetClick (boardSize st) readOnly
    (Some (λ x y st, handleIntersectionClick st x y))
    i st.

(** [saveShape()], with the storage it writes.  [trim] stands for
    [String.prototype.trim]; [now1] and [now2] are the two readings of
    [Date.now()], for the id and for [createdAt].  [stones: { ...stones }]
    is a copy of the board. *)
Definition saveShape (trim : string → string)
    (stringify : list SavedShape → string) (now1 now2 : Z)
    (w : State * Storage.LocalStorage) : State * Storage.LocalStorage :=
  let st := w.1 in
  if decide (trim (newShapeName st) = "") then w
  else
    let newShape :=
      {| shape_id := showZ now1; shape_name := newShapeName st;
         shape_size := boardSize st; shape_stones := stones st;
         shape_createdAt := now2 |} in
    let updated := savedShapes st ++ [newShape] in
    ({| view := view st; mobileMenuOpen := mobileMenuOpen st;
        boardSize := boardSize st; stones := stones st;
        currentToolColor := currentToolColor st; savedShapes := updated;
        newShapeName := ""; drillPhase := drillPhase st;
        drillTarget := drillTarget st; drillTimer := drillTimer st;
        feedback := feedback st; selectedShapeId := selectedShapeId st |},
     Storage.saveShapes stringify updated w.2).

(** [deleteShape(id)]; [confirmed] is the answer to [confirm(...)]. *)
Definition deleteShape (stringify : list SavedShape → string)
    (confirmed : bool) (id : string)
    (w : State * Storage.LocalStorage) : State * Storage.LocalStorage :=
  let st := w.1 in
  if confirmed then
    let updated := filter (λ s, shape_id s ≠ id) (savedShapes st) in
    ({| view := view st; mobileMenuOpen := mobileMenuOpen st;
        boardSize := boardSize st; stones := stones st;
        currentToolColor := currentToolColor st; savedShapes := updated;
        newShapeName := newShapeName st; drillPhase := drillPhase st;
        drillTarget := drillTarget st; drillTimer := drillTimer st;
        feedback := feedback st;
        selectedShapeId :=
          if decide (selectedShapeId st = id) then "" else selectedShapeId st |},
     Storage.saveShapes stringify updated w.2)
  else w.

(** The click on a [NavButton]: [setView(id)], [setMobileMenuOpen(false)]
    and, for the editor, [endDrill()], [setStones({})] and
    [setNewShapeName("")]. *)
Definition navigate (id : View) (st : State) : State :=
  let st1 :=
    {| view := id; mobileMenuOpen := false;
       boardSize := boardSize st; stones := stones st;
       currentToolColor := currentToolColor st; savedShapes := savedShapes st;
       newShapeName := newShapeName st; drillPhase := drillPhase st;
       drillTarget := drillTarget st; drillTimer := drillTimer st;
       feedback := feedback st; selectedShapeId := selectedShapeId st |} in
  match id with
  | editor =>
      let st2 := setStones ∅ (endDrill st1) in
      {| view := view st2; mobileMenuOpen := mobileMenuOpen st2;
         boardSize := boardSize st2; stones := stones st2;
         currentToolColor := currentToolColor st2;
         savedShapes := savedShapes st2;
         newShapeName := ""; drillPhase := drillPhase st2;
         drillTarget := drillTarget st2; drillTimer := drillTimer st2;
         feedback := feedback st2; selectedShapeId := selectedShapeId st2 |}
  | _ => st1
  end.

(** [setMobileMenuOpen(open)], of the menu button and of the overlay. *)
Definition setMobileMenuOpen (open : bool) (st : State) : State :=
  {| view := view st; mobileMenuOpen := open;
     boardSize := boardSize st; stones := stones st;
     currentToolColor := currentToolColor st; savedShapes := savedShapes st;
     newShapeName := newShapeName st; drillPhase := drillPhase st;
     drillTarget := drillTarget st; drillTimer := drillTimer st;
     feedback := feedback st; selectedShapeId := selectedShapeId st |}.

(** The size buttons of the editor: [setBoardSize(s); setStones({})]. *)
Definition chooseSize (s : Z) (st : State) : State :=
  {| view := view st; mobileMenuOpen := mobileMenuOpen st;
     boardSize := s; stones := ∅;
     currentToolColor := currentToolColor st; savedShapes := savedShapes st;
     newShapeName := newShapeName st; drillPhase := drillPhase st;
     drillTarget := drillTarget st; drillTimer := drillTimer st;
     feedback := feedback st; selectedShapeId := selectedShapeId st |}.

(** [setCurrentToolColor(color)], of the tool buttons. *)
Definition setCurrentToolColor (color : StoneColor) (st : State) : State :=
  {| view := view st; mobileMenuOpen := mobileMenuOpen st;
     boardSize := boardSize st; stones := stones st;
     currentToolColor := color; savedShapes := savedShapes st;
     newShapeName := newShapeName st; drillPhase := drillPhase st;
     drillTarget := drillTarget st; drillTimer := drillTimer st;
     feedback := feedback st; selectedShapeId := selectedShapeId st |}.

(** [setNewShapeName(e.target.value)], of the name input. *)
Definition setNewShapeName (name : string) (st : State) : State :=
  {| view := view st; mobileMenuOpen := mobileMenuOpen st;
     boardSize := boardSize st; stones := stones st;
     currentToolColor := currentToolColor st; savedShapes := savedShapes st;
     newShapeName := name; drillPhase := drillPhase st;
     drillTarget := drillTarget st; drillTimer := drillTimer st;
     feedback := feedback st; selectedShapeId := selectedShapeId st |}.

(** [setSavedShapes(shapes)] *)
Definition setSavedShapes (shapes : list SavedShape) (st : State) : State :=
  {| view := view st; mobileMenuOpen := mobileMenuOpen st;
     boardSize := boardSize st; stones := stones st;
     currentToolColor := currentToolColor st; savedShapes := shapes;
     newShapeName := newShapeName st; drillPhase := drillPhase st;
     drillTarget := drillTarget st; drillTimer := drillTimer st;
     feedback := feedback st; selectedShapeId := selectedShapeId st |}.

(** The click on a shape of the library of the editor:
    [setBoardSize(shape.size); setStones(shape.stones)]. *)
Definition loadShape (shape : SavedShape) (st : State) : State :=
  {| view := view st; mobileMenuOpen := mobileMenuOpen st;
     boardSize := shape_size shape; stones := shape_stones shape;
     currentToolColor := currentToolColor st; savedShapes := savedShapes st;
     newShapeName := newShapeName st; drillPhase := drillPhase st;
     drillTarget := drillTarget st; drillTimer := drillTimer st;
     feedback := feedback st; selectedShapeId := selectedShapeId st |}.

(** [setSelectedShapeId(id)] *)
Definition setSelectedShapeId (id : string) (st : State) : State :=
  {| view := view st; mobileMenuOpen := mobileMenuOpen st;
     boardSize := boardSize st; stones := stones st;
     currentToolColor := currentToolColor st; savedShapes := savedShapes st;
     newShapeName := newShapeName st; drillPhase := drillPhase st;
     drillTarget := drillTarget st; drillTimer := drillTimer st;
     feedback := feedback st; selectedShapeId := id |}.

(** The click on a shape of the list of the drill view:
    [setSelectedShapeId(shape.id); startDrill(shape)]. *)
Definition selectShape (shape : SavedShape) (st : State) : State :=
  startDrill shape (setSelectedShapeId (shape_id shape) st).

(** [startRandomDrill()]; [random] is the value of
    [Math.floor(Math.random() * savedShapes.length)], an index of the
    library. *)
Definition startRandomDrill (random : nat) (st : State) : State :=
  if decide (length (savedShapes st) = 0%nat) then st
  else match savedShapes st !! random with
       | Some randomShape => selectShape randomShape st
       | None => st
       end.

(** The button Done of the results: [setDrillPhase('idle')]. *)
Definition done (st : State) : State :=
  {| view := view st; mobileMenuOpen := mobileMenuOpen st;
     boardSize := boardSize st; stones := stones st;
     currentToolColor := currentToolColor st; savedShapes := savedShapes st;
     newShapeName := newShapeName st; drillPhase := App.idle;
     drillTarget := drillTarget st; drillTimer := drillTimer st;
     feedback := feedback st; selectedShapeId := selectedShapeId st |}.

(** The click on the [i]-th interaction target of the board of the drill. *)
Definition drillTargetClick (i : Z) (st : State) : State :=
  targetClick
    (match drillPhase st with
     | App.memorize | App.feedbackPhase => true
     | _ => false
     end) i st.

(** [App] and the storage it writes. *)
Definition World : Type := State * Storage.LocalStorage.

Definition onState (f : State → State) (w : World) : World := (f w.1, w.2).

(** [App] after its initialization effect, as far as the shapes go:
    [setSavedShapes(loadShapes())]. *)
Definition initialize (parse : string → option (list SavedShape))
    (storage : Storage.LocalStorage) : World :=
  (setSavedShapes (Storage.loadShapes parse storage) initialState, storage).

(** The user interface of [App]: the handler that each control runs, under
    the condition under which the control is rendered; and the drill timer,
    which runs in every view. *)
Inductive step (trim : string → string)
    (stringify : list SavedShape → string) : World → World → Prop :=
| step_navigate id w : step trim stringify w (onState (navigate id) w)
| step_menu open w : step trim stringify w (onState (setMobileMenuOpen open) w)
| step_chooseSize s w :
    view w.1 = editor → s ∈ [9; 13; 19] →
    step trim stringify w (onState (chooseSize s) w)
| step_tool color w :
    view w.1 = editor ∨ (view w.1 = drill ∧ drillPhase w.1 = App.rebuild) →
    step trim stringify w (onState (setCurrentToolColor color) w)
| step_name name w :
    view w.1 = editor →
    step trim stringify w (onState (setNewShapeName name) w)
| step_saveShape now1 now2 w :
    view w.1 = editor →
    step trim stringify w (saveShape trim stringify now1 now2 w)
| step_clearBoard w :
    view w.1 = editor → step trim stringify w (onState clearBoard w)
| step_editorBoard x y w :
    view w.1 = editor →
    step trim stringify w (onState (editorBoardClick x y) w)
| step_editorTarget i w :
    view w.1 = editor → 0 ≤ i < boardSize w.1 * boardSize w.1 →
    step trim stringify w (onState (targetClick false i) w)
| step_loadShape shape w :
    view w.1 = editor → shape ∈ savedShapes w.1 →
    step trim stringify w (onState (loadShape shape) w)
| step_deleteShape confirmed shape w :
    view w.1 = editor → shape ∈ savedShapes w.1 →
    step trim stringify w (deleteShape stringify confirmed (shape_id shape) w)
| step_randomDrill random w :
    view w.1 = drill → drillPhase w.1 = App.idle →
    (random < length (savedShapes w.1))%nat ∨ savedShapes w.1 = [] →
    step trim stringify w (onState (startRandomDrill random) w)
| step_selectShape shape w :
    view w.1 = drill → drillPhase w.1 = App.idle →
    shape ∈ savedShapes w.1 →
    step trim stringify w (onState (selectShape shape) w)
| step_drillBoard x y w :
    view w.1 = drill → drillPhase w.1 ≠ App.idle →
    step trim stringify w (onState (drillBoardClick x y) w)
| step_drillTarget i w :
    view w.1 = drill → drillPhase w.1 ≠ App.idle →
    0 ≤ i < boardSize w.1 * boardSize w.1 →
    step trim stringify w (onState (drillTargetClick i) w)
| step_checkDrill w :
    view w.1 = drill → drillPhase w.1 = App.rebuild →
    step trim stringify w (onState checkDrill w)
| step_retryDrill w :
    view w.1 = drill → drillPhase w.1 = App.feedbackPhase →
    step trim stringify w (onState retryDrill w)
| step_done w :
    view w.1 = drill → drillPhase w.1 = App.feedbackPhase →
    step trim stringify w (onState done w)
| step_endDrill w :
    view w.1 = drill → drillPhase w.1 ≠ App.idle →
    drillPhase w.1 ≠ App.feedbackPhase →
    step trim stringify w (onState endDrill w)
| step_drillTick w : step trim stringify w (onState drillTick w).

End Trainer.

(** ** components/GoBoard: what is drawn on the board *)

Module BoardView.

(** One drawn stone: the [<g key={key}>] of a stone with its optional
    markers.  [sv_at] is [key.split(',').map(Number)], from which the pixel
    position is computed. *)
Record StoneView := mkStoneView {
  sv_key : string;
  sv_at : option (Z * Z);
  sv_color : StoneColor;
  sv_lastMove : bool;
  sv_extra : bool;
  sv_correct : bool
}.

(** [feedback?.missing.includes(key)] and its two siblings. *)
Definition included (select : App.Feedback → list string)
    (feedback : option App.Feedback) (k : string) : bool :=
  match feedback with
  | Some fb => bool_decide (k ∈ select fb)
  | None => false
  end.

(** [lastMove && lastMove.x === x && lastMove.y === y] *)
Definition isLastMove (lastMove : option (Z * Z)) (at_ : option (Z * Z))
    : bool :=
  match lastMove, at_ with
  | Some l, Some c => bool_decide (l = c)
  | _, _ => false
  end.

(** The callback of [Object.entries(stones).map]: [None] is the [null] of a
    stone listed as missing. *)
Definition stoneView (lastMove : option (Z * Z))
    (feedback : option App.Feedback) (entry : string * StoneColor)
    : option StoneView :=
  if included App.missing feedback entry.1 then None
  else Some {| sv_key := entry.1;
               sv_at := parseKey entry.1;
               sv_color := entry.2;
               sv_lastMove := isLastMove lastMove (parseKey entry.1);
               sv_extra := included App.extra feedback entry.1;
               sv_correct := included App.correct feedback entry.1 |}.

(** The stones drawn: React skips the [null]s. *)
Definition stoneViews (stones : BoardState) (lastMove : option (Z * Z))
    (feedback : option App.Feedback) : list StoneView :=
  omap (stoneView lastMove feedback) (map_to_list stones).

(** The dashed ghosts: [feedback?.missing.map(...)], by key. *)
Definition ghosts (feedback : option App.Feedback) : list string :=
  match feedback with
  | Some fb => App.missing fb
  | None => []
  end.

(** The coordinates of the invisible interaction targets, in the order of
    [Array.from({ length: size * size }).map((_, i) => ...)]; none when the
    board is read-only. *)
Definition targets (size : Z) (readOnly : bool) : list (Z * Z) :=
  if readOnly then []
  else (λ i, (i `mod` size, i `div` size)) <$> seqZ 0 (size * size).

End BoardView.

(** ** components/GameLog: the record form and the replay viewer *)

Module Viewer.

(** [interface GameRecord], as the code reads it from storage: [gr_moves]
    is [None] for a legacy record without move data, which the viewer tests
    with [log.moves ? ... : ...], and [gr_opponent] is the legacy field
    [opponent], [None] when absent. *)
Record GameRecord := mkRecord {
  gr_id : string;
  gr_date : string;
  gr_blackPlayer : string;
  gr_whitePlayer : string;
  gr_opponent : option string;
  gr_size : Z;
  gr_result : string;
  gr_notes : string;
  gr_finalStones : BoardState;
  gr_moves : option (list Move);
  gr_captures : GameLog.Captures
}.

(** The fields of the record form. *)
Record Form := mkForm {
  isFormOpen : bool;
  date : string;
  blackPlayer : string;
  whitePlayer : string;
  size : Z;
  result : string;
  notes : string
}.

(** [s || fallback]: the empty string is falsy. *)
Definition orElse (s fallback : string) : string :=
  if decide (s = "") then fallback else s.

(** [handleSubmit(e)]: the record handed to [onAddLog], if any, and the form
    and recorder afterwards.  [now] is [Date.now()] and [today] the date
    string the form is reset to. *)
Definition handleSubmit (now : Z) (today : string)
    (form : Form) (rec : GameLog.Recorder)
    : option GameRecord * Form * GameLog.Recorder :=
  if decide (blackPlayer form = "" ∧ whitePlayer form = "")
  then (None, form, rec)
  else
    (Some {| gr_id := showZ now;
             gr_date := date form;
             gr_blackPlayer := orElse (blackPlayer form) "Black";
             gr_whitePlayer := orElse (whitePlayer form) "White";
             gr_opponent := None;
             gr_size := size form;
             gr_result := orElse (result form) "?";
             gr_notes := notes form;
             gr_finalStones := GameLog.board rec;
             gr_moves := Some (GameLog.moves rec);
             gr_captures := GameLog.captures rec |},
     {| isFormOpen := false; date := today; blackPlayer := "";
        whitePlayer := ""; size := size form; result := ""; notes := "" |},
     GameLog.resetRecorder).

(** The migration of the initialization effect of [App], for one record:
    [blackPlayer: log.blackPlayer || 'Black'] and
    [whitePlayer: log.whitePlayer || log.opponent || 'White']. *)
Definition migrate (log : GameRecord) : GameRecord :=
  {| gr_id := gr_id log;
     gr_date := gr_date log;
     gr_blackPlayer := orElse (gr_blackPlayer log) "Black";
     gr_whitePlayer :=
       orElse (gr_whitePlayer log) (orElse (default "" (gr_opponent log)) "White");
     gr_opponent := gr_opponent log;
     gr_size := gr_size log;
     gr_result := gr_result log;
     gr_notes := gr_notes log;
     gr_finalStones := gr_finalStones log;
     gr_moves := gr_moves log;
     gr_captures := gr_captures log |}.

(** The logs of [App] after the initialization effect:
    [loadLogs().map(log => ...)]. *)
Definition initialLogs (parse : string → option (list GameRecord))
    (storage : Storage.LocalStorage) : list GameRecord :=
  migrate <$> Storage.loadLogs parse storage.

(** [addLog(log)] of [App], the [onAddLog] of the form, with the storage it
    writes. *)
Definition addLog (stringify : list GameRecord → string) (log : GameRecord)
    (w : list GameRecord * Storage.LocalStorage)
    : list GameRecord * Storage.LocalStorage :=
  (w.1 ++ [log], Storage.saveLogs stringify (w.1 ++ [log]) w.2).

(** [deleteLog(id)] of [App]; [confirmed] is the answer to [confirm(...)]. *)
Definition deleteLog (stringify : list GameRecord → string)
    (confirmed : bool) (id : string)
    (w : list GameRecord * Storage.LocalStorage)
    : list GameRecord * Storage.LocalStorage :=
  if confirmed then
    let updated := filter (λ l, gr_id l ≠ id) w.1 in
    (updated, Storage.saveLogs stringify updated w.2)
  else w.

(** What the board of the recorder draws: [<GoBoard size={size}
    stones={board} lastMove={moves.length > 0 ? moves[moves.length-1] : null}
    .../>]; the board reads [lastMove.x] and [lastMove.y]. *)
Definition recorderBoard (rec : GameLog.Recorder)
    : list BoardView.StoneView :=
  BoardView.stoneViews (GameLog.board rec)
    ((λ m, (m_x m, m_y m)) <$> last (GameLog.moves rec)) None.

(** The replay state of the viewer. *)
Record Replay := mkReplay {
  expandedLogId : option string;
  replayMoveIndex : Z;
  replayAuto : bool
}.

(** The initial values of the three [useState] calls. *)
Definition initialReplay : Replay :=
  {| expandedLogId := None; replayMoveIndex := -1; replayAuto := false |}.

(** [list.slice(0, end)]: a negative [end] counts from the end of the
    array. *)
Definition slice0 {A : Type} (l : list A) (end_ : Z) : list A :=
  if decide (end_ < 0) then take (Z.to_nat (Z.of_nat (length l) + end_)) l
  else take (Z.to_nat end_) l.

(** [logs.find(l => l.id === id)] *)
Definition findLog (logs : list GameRecord) (id : string)
    : option GameRecord :=
  snd <$> list_find (λ l, gr_id l = id) logs.

(** What [currentReplayState] holds: [board], [captures], [lastMove]. *)
Record ReplayState := mkReplayState {
  rs_board : BoardState;
  rs_captures : GameLog.Captures;
  rs_lastMove : option Move
}.

(** [currentReplayState]; [None] is [null].  A [null] or empty
    [expandedLogId] is falsy. *)
Definition currentReplayState (logs : list GameRecord) (r : Replay)
    : option ReplayState :=
  match expandedLogId r with
  | None => None
  | Some id =>
      if decide (id = "") then None
      else match findLog logs id with
           | None => None
           | Some log =>
               match gr_moves log with
               | None => None
               | Some moves =>
                   let movesUntilIndex := slice0 moves (replayMoveIndex r + 1) in
                   let played := GameLog.replayGame movesUntilIndex (gr_size log) in
                   Some {| rs_board := played.1;
                           rs_captures := played.2;
                           rs_lastMove := last movesUntilIndex |}
               end
           end
  end.

(** The click on the header of a log: expand it at its last move, or
    collapse it. *)
Definition toggleLog (log : GameRecord) (r : Replay) : Replay :=
  if decide (expandedLogId r ≠ Some (gr_id log)) then
    {| expandedLogId := Some (gr_id log);
       replayMoveIndex :=
         match gr_moves log with
         | Some moves => Z.of_nat (length moves) - 1
         | None => -1
         end;
       replayAuto := false |}
  else
    {| expandedLogId := None; replayMoveIndex := replayMoveIndex r;
       replayAuto := replayAuto r |}.

(** The five replay controls of a log with [n] moves, left to right. *)
Definition skipBack (r : Replay) : Replay :=
  {| expandedLogId := expandedLogId r; replayMoveIndex := -1;
     replayAuto := replayAuto r |}.

Definition stepBack (r : Replay) : Replay :=
  {| expandedLogId := expandedLogId r;
     replayMoveIndex := Z.max (-1) (replayMoveIndex r - 1);
     replayAuto := replayAuto r |}.

Definition togglePlay (r : Replay) : Replay :=
  {| expandedLogId := expandedLogId r; replayMoveIndex := replayMoveIndex r;
     replayAuto := negb (replayAuto r) |}.

Definition stepForward (n : nat) (r : Replay) : Replay :=
  {| expandedLogId := expandedLogId r;
     replayMoveIndex := Z.min (Z.of_nat n - 1) (replayMoveIndex r + 1);
     replayAuto := replayAuto r |}.

Definition skipForward (n : nat) (r : Replay) : Replay :=
  {| expandedLogId := expandedLogId r; replayMoveIndex := Z.of_nat n - 1;
     replayAuto := replayAuto r |}.

(** One firing of the auto-play interval, which runs while [replayAuto] and
    [expandedLogId] hold: the updater of [setReplayMoveIndex].  A legacy
    record has no [moves] to take the length of; the play button is not
    drawn for it, and the state is left as it is. *)
Definition autoTick (logs : list GameRecord) (r : Replay) : Replay :=
  match expandedLogId r with
  | None => r
  | Some id =>
      if negb (replayAuto r) || bool_decide (id = "") then r
      else
        let stop := {| expandedLogId := expandedLogId r;
                       replayMoveIndex := replayMoveIndex r;
                       replayAuto := false |} in
        match findLog logs id with
        | None => stop
        | Some log =>
            match gr_moves log with
            | None => r
            | Some moves =>
                if decide (replayMoveIndex r < Z.of_nat (length moves) - 1)
                then {| expandedLogId := expandedLogId r;
                        replayMoveIndex := replayMoveIndex r + 1;
                        replayAuto := replayAuto r |}
                else stop
            end
        end
  end.

End Viewer.

(** * Specification vocabulary *)

(** ** The board and its groups *)

(** [c] lies on the board of side [size]. *)
Definition onBoard (size : Z) (c : Z * Z) : Prop :=
  0 ≤ c.1 ∧ c.1 < size ∧ 0 ≤ c.2 ∧ c.2 < size.

(** 4-directional adjacency of two coordinates. *)
Definition adjacent4 (c c' : Z * Z) : Prop :=
  Z.abs (c.1 - c'.1) + Z.abs (c.2 - c'.2) = 1.

(** [connected board color size s c]: there is a chain of neighbors from [s]
    to [c] along which every cell after [s] holds a stone of [color]. *)
Inductive connected (board : BoardState) (color : StoneColor) (size : Z)
    (s : Z * Z) : Z * Z → Prop :=
| connected_refl : connected board color size s s
| connected_step c c' :
    connected board color size s c →
    c' ∈ getNeighbors c.1 c.2 size →
    board !! keyOf c' = Some color →
    connected board color size s c'.

Global Instance onBoard_dec size c : Decision (onBoard size c).
Proof. unfold onBoard. apply _. Defined.

(** ** Liberties *)

(** [k], a member of a group, is the key of a cell adjacent to [c]. *)
Definition memberAdjacent (c : Z * Z) (k : string) : Prop :=
  match parseKey k with
  | Some m => adjacent4 m c
  | None => False
  end.

Global Instance memberAdjacent_dec c k : Decision (memberAdjacent c k).
Proof. unfold memberAdjacent, adjacent4. destruct (parseKey k); apply _. Defined.

(** A liberty of [group], in the words of the specification: an empty cell
    4-directionally adjacent to at least one member of the group. *)
Definition isLiberty (board : BoardState) (group : list string)
    (c : Z * Z) : Prop :=
  board !! keyOf c = None ∧ Exists (memberAdjacent c) group.

Global Instance isLiberty_dec board group c : Decision (isLiberty board group c).
Proof. unfold isLiberty. apply _. Defined.

(** All the cells of a board of side [size], each once. *)
Definition cells (size : Z) : list (Z * Z) :=
  x ← seqZ 0 size; y ← seqZ 0 size; [(x, y)].

(** The liberty count of the specification: the number of distinct cells of
    the board that are liberties of the group. *)
Definition liberties (board : BoardState) (group : list string) (size : Z)
    : nat :=
  length (filter (isLiberty board group) (cells size)).

(** ** Capture resolution *)

(** The stones of the group of the neighbor [n] when [n] holds a stone of
    [opponent] and that group has no liberty on [board]; no stone
    otherwise. *)
Definition deadGroup (board : BoardState) (opponent : StoneColor) (size : Z)
    (n : Z * Z) : list string :=
  if decide (board !! keyOf n = Some opponent) then
    match getGroup board n.1 n.2 size with
    | Some g => if decide (countLiberties board g size = 0%nat) then g else []
    | None => []
    end
  else [].

(** The stones of all the dead groups among the neighbors [ns], judged on
    the one [board]. *)
Definition deadStones (board : BoardState) (opponent : StoneColor) (size : Z)
    (ns : list (Z * Z)) : gset string :=
  ⋃ (list_to_set <$> (deadGroup board opponent size <$> ns)).

(** [board] without the stones of [D]. *)
Definition without (D : gset string) (board : BoardState) : BoardState :=
  filter (λ kv, kv.1 ∉ D) board.

(** ** Capture, in the words of the specification *)




(** ** The recorder, live *)

(** The recorder after a sequence of clicks, each of which was accepted;
    [None] as soon as one click is refused. *)
Definition liveStep (size : Z) (st : option GameLog.Recorder) (c : Z * Z)
    : option GameLog.Recorder :=
  st ≫= λ s,
    match GameLog.handleBoardClick size s c.1 c.2 with
    | (GameLog.Placed, s') => Some s'
    | _ => None
    end.

Definition live (size : Z) (clicks : list (Z * Z)) : option GameLog.Recorder :=
  foldl (liveStep size) (Some GameLog.resetRecorder) clicks.

(** The sum of the [captures] of the moves played by [color]; a move
    without the optional field counts for nothing. *)
Definition capturedBy (color : StoneColor) (moveList : list Move) : nat :=
  sum_list_with (λ m, default 0%nat (m_captures m))
    (filter (λ m, m_color m = color) moveList).

(** The Capture Tally of a Move List: the sum of the [captures] of the moves,
    grouped by the color of the mover. *)
Definition tally (moveList : list Move) : GameLog.Captures :=
  GameLog.mkCaptures (capturedBy black moveList) (capturedBy white moveList).

(** The recorder states the user can reach: from the initial state by
    clicks, accepted or not, and by undos. *)
Inductive reachable (size : Z) : GameLog.Recorder → Prop :=
| reachable_reset : reachable size GameLog.resetRecorder
| reachable_click st x y :
    reachable size st →
    reachable size (GameLog.handleBoardClick size st x y).2
| reachable_undo st :
    reachable size st → reachable size (GameLog.undoLastMove size st).

(** The color to play after [n] moves. *)
Definition toPlay (n : nat) : StoneColor :=
  if decide (n mod 2 = 0)%nat then black else white.

(** ** Example positions, on the 9x9 board *)

(** Black (1,0), White (0,0): the white corner stone has one liberty left,
    at (0,1). *)
Definition atariClicks : list (Z * Z) := [(1, 0); (0, 0)].

(** Black (1,0), White (5,5), Black (0,1): the corner (0,0) is empty and both
    its neighbors are black. *)
Definition cornerClicks : list (Z * Z) := [(1, 0); (5, 5); (0, 1)].

Definition atariState : GameLog.Recorder :=
  default GameLog.resetRecorder (live 9 atariClicks).

Definition capturedState : GameLog.Recorder :=
  default GameLog.resetRecorder (live 9 (atariClicks ++ [(0, 1)])).

Definition cornerState : GameLog.Recorder :=
  default GameLog.resetRecorder (live 9 cornerClicks).




(** The three arrays of a Diff Result are pairwise disjoint. *)
Definition pairwiseDisjoint (fb : App.Feedback) : Prop :=
  (∀ k, k ∈ App.correct fb → k ∉ App.missing fb) ∧
  (∀ k, k ∈ App.correct fb → k ∉ App.extra fb) ∧
  (∀ k, k ∈ App.missing fb → k ∉ App.extra fb).

(** ** Legal positions *)

(** The group of the stone of [color] at [c] has a liberty: some cell
    connected to [c] has an empty neighbor. *)
Definition hasLiberty (board : BoardState) (color : StoneColor) (size : Z)
    (c : Z * Z) : Prop :=
  ∃ c1 c2, connected board color size c c1 ∧
           c2 ∈ getNeighbors c1.1 c1.2 size ∧ board !! keyOf c2 = None.

(** Every key of [board] is the key of a cell of the board of side
    [size]. *)
Definition onBoardPosition (size : Z) (board : BoardState) : Prop :=
  ∀ k, is_Some (board !! k) → ∃ c, k = keyOf c ∧ onBoard size c.

(** Every stone of [board] is in a group that [countLiberties] gives at
    least one liberty. *)
Definition alive (size : Z) (board : BoardState) : Prop :=
  ∀ c color, board !! keyOf c = Some color →
    ∃ g, getGroup board c.1 c.2 size = Some g ∧
         countLiberties board g size ≠ 0%nat.

(** Black (0,0), White (5,5), Black (0,1): a black group of two stones. *)
Definition pairClicks : list (Z * Z) := [(0, 0); (5, 5); (0, 1)].

Definition pairState : GameLog.Recorder :=
  default GameLog.resetRecorder (live 9 pairClicks).

(** A reachable recorder with a refused click and an undo in its history:
    Black (1,0), a click on the same cell, White (0,0), undo. *)
Definition wanderState : GameLog.Recorder :=
  GameLog.undoLastMove 9
    (GameLog.handleBoardClick 9
       (GameLog.handleBoardClick 9
          (GameLog.handleBoardClick 9 GameLog.resetRecorder 1 0).2 1 0).2
       0 0).2.

(** ** The trainer *)

(** One click of the user on a board of the trainer: on the board of the
    editor, on the board of the drill, or on one of the interaction targets
    of either. *)
Inductive boardClicked : Trainer.State → Trainer.State → Prop :=
| clicked_editor st x y : boardClicked st (Trainer.editorBoardClick x y st)
| clicked_drill st x y : boardClicked st (Trainer.drillBoardClick x y st)
| clicked_target st i :
    0 ≤ i < Trainer.boardSize st * Trainer.boardSize st →
    boardClicked st (Trainer.targetClick false i st).

(** The part of the state of [App] that [checkDrill] reads and writes. *)
Definition drillOf (st : Trainer.State) : App.Drill :=
  {| App.drillTarget := Trainer.drillTarget st;
     App.stones := Trainer.stones st;
     App.feedback := Trainer.feedback st;
     App.drillPhase := Trainer.drillPhase st |}.

(** A saved shape: the two black stones of the corner position. *)
Definition cornerShape : Trainer.SavedShape :=
  {| Trainer.shape_id := "1"; Trainer.shape_name := "corner";
     Trainer.shape_size := 9;
     Trainer.shape_stones := {[ key 1 0 := black; key 0 1 := black ]};
     Trainer.shape_createdAt := 1 |}.

(** The drill of [cornerShape] in its rebuild phase, one stone placed. *)
Definition rebuildState : Trainer.State :=
  Trainer.drillBoardClick 1 0
    (Nat.iter 6 Trainer.drillTick
       (Trainer.startDrill cornerShape Trainer.initialState)).

(** The editor on the 19x19 board with a black stone on the center point
    and a name typed for the shape. *)
Definition tengenEditor : Trainer.State :=
  {| Trainer.view := Trainer.editor; Trainer.mobileMenuOpen := false;
     Trainer.boardSize := 19; Trainer.stones := {[ key 9 9 := black ]};
     Trainer.currentToolColor := black; Trainer.savedShapes := [];
     Trainer.newShapeName := "tengen"; Trainer.drillPhase := App.idle;
     Trainer.drillTarget := None; Trainer.drillTimer := 0;
     Trainer.feedback := None; Trainer.selectedShapeId := "" |}.

(** The shape that [saveShape] makes of it at the times 7 and 8. *)
Definition tengenShape : Trainer.SavedShape :=
  {| Trainer.shape_id := "7"; Trainer.shape_name := "tengen";
     Trainer.shape_size := 19;
     Trainer.shape_stones := {[ key 9 9 := black ]};
     Trainer.shape_createdAt := 8 |}.

(** ** Storage and the game records *)

(** [parse] reads back what [stringify] writes for [v], and what it writes
    is not the empty string. *)
Definition codecFor {A : Type} (parse : string → option (list A))
    (stringify : list A → string) (v : list A) : Prop :=
  parse (stringify v) = Some v ∧ stringify v ≠ "".

(** A record that the migration of [App] leaves as it is. *)
Definition migrated (log : Viewer.GameRecord) : Prop :=
  Viewer.migrate log = log.

(** The form filled in for a game of Black against an unnamed opponent on
    the 9x9 board. *)
Definition exampleForm : Viewer.Form :=
  {| Viewer.isFormOpen := true; Viewer.date := "2024-01-01";
     Viewer.blackPlayer := "Kuro"; Viewer.whitePlayer := "";
     Viewer.size := 9; Viewer.result := ""; Viewer.notes := "" |}.

(** The record of the three moves of [capturedState], submitted with
    [exampleForm]. *)
Definition exampleRecord : Viewer.GameRecord :=
  {| Viewer.gr_id := "1700000000000"; Viewer.gr_date := "2024-01-01";
     Viewer.gr_blackPlayer := "Kuro"; Viewer.gr_whitePlayer := "White";
     Viewer.gr_opponent := None; Viewer.gr_size := 9;
     Viewer.gr_result := "?"; Viewer.gr_notes := "";
     Viewer.gr_finalStones := GameLog.board capturedState;
     Viewer.gr_moves := Some (GameLog.moves capturedState);
     Viewer.gr_captures := GameLog.captures capturedState |}.

(** ** The replay viewer *)

(** One action on the replay of the expanded log, whose move list has [n]
    moves: one of the five controls, or one firing of the auto-play
    interval. *)
Inductive controlled (logs : list Viewer.GameRecord) (n : nat)
    : Viewer.Replay → Viewer.Replay → Prop :=
| controlled_skipBack r : controlled logs n r (Viewer.skipBack r)
| controlled_stepBack r : controlled logs n r (Viewer.stepBack r)
| controlled_togglePlay r : controlled logs n r (Viewer.togglePlay r)
| controlled_stepForward r : controlled logs n r (Viewer.stepForward n r)
| controlled_skipForward r : controlled logs n r (Viewer.skipForward n r)
| controlled_autoTick r : controlled logs n r (Viewer.autoTick logs r).

(** What the viewer shows of a recorder state: its board, its tally and its
    last move. *)
Definition viewOf (st : GameLog.Recorder) : Viewer.ReplayState :=
  {| Viewer.rs_board := GameLog.board st;
     Viewer.rs_captures := GameLog.captures st;
     Viewer.rs_lastMove := last (GameLog.moves st) |}.

(** The viewer with [exampleRecord] expanded, at its second move. *)
Definition exampleReplay : Viewer.Replay :=
  {| Viewer.expandedLogId := Some "1700000000000";
     Viewer.replayMoveIndex := 1; Viewer.replayAuto := true |}.

(** The states of [App] that the user can reach, whatever the storage
    holds at the start. *)
Definition appReachable (trim : string → string)
    (stringify : list Trainer.SavedShape → string) (w : Trainer.World)
    : Prop :=
  ∃ parse storage,
    rtc (Trainer.step trim stringify) (Trainer.initialize parse storage) w.

(** [App] started on a storage that holds [cornerShape], then the drill
    view opened and the shape selected: the drill is in its memorize
    phase. *)
Definition memorizeWorld : Trainer.World :=
  Trainer.onState (Trainer.selectShape cornerShape)
    (Trainer.onState (Trainer.navigate Trainer.drill)
       (Trainer.initialize (λ _, Some [cornerShape])
          {[ Storage.SHAPES_KEY := "[corner]" ]})).

(** ** Invariants used in the proofs *)

(** What [App] keeps true of its drill. *)
Record drillInv (st : Trainer.State) : Prop := {
  di_editor : Trainer.view st = Trainer.editor →
    Trainer.drillPhase st = App.idle ∧ Trainer.drillTarget st = None
    ∧ Trainer.feedback st = None;
  di_target : Trainer.drillPhase st ≠ App.idle →
    is_Some (Trainer.drillTarget st);
  di_feedback : Trainer.drillPhase st = App.feedbackPhase →
    ∃ target, Trainer.drillTarget st = Some target ∧
              Trainer.feedback st
                = Some (App.diff target (Trainer.stones st));
  di_memorize : Trainer.drillPhase st = App.memorize →
    Trainer.drillTarget st = Some (Trainer.stones st) ∧
    0 ≤ Trainer.drillTimer st ≤ 5;
  di_hidden : Trainer.drillPhase st = App.memorize
              ∨ Trainer.drillPhase st = App.rebuild →
    Trainer.feedback st = None
}.


(** The keys of the stones of [color]. *)
Definition colored (board : BoardState) (color : StoneColor) : gset string :=
  dom (filter (λ kv, kv.2 = color) board).

(** What holds of the three variables of [getGroup], started at [s], at
    every point of the loop. *)
Record search_inv (board : BoardState) (color : StoneColor) (size : Z)
    (s : Z * Z) (st : Search) : Prop := {
  inv_nodup : NoDup (group st);
  inv_visited : ∀ k, k ∈ visited st ↔ k ∈ group st;
  inv_sound : ∀ k, k ∈ group st →
    ∃ c, k = keyOf c ∧ connected board color size s c;
  inv_start : keyOf s ∈ visited st;
  inv_queue : ∀ c, c ∈ queue st → connected board color size s c
}.

(** Every visited cell is still in the queue or has all its neighbors of
    [color] visited, except for the neighbors [ns] of [c0] that the current
    iteration has yet to look at. *)
Definition closed_but (board : BoardState) (color : StoneColor) (size : Z)
    (st : Search) (c0 : Z * Z) (ns : list (Z * Z)) : Prop :=
  ∀ c c', keyOf c ∈ visited st → c' ∈ getNeighbors c.1 c.2 size →
          board !! keyOf c' = Some color →
          keyOf c' ∈ visited st ∨ c ∈ queue st ∨ (c = c0 ∧ c' ∈ ns).

Definition closed (board : BoardState) (color : StoneColor) (size : Z)
    (st : Search) : Prop :=
  ∀ c c', keyOf c ∈ visited st → c' ∈ getNeighbors c.1 c.2 size →
          board !! keyOf c' = Some color →
          keyOf c' ∈ visited st ∨ c ∈ queue st.

(** The loop variant: the cells still to dequeue plus those still to
    discover. *)
Definition variant (board : BoardState) (color : StoneColor) (st : Search)
    : nat :=
  (length (queue st) + stdpp.base.size (colored board color ∖ visited st))%nat.

(** A set of opponent stones of the board that contains, with a stone, all
    the opponent stones next to it: a union of whole groups. *)
Record sealed (b1 : BoardState) (opp : StoneColor) (size : Z)
    (D : gset string) : Prop := {
  sealed_stone : ∀ k, k ∈ D →
    ∃ c, k = keyOf c ∧ onBoard size c ∧ b1 !! k = Some opp;
  sealed_closed : ∀ c c', keyOf c ∈ D →
    c' ∈ getNeighbors c.1 c.2 size → b1 !! keyOf c' = Some opp →
    keyOf c' ∈ D
}.

(** What the recorder keeps true: the board and the tally are those of the
    replay of the move list, the tally is the sum of the recorded counts, and
    the colors alternate from black. *)
Record recorded (size : Z) (st : GameLog.Recorder) : Prop := {
  rec_replay : GameLog.replayGame (GameLog.moves st) size
               = (GameLog.board st, GameLog.captures st);
  rec_tally : GameLog.captures st = tally (GameLog.moves st);
  rec_turn : GameLog.turn st = toPlay (length (GameLog.moves st))
}.

(** The character [c] does not occur in [s]. *)
Fixpoint free_of (c : ascii) (s : string) : Prop :=
  match s with
  | EmptyString => True
  | String a s' => a ≠ c ∧ free_of c s'
  end.

(** * Properties *)

(** ** Keys round-trip *)

Section KeyFacts.

Lemma split_free sep s : free_of sep s → split sep s = [s].
Proof.
  induction s as [|a s IH]; simpl; [done|].
  intros [Ha Hs]. destruct (Ascii.eqb_spec a sep) as [->|_]; [done|].
  by rewrite IH.
Qed.

Lemma split_app sep s1 s2 :
  free_of sep s1 →
  split sep (s1 +:+ String sep s2) = s1 :: split sep s2.
Proof.
  induction s1 as [|a s1 IH]; simpl.
  - intros _. by rewrite Ascii.eqb_refl.
  - intros [Ha Hs]. destruct (Ascii.eqb_spec a sep) as [->|_]; [done|].
    by rewrite IH.
Qed.

Lemma digits_free_of_comma d :
  free_of ","%char (NilEmpty.string_of_uint d).
Proof. induction d; simpl; repeat split; done. Qed.

Lemma showZ_free_of_comma n : free_of ","%char (showZ n).
Proof.
  unfold showZ, NilZero.string_of_int, NilZero.string_of_uint.
  destruct (Z.to_int n) as [d|d]; destruct d;
    simpl; repeat split; try done; apply digits_free_of_comma.
Qed.

Lemma to_int_not_nil n : Z.to_int n ≠ Decimal.Pos Decimal.Nil
                         ∧ Z.to_int n ≠ Decimal.Neg Decimal.Nil.
Proof.
  destruct n as [|p|p]; simpl; split; try done;
    intros [= H]; by apply (DecimalPos.Unsigned.to_uint_nonnil p).
Qed.

Lemma Number_showZ n : Number (showZ n) = Some n.
Proof.
  unfold Number, showZ.
  destruct (to_int_not_nil n) as [H1 H2].
  rewrite NilZero.isi by done. simpl. by rewrite DecimalZ.of_to.
Qed.

Lemma parseKey_key x y : parseKey (key x y) = Some (x, y).
Proof.
  unfold parseKey, key.
  change ("," +:+ showZ y) with (String ","%char (showZ y)).
  rewrite split_app by apply showZ_free_of_comma.
  rewrite split_free by apply showZ_free_of_comma.
  simpl. by rewrite !Number_showZ.
Qed.

Lemma key_inj x y x' y' : key x y = key x' y' → x = x' ∧ y = y'.
Proof.
  intros H. pose proof (parseKey_key x y) as E.
  rewrite H, parseKey_key in E. by simplify_eq.
Qed.

Lemma keyOf_inj (c c' : Z * Z) : keyOf c = keyOf c' → c = c'.
Proof.
  destruct c, c'. unfold keyOf. simpl. intros [-> ->]%key_inj. done.
Qed.

Lemma parseKey_keyOf c : parseKey (keyOf c) = Some c.
Proof. destruct c. apply parseKey_key. Qed.

End KeyFacts.

Global Instance keyOf_inj_instance : Inj (=) (=) keyOf.
Proof. intros c c'. apply keyOf_inj. Qed.

Arguments key : simpl never.
Arguments keyOf : simpl never.

(** ** Groups: what the flood fill of [getGroup] computes *)

Section Neighbors.
Context (size : Z).

Lemma elem_of_getNeighbors x y c :
  c ∈ getNeighbors x y size ↔
    (0 < x ∧ c = (x - 1, y)) ∨ (x < size - 1 ∧ c = (x + 1, y)) ∨
    (0 < y ∧ c = (x, y - 1)) ∨ (y < size - 1 ∧ c = (x, y + 1)).
Proof.
  unfold getNeighbors. rewrite !elem_of_app.
  repeat case_decide; rewrite ?list_elem_of_singleton, ?elem_of_nil;
    intuition lia.
Qed.

Lemma getNeighbors_length x y : (length (getNeighbors x y size) ≤ 4)%nat.
Proof.
  unfold getNeighbors. rewrite !length_app.
  repeat case_decide; simpl; lia.
Qed.

(** On the board, the neighbors are the adjacent cells of the board. *)
Lemma getNeighbors_onBoard c c' :
  onBoard size c →
  c' ∈ getNeighbors c.1 c.2 size ↔ adjacent4 c c' ∧ onBoard size c'.
Proof.
  destruct c as [x y], c' as [x' y']. unfold onBoard, adjacent4. simpl.
  intros Hc. rewrite elem_of_getNeighbors. split.
  - intros [[? [= -> ->]]|[[? [= -> ->]]|[[? [= -> ->]]|[? [= -> ->]]]]]; lia.
  - intros [Ha Hb].
    assert ((x' = x - 1 ∧ y' = y) ∨ (x' = x + 1 ∧ y' = y) ∨
            (x' = x ∧ y' = y - 1) ∨ (x' = x ∧ y' = y + 1)) as Hcases by lia.
    destruct Hcases as [[-> ->]|[[-> ->]|[[-> ->]|[-> ->]]]].
    + left. split; [lia|done].
    + right; left. split; [lia|done].
    + do 2 right; left. split; [lia|done].
    + do 3 right. split; [lia|done].
Qed.

Lemma adjacent4_sym c c' : adjacent4 c c' → adjacent4 c' c.
Proof. unfold adjacent4. lia. Qed.

Lemma getNeighbors_sym c c' :
  onBoard size c → c' ∈ getNeighbors c.1 c.2 size →
  onBoard size c' ∧ c ∈ getNeighbors c'.1 c'.2 size.
Proof.
  intros Hc [Ha Hc']%getNeighbors_onBoard; [|done].
  split; [done|]. apply getNeighbors_onBoard; [done|].
  split; [by apply adjacent4_sym|done].
Qed.

End Neighbors.

Section Connected.
Context (board : BoardState) (color : StoneColor) (size : Z).

Abbreviation conn := (connected board color size).

Lemma connected_trans s c d : conn s c → conn c d → conn s d.
Proof.
  intros Hsc Hcd. induction Hcd as [|d d' _ IH Hn Hd]; [done|].
  by eapply connected_step.
Qed.

Lemma connected_color s c :
  board !! keyOf s = Some color → conn s c → board !! keyOf c = Some color.
Proof. intros Hs Hc. by destruct Hc. Qed.

Lemma connected_onBoard s c : onBoard size s → conn s c → onBoard size c.
Proof.
  intros Hs Hc. induction Hc as [|c c' _ IH Hn _]; [done|].
  by destruct (getNeighbors_sym size c c' IH Hn).
Qed.

Lemma connected_sym s c :
  onBoard size s → board !! keyOf s = Some color → conn s c → conn c s.
Proof.
  intros Hs Hcol Hc. induction Hc as [|c c' Hc IH Hn Hc']; [constructor|].
  pose proof (connected_onBoard s c Hs Hc) as Hon.
  destruct (getNeighbors_sym size c c' Hon Hn) as [_ Hback].
  apply connected_trans with c; [|done].
  apply (connected_step _ _ _ _ c' c); [constructor|done|].
  exact (connected_color s c Hcol Hc).
Qed.

End Connected.

Section FloodFill.
Context (board : BoardState) (color : StoneColor) (size : Z) (s : Z * Z).

Abbreviation conn_s := (connected board color size s).

Lemma elem_of_colored k : k ∈ colored board color ↔ board !! k = Some color.
Proof.
  unfold colored. rewrite elem_of_dom. unfold is_Some. split.
  - intros [c [Hc Hf]%map_lookup_filter_Some]. simpl in Hf. by subst.
  - intros Hk. exists color. by apply map_lookup_filter_Some.
Qed.

Lemma visit_inv c0 st n :
  search_inv board color size s st → conn_s c0 → n ∈ getNeighbors c0.1 c0.2 size →
  search_inv board color size s (visit board color st n).
Proof.
  intros [Hnd Hv Hs Hst Hq] Hc0 Hn. unfold visit.
  case_decide as Hd; [|by constructor].
  destruct Hd as [Hcol Hnew].
  assert (conn_s n) as Hcn by (by eapply connected_step).
  constructor; simpl.
  - apply NoDup_app. split_and!; [done| |apply NoDup_singleton].
    intros k Hk ->%list_elem_of_singleton. apply Hnew. by apply Hv.
  - intros k. rewrite elem_of_union, elem_of_singleton, elem_of_app,
      list_elem_of_singleton, Hv. tauto.
  - intros k [Hk| ->%list_elem_of_singleton]%elem_of_app; [by apply Hs|].
    by exists n.
  - set_solver.
  - intros c [Hc| ->%list_elem_of_singleton]%elem_of_app; [by apply Hq|done].
Qed.

Lemma visit_closed c0 st n ns :
  closed_but board color size st c0 (n :: ns) →
  closed_but board color size (visit board color st n) c0 ns.
Proof.
  intros Hcl c c' Hc Hn' Hcol. unfold visit in *.
  case_decide as Hd; simpl in *.
  - apply elem_of_union in Hc as [Hc%elem_of_singleton|Hc].
    + apply (inj keyOf) in Hc as ->. right; left. set_solver.
    + destruct (Hcl c c' Hc Hn' Hcol) as [?|[?|[-> Hin]]].
      * left. set_solver.
      * right; left. set_solver.
      * apply elem_of_cons in Hin as [->|Hin]; [left; set_solver|].
        by right; right.
  - destruct (Hcl c c' Hc Hn' Hcol) as [?|[?|[-> Hin]]]; [by left|by right; left|].
    apply elem_of_cons in Hin as [->|Hin]; [|by right; right].
    left. apply not_and_l in Hd as [Hd|Hd]; [done|].
    by apply dec_stable.
Qed.

Lemma visit_variant st n :
  variant board color (visit board color st n) = variant board color st.
Proof.
  unfold visit, variant. case_decide as Hd; [|done]. simpl.
  destruct Hd as [Hcol Hnew]. rewrite length_app. simpl.
  assert (colored board color ∖ visited st =
          {[keyOf n]} ∪ colored board color ∖ ({[keyOf n]} ∪ visited st)) as ->.
  { apply set_eq. intros k. rewrite elem_of_union, !elem_of_difference,
      elem_of_union, elem_of_singleton.
    pose proof (elem_of_colored (keyOf n)).
    destruct (decide (k = keyOf n)) as [->|]; naive_solver. }
  rewrite (size_union {[keyOf n]}) by set_solver.
  rewrite size_singleton. lia.
Qed.

Lemma expand_inv c st :
  search_inv board color size s st → conn_s c →
  search_inv board color size s (expand board color size c st).
Proof.
  unfold expand. intros Hst Hc.
  assert (∀ ns st, search_inv board color size s st →
            (∀ n, n ∈ ns → n ∈ getNeighbors c.1 c.2 size) →
            search_inv board color size s (foldl (visit board color) st ns)) as Hgen.
  { clear st Hst. induction ns as [|n ns IH]; intros st Hst Hns; [done|].
    simpl. apply IH; [|set_solver].
    eapply visit_inv; [done|done|]. apply Hns. by left. }
  by apply Hgen.
Qed.

Lemma expand_closed c st :
  closed_but board color size st c (getNeighbors c.1 c.2 size) →
  closed board color size (expand board color size c st).
Proof.
  unfold expand. generalize (getNeighbors c.1 c.2 size) as ns.
  intros ns. revert st. induction ns as [|n ns IH]; intros st Hcl; simpl.
  - intros c1 c' H1 H2 H3. destruct (Hcl c1 c' H1 H2 H3) as [?|[?|[_ ?]]];
      [by left|by right|]. by apply elem_of_nil in H.
  - apply IH. by apply visit_closed.
Qed.

Lemma expand_variant c st :
  variant board color (expand board color size c st) = variant board color st.
Proof.
  unfold expand. generalize (getNeighbors c.1 c.2 size) as ns.
  intros ns. revert st. induction ns as [|n ns IH]; intros st; simpl; [done|].
  by rewrite IH, visit_variant.
Qed.

Lemma search_inv_closed fuel st :
  search_inv board color size s st → closed board color size st →
  search_inv board color size s (search fuel board color size st) ∧
  closed board color size (search fuel board color size st).
Proof.
  revert st. induction fuel as [|fuel IH]; intros st Hinv Hcl; simpl; [done|].
  destruct (queue st) as [|c q] eqn:Hq; [done|].
  set (st' := {| group := group st; queue := q; visited := visited st |}).
  assert (conn_s c) as Hc.
  { apply (inv_queue board color size s st Hinv). rewrite Hq. by left. }
  apply IH.
  - apply expand_inv; [|done].
    destruct Hinv as [Hnd Hv Hs Hst Hqc]. constructor; simpl; try done.
    intros c1 Hc1. apply Hqc. rewrite Hq. by right.
  - apply expand_closed. intros c1 c' H1 H2 H3.
    destruct (Hcl c1 c' H1 H2 H3) as [?|Hin]; [by left|].
    rewrite Hq in Hin. apply elem_of_cons in Hin as [->|Hin].
    + by right; right.
    + by right; left.
Qed.

Lemma search_exit fuel st :
  (variant board color st ≤ fuel)%nat → queue (search fuel board color size st) = [].
Proof.
  revert st. induction fuel as [|fuel IH]; intros st Hm; simpl.
  - unfold variant in Hm. destruct (queue st); [done|simpl in Hm; lia].
  - destruct (queue st) as [|c q] eqn:Hq; [done|].
    apply IH. rewrite expand_variant. unfold variant in *. simpl.
    rewrite Hq in Hm. simpl in Hm. lia.
Qed.

End FloodFill.

Section GetGroup.
Context (board : BoardState) (size : Z).

Lemma start_inv color x y :
  search_inv board color size (x, y) (start x y) ∧
  closed board color size (start x y).
Proof.
  split.
  - constructor; simpl.
    + apply NoDup_singleton.
    + intros k. by rewrite elem_of_singleton, list_elem_of_singleton.
    + intros k ->%list_elem_of_singleton. exists (x, y). split; [done|constructor].
    + by apply elem_of_singleton.
    + intros c ->%list_elem_of_singleton. constructor.
  - intros c c' Hc _ _. right. simpl in *.
    apply elem_of_singleton in Hc.
    change (key x y) with (keyOf (x, y)) in Hc.
    apply (inj keyOf) in Hc as ->. by left.
Qed.

Lemma start_variant color x y :
  board !! key x y = Some color →
  (variant board color (start x y) ≤ stdpp.base.size board)%nat.
Proof.
  intros Hcol. unfold variant. simpl.
  assert (colored board color =
          {[key x y]} ∪ colored board color ∖ {[key x y]}) as Heq.
  { apply set_eq. intros k. rewrite elem_of_union, elem_of_difference,
      elem_of_singleton.
    pose proof (proj2 (elem_of_colored board color (key x y)) Hcol).
    destruct (decide (k = key x y)) as [->|]; naive_solver. }
  assert (stdpp.base.size (colored board color) ≤ stdpp.base.size board)%nat
    as Hle.
  { rewrite <- (size_dom (D := gset string) board). apply subseteq_size.
    intros k Hk%elem_of_colored. apply elem_of_dom. by exists color. }
  rewrite Heq in Hle.
  rewrite (size_union {[key x y]}) in Hle by set_solver.
  rewrite size_singleton in Hle. lia.
Qed.

(** The loop of [getGroup] leaves through its own condition: the fuel is
    never what stops it. *)
Lemma getGroup_loop_exit color x y :
  board !! key x y = Some color →
  queue (search (stdpp.base.size board) board color size (start x y)) = [].
Proof. intros Hcol. apply search_exit. by apply start_variant. Qed.

Lemma getGroup_None x y :
  board !! key x y = None → getGroup board x y size = None.
Proof. unfold getGroup. by intros ->. Qed.

(** [getGroup] returns, without repetition, exactly the keys of the cells
    connected to the start. *)
Lemma getGroup_spec color x y :
  board !! key x y = Some color →
  ∃ g, getGroup board x y size = Some g ∧ NoDup g ∧
       ∀ k, k ∈ g ↔ ∃ c, k = keyOf c ∧ connected board color size (x, y) c.
Proof.
  intros Hcol. unfold getGroup. rewrite Hcol.
  set (fin := search _ _ _ _ _). exists (group fin). split; [done|].
  destruct (start_inv color x y) as [Hi Hc].
  destruct (search_inv_closed board color size (x, y)
              (stdpp.base.size board) _ Hi Hc) as [Hinv Hcl].
  fold fin in Hinv, Hcl.
  pose proof (getGroup_loop_exit color x y Hcol) as Hq. fold fin in Hq.
  destruct Hinv as [Hnd Hv Hs Hst _]. split; [done|].
  intros k. split; [apply Hs|].
  intros [c [-> Hconn]]. apply Hv.
  induction Hconn as [|c c' _ IH Hn Hc']; [done|].
  destruct (Hcl c c' IH Hn Hc') as [?|Hin]; [done|].
  rewrite Hq in Hin. by apply elem_of_nil in Hin.
Qed.

Lemma getGroup_Some_inv x y g :
  getGroup board x y size = Some g →
  ∃ color, board !! key x y = Some color.
Proof.
  unfold getGroup. destruct (board !! key x y) as [c|]; [|done]. by exists c.
Qed.

(** Every member of a group holds a stone of the color of the start. *)
Lemma getGroup_color color x y g k :
  board !! key x y = Some color → getGroup board x y size = Some g →
  k ∈ g → board !! k = Some color.
Proof.
  intros Hcol Hg Hk.
  destruct (getGroup_spec color x y Hcol) as [g' [Hg' [_ Hspec]]].
  rewrite Hg in Hg'. injection Hg' as <-.
  apply Hspec in Hk as [c [-> Hc]].
  by apply (connected_color board color size (x, y)).
Qed.

End GetGroup.

(** ** Liberties *)

Section Liberties.
Context (board : BoardState) (size : Z).

Lemma elem_of_addLiberty_fold ns acc k :
  k ∈ foldl (addLiberty board) acc ns ↔
    k ∈ acc ∨ ∃ c', c' ∈ ns ∧ k = keyOf c' ∧ board !! k = None.
Proof.
  revert acc. induction ns as [|n ns IH]; intros acc; simpl.
  - split; [by left|]. intros [?|[c' [Hc' _]]]; [done|].
    by apply elem_of_nil in Hc'.
  - rewrite IH. unfold addLiberty.
    destruct (board !! keyOf n) eqn:Hn.
    + split.
      * intros [?|[c' [? ?]]]; [by left|]. right. exists c'. set_solver.
      * intros [?|[c' [[->|?]%elem_of_cons [-> Hk]]]]; [by left|congruence|].
        right. by exists c'.
    + rewrite elem_of_union, elem_of_singleton. split.
      * intros [[->|?]|[c' [? ?]]]; [|by left|].
        -- right. exists n. split; [by left|done].
        -- right. exists c'. set_solver.
      * intros [?|[c' [[->|?]%elem_of_cons [-> Hk]]]];
          [by left; right|by left; left|].
        right. by exists c'.
Qed.

Lemma elem_of_addLiberties_fold group acc k :
  k ∈ foldl (addLiberties board size) acc group ↔
    k ∈ acc ∨ ∃ m c c', m ∈ group ∧ parseKey m = Some c ∧
                        c' ∈ getNeighbors c.1 c.2 size ∧
                        k = keyOf c' ∧ board !! k = None.
Proof.
  revert acc. induction group as [|m group IH]; intros acc; simpl.
  - split; [by left|]. intros [?|[m [c [c' [Hm _]]]]]; [done|].
    by apply elem_of_nil in Hm.
  - rewrite IH. unfold addLiberties. destruct (parseKey m) as [[x y]|] eqn:Hp.
    + rewrite elem_of_addLiberty_fold. split.
      * intros [[?|[c' [? [? ?]]]]|[m' [c [c' [? ?]]]]]; [by left| |].
        -- right. exists m, (x, y), c'. split; [by left|done].
        -- right. exists m', c, c'. split; [by right|tauto].
      * intros [?|[m' [c [c' [[->|?]%elem_of_cons [Hp' [? [? ?]]]]]]]];
          [by left; left| |].
        -- rewrite Hp in Hp'. injection Hp' as <-.
           left; right. by exists c'.
        -- right. by exists m', c, c'.
    + split.
      * intros [?|[m' [c [c' [? ?]]]]]; [by left|].
        right. exists m', c, c'. split; [by right|tauto].
      * intros [?|[m' [c [c' [[->|?]%elem_of_cons [Hp' ?]]]]]];
          [by left|congruence|].
        right. by exists m', c, c'.
Qed.

(** The set built by [countLiberties]. *)
Lemma elem_of_libertySet group k :
  k ∈ libertySet board group size ↔
    ∃ m c c', m ∈ group ∧ parseKey m = Some c ∧
              c' ∈ getNeighbors c.1 c.2 size ∧
              k = keyOf c' ∧ board !! k = None.
Proof.
  unfold libertySet. rewrite elem_of_addLiberties_fold.
  split; [intros [[]%not_elem_of_empty|?]; done|by right].
Qed.

(** The count depends on the members of the group only, not on their
    order. *)
Lemma countLiberties_ext g g' :
  (∀ k, k ∈ g ↔ k ∈ g') →
  countLiberties board g size = countLiberties board g' size.
Proof.
  intros Hgg. unfold countLiberties. f_equal. apply set_eq. intros k.
  rewrite !elem_of_libertySet. by setoid_rewrite Hgg.
Qed.

Lemma addLiberty_fold_size ns acc :
  (stdpp.base.size (foldl (addLiberty board) acc ns)
     ≤ stdpp.base.size acc + length ns)%nat.
Proof.
  revert acc. induction ns as [|n ns IH]; intros acc; simpl; [lia|].
  etrans; [apply IH|]. unfold addLiberty.
  destruct (board !! keyOf n); [lia|].
  rewrite size_union_alt, size_singleton.
  assert (stdpp.base.size (acc ∖ {[keyOf n]}) ≤ stdpp.base.size acc)%nat.
  { apply subseteq_size. set_solver. }
  lia.
Qed.

(** A single stone has at most as many liberties as neighbors. *)
Lemma countLiberties_single x y :
  (countLiberties board [key x y] size ≤ length (getNeighbors x y size))%nat.
Proof.
  unfold countLiberties, libertySet. simpl. unfold addLiberties.
  rewrite parseKey_key. etrans; [apply addLiberty_fold_size|].
  rewrite size_empty. lia.
Qed.

Lemma elem_of_cells c : c ∈ cells size ↔ onBoard size c.
Proof.
  unfold cells, onBoard. rewrite list_elem_of_bind. split.
  - intros [x [[y [->%list_elem_of_singleton Hy]]%list_elem_of_bind Hx]].
    apply elem_of_seqZ in Hx, Hy. simpl. lia.
  - intros H. exists c.1. split; [|apply elem_of_seqZ; lia].
    apply list_elem_of_bind. exists c.2.
    split; [|apply elem_of_seqZ; lia].
    apply list_elem_of_singleton. by destruct c.
Qed.

Lemma NoDup_cells : NoDup (cells size).
Proof.
  unfold cells. apply NoDup_bind; [| |apply NoDup_seqZ].
  - intros x1 x2 c _ _
      [y1 [->%list_elem_of_singleton _]]%list_elem_of_bind
      [y2 [[= -> _]%list_elem_of_singleton _]]%list_elem_of_bind. done.
  - intros x _. apply NoDup_bind; [| |apply NoDup_seqZ].
    + intros y1 y2 c _ _ ->%list_elem_of_singleton
        [= ->]%list_elem_of_singleton. done.
    + intros y _. apply NoDup_singleton.
Qed.

(** On a group of cells of the board, [countLiberties] is the liberty
    count of the specification. *)
Lemma countLiberties_liberties group :
  (∀ k, k ∈ group → ∃ c, k = keyOf c ∧ onBoard size c) →
  countLiberties board group size = liberties board group size.
Proof.
  intros Hon. unfold countLiberties, liberties.
  assert (libertySet board group size =
          list_to_set (keyOf <$> filter (isLiberty board group) (cells size)))
    as ->.
  { apply set_eq. intros k. rewrite elem_of_libertySet, elem_of_list_to_set,
      list_elem_of_fmap. split.
    - intros [m [c [c' [Hm [Hp [Hn [-> Hk]]]]]]].
      destruct (Hon m Hm) as [c0 [-> Hc0]].
      rewrite parseKey_keyOf in Hp. injection Hp as ->.
      apply getNeighbors_onBoard in Hn as [Hadj Hc']; [|done].
      exists c'. split; [done|]. apply list_elem_of_filter.
      split; [|by apply elem_of_cells]. split; [done|].
      apply Exists_exists. exists (keyOf c). split; [done|].
      unfold memberAdjacent. by rewrite parseKey_keyOf.
    - intros [c' [-> [[Hk Hex] Hc']%list_elem_of_filter]].
      apply Exists_exists in Hex as [m [Hm Hadj]].
      destruct (Hon m Hm) as [c [-> Hc]].
      unfold memberAdjacent in Hadj. rewrite parseKey_keyOf in Hadj.
      exists (keyOf c), c, c'. split_and!; try done.
      + apply parseKey_keyOf.
      + apply getNeighbors_onBoard; [done|]. split; [done|].
        by apply elem_of_cells. }
  rewrite size_list_to_set, length_fmap; [done|].
  apply (NoDup_fmap_2 keyOf), NoDup_filter, NoDup_cells.
Qed.

(** In particular on the groups [getGroup] finds from a cell of the
    board. *)
Lemma countLiberties_getGroup x y g :
  onBoard size (x, y) → getGroup board x y size = Some g →
  countLiberties board g size = liberties board g size.
Proof.
  intros Hxy Hg. apply countLiberties_liberties. intros k Hk.
  destruct (getGroup_Some_inv board size x y g Hg) as [color Hcol].
  destruct (getGroup_spec board size color x y Hcol) as [g' [Hg' [_ Hspec]]].
  rewrite Hg in Hg'. injection Hg' as Heq. rewrite Heq in Hk.
  destruct (proj1 (Hspec k) Hk) as [c [Hkc Hc]]. exists c. split; [done|].
  by apply (connected_onBoard board color size (x, y)).
Qed.

End Liberties.

(** ** Capture resolution *)

Section Removal.

Lemma lookup_without D (board : BoardState) k :
  without D board !! k = if decide (k ∈ D) then None else board !! k.
Proof.
  unfold without. case_decide as Hk.
  - apply map_lookup_filter_None. right. intros c _. simpl. tauto.
  - destruct (board !! k) as [c|] eqn:Hb.
    + by apply map_lookup_filter_Some.
    + apply map_lookup_filter_None. by left.
Qed.

Lemma lookup_delete_all (g : list string) (b : BoardState) k :
  foldl (λ b k, delete k b) b g !! k =
    if decide (k ∈ g) then None else b !! k.
Proof.
  revert b. induction g as [|m g IH]; intros b; cbn [foldl].
  - case_decide as Hk; [by apply elem_of_nil in Hk|done].
  - rewrite IH. destruct (decide (k = m)) as [->|Hne].
    + rewrite lookup_delete_eq. repeat case_decide; set_solver.
    + rewrite lookup_delete_ne by done.
      repeat case_decide; set_solver.
Qed.

(** The counting loop of the recorder removes the same stones as the
    replay and counts the length of the group. *)
Lemma removeStone_fold g b cnt :
  foldl GameLog.removeStone (b, cnt) g =
    (foldl (λ b k, delete k b) b g, (cnt + length g)%nat).
Proof.
  revert b cnt. induction g as [|m g IH]; intros b cnt; simpl.
  - by rewrite Nat.add_0_r.
  - unfold GameLog.removeStone at 2. simpl. rewrite IH. f_equal. lia.
Qed.

Lemma deadStones_snoc board opp size ns n :
  deadStones board opp size (ns ++ [n]) =
    deadStones board opp size ns ∪ list_to_set (deadGroup board opp size n).
Proof.
  unfold deadStones. rewrite !fmap_app, union_list_app_L. simpl.
  by rewrite (right_id_L ∅ (∪)).
Qed.

Lemma elem_of_deadStones board opp size ns k :
  k ∈ deadStones board opp size ns ↔
    ∃ n, n ∈ ns ∧ k ∈ deadGroup board opp size n.
Proof.
  unfold deadStones. rewrite elem_of_union_list. split.
  - intros [X [[g [-> [n [-> Hn]]%list_elem_of_fmap]]%list_elem_of_fmap Hk]].
    exists n. split; [done|]. by apply elem_of_list_to_set in Hk.
  - intros [n [Hn Hk]]. exists (list_to_set (deadGroup board opp size n)).
    split; [|by apply elem_of_list_to_set].
    apply list_elem_of_fmap. eexists. split; [done|].
    apply list_elem_of_fmap. by exists n.
Qed.

(** A dead group is a whole group of stones of the opponent. *)
Lemma elem_of_deadGroup board opp size n k :
  k ∈ deadGroup board opp size n →
  board !! keyOf n = Some opp ∧
  ∃ c, k = keyOf c ∧ connected board opp size n c.
Proof.
  unfold deadGroup. case_decide as Hn; [|by intros ?%elem_of_nil].
  destruct (getGroup_spec board size opp n.1 n.2 Hn) as [g [Hg [_ Hspec]]].
  rewrite Hg. case_decide; [|by intros ?%elem_of_nil].
  intros Hk. split; [done|]. apply Hspec in Hk. by destruct n.
Qed.

End Removal.

Section CaptureLoop.
Context (b1 : BoardState) (opp : StoneColor) (size : Z).

Lemma deadGroup_closed n k c' :
  k ∈ deadGroup b1 opp size n → connected b1 opp size n c' →
  keyOf c' ∈ deadGroup b1 opp size n.
Proof.
  unfold deadGroup. case_decide as Hn; [|by intros ?%elem_of_nil].
  destruct (getGroup_spec b1 size opp n.1 n.2 Hn) as [g [Hg [_ Hspec]]].
  rewrite Hg. case_decide; [|by intros ?%elem_of_nil].
  intros _ Hc. apply Hspec. exists c'. by destruct n.
Qed.

Lemma deadStones_sealed ns :
  Forall (onBoard size) ns → sealed b1 opp size (deadStones b1 opp size ns).
Proof.
  intros Hns. constructor.
  - intros k [n [Hn Hk]]%elem_of_deadStones.
    apply elem_of_deadGroup in Hk as [Hcol [c [-> Hc]]].
    exists c. split; [done|]. split.
    + eapply connected_onBoard; [|done]. by eapply Forall_forall in Hns.
    + by eapply connected_color.
  - intros c c' [n [Hn Hk]]%elem_of_deadStones Hnb Hcol.
    apply elem_of_deadStones. exists n. split; [done|].
    eapply deadGroup_closed; [done|].
    apply elem_of_deadGroup in Hk as [_ [c0 [->%(inj keyOf) Hc]]].
    by eapply connected_step.
Qed.

Context (D : gset string) (HD : sealed b1 opp size D).
Context (n : Z * Z) (Hn : onBoard size n).
Context (Hcol : b1 !! keyOf n = Some opp) (HnD : keyOf n ∉ D).

(** The group of a stone outside [D] stays outside [D]. *)
Lemma connected_apart c : connected b1 opp size n c → keyOf c ∉ D.
Proof.
  induction 1 as [|c c' Hc IH Hnb Hc']; [done|].
  intros Hin.
  destruct (sealed_stone b1 opp size D HD _ Hin) as [c0 [->%(inj keyOf) [Hon _]]].
  pose proof (connected_onBoard b1 opp size n c Hn Hc) as Honc.
  destruct (getNeighbors_sym size c c0 Honc Hnb) as [_ Hback].
  apply IH. eapply (sealed_closed b1 opp size D HD c0 c); [done|done|].
  exact (connected_color b1 opp size n c Hcol Hc).
Qed.

(** Removing [D] does not change that group... *)
Lemma connected_without c :
  connected (without D b1) opp size n c ↔ connected b1 opp size n c.
Proof.
  split.
  - induction 1 as [|c c' Hc IH Hnb Hc']; [constructor|].
    eapply connected_step; [done|done|].
    rewrite lookup_without in Hc'. by case_decide.
  - induction 1 as [|c c' Hc IH Hnb Hc']; [constructor|].
    eapply connected_step; [done|done|].
    rewrite lookup_without. rewrite decide_False; [done|].
    apply connected_apart. by eapply connected_step.
Qed.

(** ... nor its liberties. *)
Lemma libertySet_without g :
  (∀ k, k ∈ g → ∃ c, k = keyOf c ∧ connected b1 opp size n c) →
  libertySet (without D b1) g size = libertySet b1 g size.
Proof.
  intros Hg. apply set_eq. intros k. rewrite !elem_of_libertySet.
  split; intros [m [c [c' [Hm [Hp [Hnb [-> Hk]]]]]]];
    exists m, c, c'; split_and!; try done.
  - rewrite lookup_without in Hk. case_decide as Hin; [|done].
    exfalso. destruct (Hg m Hm) as [c0 [-> Hc0]].
    rewrite parseKey_keyOf in Hp. injection Hp as ->.
    destruct (sealed_stone b1 opp size D HD _ Hin) as [c1 [->%(inj keyOf) [Hon Hopp]]].
    pose proof (connected_onBoard b1 opp size n c Hn Hc0) as Honc.
    destruct (getNeighbors_sym size c c1 Honc Hnb) as [_ Hback].
    apply (connected_apart c Hc0).
    eapply (sealed_closed b1 opp size D HD c1 c); [done|done|].
    exact (connected_color b1 opp size n c Hcol Hc0).
  - rewrite lookup_without. by case_decide.
Qed.

End CaptureLoop.

Section CaptureFold.
Context (b1 : BoardState) (opp : StoneColor) (size : Z).

Abbreviation dead := (deadStones b1 opp size).

(** One neighbor of the capture loop: the stones removed so far are the
    dead groups, judged on the board [b1] the loop started from, of the
    neighbors seen so far. *)
Lemma captureNeighbor_step seen n :
  Forall (onBoard size) seen → onBoard size n →
  GameLog.captureNeighbor opp size
    (without (dead seen) b1, stdpp.base.size (dead seen)) n =
    (without (dead (seen ++ [n])) b1, stdpp.base.size (dead (seen ++ [n]))).
Proof.
  intros Hseen Hn. pose proof (deadStones_sealed b1 opp size seen Hseen) as HD.
  rewrite deadStones_snoc. set (D := dead seen) in *.
  unfold GameLog.captureNeighbor. cbn [fst snd].
  case_decide as Hb.
  - rewrite lookup_without in Hb. case_decide as HnD; [done|].
    assert (without D b1 !! key n.1 n.2 = Some opp) as Hb'.
    { change (key n.1 n.2) with (keyOf n). rewrite lookup_without.
      by rewrite decide_False. }
    destruct (getGroup_spec _ size opp n.1 n.2 Hb') as [g [Hg [Hnd Hspec]]].
    destruct (getGroup_spec b1 size opp n.1 n.2 Hb) as [g1 [Hg1 [Hnd1 Hspec1]]].
    rewrite Hg.
    assert (∀ c, connected (without D b1) opp size (n.1, n.2) c ↔
                 connected b1 opp size (n.1, n.2) c) as Hconn.
    { intros c. rewrite <- surjective_pairing.
      by apply connected_without. }
    assert (∀ k, k ∈ g ↔ k ∈ g1) as Hgg.
    { intros k. rewrite Hspec, Hspec1. by setoid_rewrite Hconn. }
    assert (countLiberties (without D b1) g size = countLiberties b1 g1 size)
      as Hlib.
    { rewrite <- (countLiberties_ext b1 size g g1 Hgg).
      unfold countLiberties. f_equal.
      apply (libertySet_without b1 opp size D HD n); try done.
      intros k Hk%Hgg%Hspec1. by rewrite <- surjective_pairing in Hk. }
    assert (dead seen ## list_to_set g1) as Hdisj.
    { intros k HkD Hk%elem_of_list_to_set%Hspec1.
      destruct Hk as [c [-> Hc]]. rewrite <- surjective_pairing in Hc.
      by apply (connected_apart b1 opp size D HD n Hn Hb HnD c Hc). }
    unfold deadGroup.
    rewrite (decide_True (P := b1 !! keyOf n = Some opp)) by done.
    rewrite Hg1, Hlib.
    case_decide as Hzero.
    + rewrite removeStone_fold. f_equal.
      * apply map_eq. intros k.
        rewrite lookup_delete_all, !lookup_without.
        pose proof (Hgg k).
        repeat case_decide; set_solver.
      * rewrite size_union by done. rewrite size_list_to_set by done.
        f_equal. apply Permutation_length. by apply NoDup_Permutation.
    + simpl. by rewrite (right_id_L ∅ (∪)).
  - assert (D ∪ list_to_set (deadGroup b1 opp size n) = D) as ->; [|done].
    apply set_eq. intros k. rewrite elem_of_union, elem_of_list_to_set.
    split; [|by left]. intros [?|Hk]; [done|].
    pose proof Hk as [Hcol [c [-> Hc]]]%elem_of_deadGroup.
    rewrite lookup_without in Hb. case_decide as HnD; [|done].
    apply elem_of_deadStones in HnD as [n' [Hn' HnD]].
    apply elem_of_deadStones. exists n'. split; [done|].
    eapply deadGroup_closed; [done|].
    apply elem_of_deadGroup in HnD as [_ [c0 [->%(inj keyOf) Hc0]]].
    by eapply connected_trans.
Qed.

Lemma captureNeighbor_fold ns seen :
  Forall (onBoard size) seen → Forall (onBoard size) ns →
  foldl (GameLog.captureNeighbor opp size)
    (without (dead seen) b1, stdpp.base.size (dead seen)) ns =
    (without (dead (seen ++ ns)) b1, stdpp.base.size (dead (seen ++ ns))).
Proof.
  revert seen. induction ns as [|n ns IH]; intros seen Hseen Hns; simpl.
  - by rewrite app_nil_r.
  - apply Forall_cons in Hns as [Hn Hns].
    rewrite captureNeighbor_step by done.
    rewrite IH; [|by apply Forall_app; split; [|apply Forall_singleton]|done].
    by rewrite <- app_assoc.
Qed.

End CaptureFold.

Lemma without_empty (board : BoardState) : without ∅ board = board.
Proof.
  apply map_eq. intros k. rewrite lookup_without.
  case_decide as H; [by apply not_elem_of_empty in H|done].
Qed.

Lemma getNeighbors_Forall_onBoard size x y :
  onBoard size (x, y) → Forall (onBoard size) (getNeighbors x y size).
Proof.
  intros Hc. apply Forall_forall. intros c Hn.
  by destruct (getNeighbors_sym size (x, y) c Hc Hn).
Qed.

(** The placement and the capture loop of the recorder, in one step: the
    new stone is placed, then exactly the dead groups of its neighbors,
    judged on the board right after the placement, are removed, and the
    count is the number of their stones. *)
Lemma placeStone_spec size (board : BoardState) x y turn :
  onBoard size (x, y) →
  let b1 := <[key x y := turn]> board in
  let D := deadStones b1 (GameLog.opponentOf turn) size (getNeighbors x y size) in
  GameLog.placeStone size board x y turn = (without D b1, stdpp.base.size D).
Proof.
  intros Hc b1 D. unfold GameLog.placeStone. fold b1.
  pose proof (captureNeighbor_fold b1 (GameLog.opponentOf turn) size
                (getNeighbors x y size) [] (Forall_nil_2 _)
                (getNeighbors_Forall_onBoard size x y Hc)) as H.
  change (deadStones b1 (GameLog.opponentOf turn) size []) with (∅ : gset string)
    in H.
  by rewrite without_empty, size_empty in H.
Qed.

(** ** The recorder and the replay *)

Section Replay.
Import GameLog.
Context (size : Z).

Lemma addCap_0 c color : addCap c color 0 = c.
Proof. destruct c, color; unfold addCap; simpl; by rewrite Nat.add_0_r. Qed.

Lemma addCap_add c color j k :
  addCap (addCap c color j) color k = addCap c color (j + k).
Proof. destruct c, color; unfold addCap; simpl; f_equal; lia. Qed.

(** The capture loop of [replayGame] and that of [handleBoardClick] remove
    the same stones and count the same number. *)
Lemma replayNeighbor_step color n b c0 k :
  replayNeighbor color size (b, addCap c0 color k) n =
    ((captureNeighbor (opponentOf color) size (b, k) n).1,
     addCap c0 color (captureNeighbor (opponentOf color) size (b, k) n).2).
Proof.
  unfold replayNeighbor, captureNeighbor. cbn [fst snd].
  case_decide; [|done].
  destruct (getGroup b n.1 n.2 size) as [g|]; [|done].
  case_decide; [|done].
  by rewrite removeStone_fold, addCap_add.
Qed.

Lemma replayNeighbor_fold color ns b c0 k :
  foldl (replayNeighbor color size) (b, addCap c0 color k) ns =
    ((foldl (captureNeighbor (opponentOf color) size) (b, k) ns).1,
     addCap c0 color
       (foldl (captureNeighbor (opponentOf color) size) (b, k) ns).2).
Proof.
  revert b k. induction ns as [|n ns IH]; intros b k; [done|].
  cbn [foldl]. rewrite replayNeighbor_step.
  destruct (captureNeighbor (opponentOf color) size (b, k) n) as [b' k'].
  apply IH.
Qed.

Lemma replayMove_placeStone b c m :
  replayMove size (b, c) m =
    ((placeStone size b (m_x m) (m_y m) (m_color m)).1,
     addCap c (m_color m) (placeStone size b (m_x m) (m_y m) (m_color m)).2).
Proof.
  unfold replayMove, placeStone. cbn [fst snd].
  rewrite <- (addCap_0 c (m_color m)) at 1. apply replayNeighbor_fold.
Qed.

Lemma replayGame_snoc moveList m :
  replayGame (moveList ++ [m]) size =
    replayMove size (replayGame moveList size) m.
Proof. unfold replayGame. by rewrite foldl_app. Qed.

Lemma tally_snoc moveList m :
  tally (moveList ++ [m]) =
    addCap (tally moveList) (m_color m) (default 0%nat (m_captures m)).
Proof.
  unfold tally, capturedBy, addCap. rewrite !filter_app, !sum_list_with_app.
  rewrite !filter_cons, !filter_nil. cbn [cap_black cap_white].
  destruct (m_color m); repeat case_decide; try done; simpl; f_equal; lia.
Qed.

Lemma live_snoc clicks c :
  live size (clicks ++ [c]) = liveStep size (live size clicks) c.
Proof. unfold live. by rewrite foldl_app. Qed.

Lemma recorded_reset : recorded size resetRecorder.
Proof. by constructor. Qed.

Lemma opponentOf_toPlay n : opponentOf (toPlay n) = toPlay (S n).
Proof.
  unfold toPlay.
  replace (S n mod 2)%nat with ((1 + n mod 2) mod 2)%nat
    by (by rewrite Nat.Div0.add_mod_idemp_r).
  pose proof (Nat.mod_upper_bound n 2).
  destruct (n mod 2)%nat as [|[|?]] eqn:E; simpl; try done. lia.
Qed.

(** An accepted click appends one move and keeps the invariant. *)
Lemma handleBoardClick_placed st x y st' :
  handleBoardClick size st x y = (Placed, st') →
  board st !! key x y = None ∧
  st' = {| board := (placeStone size (board st) x y (turn st)).1;
           moves := moves st ++
             [mkMove x y (turn st)
                (Some (placeStone size (board st) x y (turn st)).2)];
           captures := addCap (captures st) (turn st)
                         (placeStone size (board st) x y (turn st)).2;
           turn := opponentOf (turn st) |}.
Proof.
  unfold handleBoardClick.
  destruct (board st !! key x y) eqn:Hb; [done|].
  destruct (placeStone size (board st) x y (turn st)) as [newBoard cnt] eqn:Hp.
  cbn [fst snd].
  assert ((if decide (0 < cnt)%nat
           then addCap (captures st) (turn st) cnt else captures st) =
          addCap (captures st) (turn st) cnt) as ->.
  { case_decide; [done|]. replace cnt with 0%nat by lia.
    by rewrite addCap_0. }
  destruct (getGroup newBoard x y size) as [g|].
  - case_decide; [done|]. by intros [= <-].
  - by intros [= <-].
Qed.

Lemma recorded_placed st x y st' :
  recorded size st → handleBoardClick size st x y = (Placed, st') →
  recorded size st' ∧ ∃ m, moves st' = moves st ++ [m] ∧ (m_x m, m_y m) = (x, y).
Proof.
  intros [Hr Ht Hc] [_ ->]%handleBoardClick_placed. split; [|by eexists].
  constructor; cbn [moves board captures turn].
  - by rewrite replayGame_snoc, Hr, replayMove_placeStone.
  - by rewrite tally_snoc, <- Ht.
  - rewrite Hc, length_app, opponentOf_toPlay. simpl. f_equal. lia.
Qed.

Lemma liveStep_Some o c st' :
  liveStep size o c = Some st' →
  ∃ st, o = Some st ∧ handleBoardClick size st c.1 c.2 = (Placed, st').
Proof.
  unfold liveStep. destruct o as [st|]; [|done]. simpl.
  destruct (handleBoardClick size st c.1 c.2) as [[] s'] eqn:E; try done.
  intros [= <-]. by exists st.
Qed.

Lemma live_recorded clicks st :
  live size clicks = Some st →
  recorded size st ∧ (λ m, (m_x m, m_y m)) <$> moves st = clicks.
Proof.
  revert st. induction clicks as [|c clicks IH] using rev_ind; intros st.
  - intros [= <-]. split; [apply recorded_reset|done].
  - rewrite live_snoc. intros [prev [Hprev Hclick]]%liveStep_Some.
    destruct (IH prev Hprev) as [Hrec Hpos].
    destruct (recorded_placed prev _ _ st Hrec Hclick) as [Hst [m [Hm Hxy]]].
    split; [done|]. rewrite Hm, fmap_app, Hpos. simpl. rewrite Hxy.
    by destruct c.
Qed.

(** Undoing an accepted click gives back the recorder of before. *)
Lemma undo_placed st x y st' :
  recorded size st → handleBoardClick size st x y = (Placed, st') →
  undoLastMove size st' = st.
Proof.
  intros [Hr Ht Hc] [_ ->]%handleBoardClick_placed.
  unfold undoLastMove. cbn [moves].
  rewrite length_app. cbn [length].
  rewrite decide_False by lia.
  replace (length (moves st) + 1 - 1)%nat with (length (moves st)) by lia.
  rewrite take_app_length, Hr. unfold toPlay in Hc.
  rewrite <- Hc. by destruct st.
Qed.

Lemma live_app clicks1 clicks2 st :
  live size (clicks1 ++ clicks2) = Some st →
  ∃ st1, live size clicks1 = Some st1 ∧
         take (length clicks1) (moves st) = moves st1 ∧
         Nat.iter (length clicks2) (undoLastMove size) st = st1.
Proof.
  revert st. induction clicks2 as [|c clicks2 IH] using rev_ind; intros st.
  - rewrite app_nil_r. intros Hl. exists st. split; [done|]. split; [|done].
    destruct (live_recorded _ _ Hl) as [_ <-].
    by rewrite length_fmap, firstn_all.
  - rewrite app_assoc, live_snoc. intros [prev [Hprev Hclick]]%liveStep_Some.
    destruct (IH prev Hprev) as [st1 [H1 [Htake Hiter]]].
    exists st1. split; [done|].
    destruct (live_recorded _ _ Hprev) as [Hrec Hpos].
    destruct (recorded_placed prev _ _ st Hrec Hclick) as [_ [m [Hm _]]].
    split.
    + rewrite Hm, take_app_le; [done|].
      rewrite <- (length_fmap (λ m, (m_x m, m_y m)) (moves prev)), Hpos.
      rewrite length_app. lia.
    + rewrite length_app. cbn [length].
      replace (length clicks2 + 1)%nat with (S (length clicks2)) by lia.
      rewrite Nat.iter_succ_r.
      by rewrite (undo_placed prev _ _ st Hrec Hclick).
Qed.

Lemma handleBoardClick_refused st x y :
  (handleBoardClick size st x y).1 ≠ Placed →
  (handleBoardClick size st x y).2 = st.
Proof.
  unfold handleBoardClick. destruct (board st !! key x y); [done|].
  destruct (placeStone size (board st) x y (turn st)) as [newBoard cnt].
  destruct (getGroup newBoard x y size) as [g|]; [case_decide|]; done.
Qed.

(** Every state the user can reach is the state after the accepted clicks
    that make up its move list: refused clicks change nothing and an undo
    steps back to the state before the last accepted click. *)
Lemma reachable_live st :
  reachable size st → ∃ clicks, live size clicks = Some st.
Proof.
  induction 1 as [|st x y _ [clicks Hl]|st _ [clicks Hl]].
  - by exists [].
  - destruct (handleBoardClick size st x y) as [o st'] eqn:E.
    destruct o; cbn [snd].
    + exists (clicks ++ [(x, y)]). rewrite live_snoc, Hl.
      unfold liveStep. cbn [mbind option_bind fst snd]. by rewrite E.
    + exists clicks. pose proof (handleBoardClick_refused st x y) as Hr.
      rewrite E in Hr. cbn [fst snd] in Hr. by rewrite Hr.
    + exists clicks. pose proof (handleBoardClick_refused st x y) as Hr.
      rewrite E in Hr. cbn [fst snd] in Hr. by rewrite Hr.
  - destruct clicks as [|c clicks _] using rev_ind.
    + exists []. injection Hl as <-. done.
    + destruct (live_app clicks [c] st Hl) as [st1 [H1 [_ Hundo]]].
      exists clicks. cbn [length Nat.iter nat_rect] in Hundo. by rewrite Hundo.
Qed.

End Replay.

(** ** The drill check *)

Section Diff.
Import App.
Context (target actual : BoardState).

Lemma checkTarget_fold entries fb :
  foldl (checkTarget actual) fb entries =
    {| correct := correct fb ++
         (filter (λ e, actual !! e.1 = Some e.2) entries).*1;
       missing := missing fb ++
         (filter (λ e, actual !! e.1 ≠ Some e.2) entries).*1;
       extra := extra fb |}.
Proof.
  revert fb. induction entries as [|e entries IH]; intros fb.
  - simpl. rewrite !app_nil_r. by destruct fb.
  - cbn [foldl]. rewrite IH. unfold checkTarget.
    rewrite !filter_cons. case_decide as He.
    + rewrite decide_False by tauto. cbn [correct missing extra fmap list_fmap].
      by rewrite <- app_assoc.
    + rewrite decide_True by done. cbn [correct missing extra fmap list_fmap].
      by rewrite <- app_assoc.
Qed.

Lemma checkExtra_fold ks fb :
  foldl (checkExtra target actual) fb ks =
    {| correct := correct fb;
       missing := missing fb;
       extra := extra fb ++
         filter (λ k, target !! k = None ∨ actual !! k ≠ target !! k) ks |}.
Proof.
  revert fb. induction ks as [|k ks IH]; intros fb.
  - simpl. rewrite app_nil_r. by destruct fb.
  - cbn [foldl]. rewrite IH. unfold checkExtra. rewrite filter_cons.
    destruct (target !! k) as [c|] eqn:Hk.
    + case_decide as Hne.
      * rewrite decide_True by (by right).
        cbn [correct missing extra]. by rewrite <- app_assoc.
      * rewrite decide_False; [done|]. intros [?|?]; [done|tauto].
    + rewrite decide_True by (by left).
      cbn [correct missing extra]. by rewrite <- app_assoc.
Qed.

(** The three arrays, as selections of the entries of the two boards. *)
Lemma diff_lists :
  diff target actual =
    {| correct :=
         (filter (λ e, actual !! e.1 = Some e.2) (map_to_list target)).*1;
       missing :=
         (filter (λ e, actual !! e.1 ≠ Some e.2) (map_to_list target)).*1;
       extra :=
         filter (λ k, target !! k = None ∨ actual !! k ≠ target !! k)
           (map_to_list actual).*1 |}.
Proof. unfold diff. by rewrite checkTarget_fold, checkExtra_fold. Qed.

Lemma elem_of_correct k :
  k ∈ correct (diff target actual) ↔
    ∃ c, target !! k = Some c ∧ actual !! k = Some c.
Proof.
  rewrite diff_lists. cbn [correct]. rewrite list_elem_of_fmap. split.
  - intros [[k' c] [-> [Ha Ht%elem_of_map_to_list]%list_elem_of_filter]].
    by exists c.
  - intros [c [Ht Ha]]. exists (k, c). split; [done|].
    apply list_elem_of_filter. split; [done|]. by apply elem_of_map_to_list.
Qed.

Lemma elem_of_missing k :
  k ∈ missing (diff target actual) ↔
    ∃ c, target !! k = Some c ∧ actual !! k ≠ Some c.
Proof.
  rewrite diff_lists. cbn [missing]. rewrite list_elem_of_fmap. split.
  - intros [[k' c] [-> [Ha Ht%elem_of_map_to_list]%list_elem_of_filter]].
    by exists c.
  - intros [c [Ht Ha]]. exists (k, c). split; [done|].
    apply list_elem_of_filter. split; [done|]. by apply elem_of_map_to_list.
Qed.

Lemma elem_of_extra k :
  k ∈ extra (diff target actual) ↔
    ∃ c, actual !! k = Some c ∧ target !! k ≠ Some c.
Proof.
  rewrite diff_lists. cbn [extra]. rewrite list_elem_of_filter,
    list_elem_of_fmap. split.
  - intros [Hne [[k' c] [-> Ha%elem_of_map_to_list]]]. simpl in *.
    exists c. split; [done|]. destruct Hne as [Hn|Hn]; congruence.
  - intros [c [Ha Ht]]. split.
    + destruct (target !! k) as [c'|]; [right|by left]. congruence.
    + exists (k, c). split; [done|]. by apply elem_of_map_to_list.
Qed.

Lemma diff_NoDup :
  NoDup (correct (diff target actual)) ∧
  NoDup (missing (diff target actual)) ∧
  NoDup (extra (diff target actual)).
Proof.
  rewrite diff_lists. cbn [correct missing extra].
  assert (∀ (P : string * StoneColor → Prop) `{!∀ e, Decision (P e)},
            NoDup (filter P (map_to_list target)).*1) as Hfst.
  { intros P HP. eapply NoDup_fmap_fst.
    - intros k c1 c2 [_ H1%elem_of_map_to_list]%list_elem_of_filter
        [_ H2%elem_of_map_to_list]%list_elem_of_filter. congruence.
    - apply NoDup_filter, NoDup_map_to_list. }
  split_and!; [apply Hfst|apply Hfst|].
  apply NoDup_filter, NoDup_fst_map_to_list.
Qed.

End Diff.

(** ** The placed stone survives its own capture loop *)

Section OwnStone.
Import GameLog.
Context (size : Z).

Lemma captureNeighbor_keeps opp acc n k c :
  acc.1 !! k = Some c → c ≠ opp →
  (captureNeighbor opp size acc n).1 !! k = Some c.
Proof.
  intros Hk Hc. unfold captureNeighbor.
  case_decide as Hn; [|done].
  destruct (getGroup acc.1 n.1 n.2 size) as [g|] eqn:Hg; [|done].
  case_decide; [|done].
  destruct acc as [b cnt]. rewrite removeStone_fold. cbn [fst snd] in *.
  rewrite lookup_delete_all. rewrite decide_False; [done|].
  intros Hin. pose proof (getGroup_color b size opp n.1 n.2 g k Hn Hg Hin).
  congruence.
Qed.

Lemma captureNeighbor_fold_keeps opp ns acc k c :
  acc.1 !! k = Some c → c ≠ opp →
  (foldl (captureNeighbor opp size) acc ns).1 !! k = Some c.
Proof.
  revert acc. induction ns as [|n ns IH]; intros acc Hk Hc; [done|].
  cbn [foldl]. apply IH; [|done]. by apply captureNeighbor_keeps.
Qed.

Lemma opponentOf_ne color : color ≠ opponentOf color.
Proof. by destruct color. Qed.

Lemma placeStone_keeps (b : BoardState) x y color :
  (placeStone size b x y color).1 !! key x y = Some color.
Proof.
  unfold placeStone. apply captureNeighbor_fold_keeps.
  - cbn [fst]. apply lookup_insert_eq.
  - apply opponentOf_ne.
Qed.

End OwnStone.

(** ** Capture resolution, against the words of the specification *)

Section CaptureSpec.
Context (board : BoardState) (size : Z).








End CaptureSpec.



(** * The claims *)

(** C1. For every board size and every sequence of clicks each accepted by
    the recorder in order, replaying the recorded move list from the empty
    board gives exactly the board and the capture tally the recorder holds,
    and that tally is the sum of the [captures] of the moves grouped by the
    color of the mover. *)
Theorem replay_reproduces_live size clicks st :
  live size clicks = Some st →
  GameLog.replayGame (GameLog.moves st) size
    = (GameLog.board st, GameLog.captures st) ∧
  (∀ color,
     GameLog.getCap (GameLog.replayGame (GameLog.moves st) size).2 color
       = capturedBy color (GameLog.moves st)) ∧
  (λ m, (m_x m, m_y m)) <$> GameLog.moves st = clicks.
Proof.
  intros Hl. destruct (live_recorded size clicks st Hl) as [[Hr Ht _] Hpos].
  split; [done|]. split; [|done].
  intros color. rewrite Hr. cbn [snd]. rewrite Ht. by destruct color.
Qed.

Lemma replay_reproduces_live_witness :
  live 9 (atariClicks ++ [(0, 1)]) = Some capturedState ∧
  GameLog.replayGame (GameLog.moves capturedState) 9
    = (GameLog.board capturedState, GameLog.captures capturedState) ∧
  GameLog.getCap (GameLog.replayGame (GameLog.moves capturedState) 9).2 black
    = 1%nat.
Proof.
  assert (live 9 (atariClicks ++ [(0, 1)]) = Some capturedState) as Hl
    by (vm_compute; reflexivity).
  split; [exact Hl|].
  destruct (replay_reproduces_live 9 _ _ Hl) as [Hr [Ht _]].
  split; [exact Hr|]. rewrite (Ht black). vm_compute. reflexivity.
Defined.





(** C4. For every recorder state and every click on an occupied cell, the
    click is refused on the occupied-cell exit and the recorder is left
    unchanged. *)
Theorem occupied_cell_rejected size st x y color :
  GameLog.board st !! key x y = Some color →
  GameLog.handleBoardClick size st x y = (GameLog.OccupiedCell, st).
Proof. intros Hocc. unfold GameLog.handleBoardClick. by rewrite Hocc. Qed.

Lemma occupied_cell_rejected_witness :
  GameLog.board atariState !! key 0 0 = Some white ∧
  GameLog.handleBoardClick 9 atariState 0 0 = (GameLog.OccupiedCell, atariState).
Proof.
  split; [vm_compute; reflexivity|].
  apply (occupied_cell_rejected 9 atariState 0 0 white). vm_compute. reflexivity.
Defined.

(** C5, as stated, fails: the move applier of the recorder checks no bounds.
    Called on the empty 9x9 board at (-1, 0) it accepts the move and changes
    the recorder. *)
Lemma out_of_bounds_move_accepted :
  ¬ onBoard 9 (-1, 0) ∧
  (GameLog.handleBoardClick 9 GameLog.resetRecorder (-1) 0).1 = GameLog.Placed ∧
  (GameLog.handleBoardClick 9 GameLog.resetRecorder (-1) 0).2
    ≠ GameLog.resetRecorder.
Proof.
  split; [unfold onBoard; simpl; lia|]. split; [vm_compute; reflexivity|].
  intros H. apply (f_equal GameLog.turn) in H. vm_compute in H. discriminate.
Qed.

(** C5, amended. A click whose grid coordinate lies outside [0, size) on
    either axis is dropped by the click handler of the board component: the
    callback of the host is not called and the host state, here the
    recorder, is unchanged.  A click on the board is passed on to the move
    applier, and the interaction targets carry coordinates of the board
    only. *)
Theorem out_of_bounds_click_dropped size xGrid yGrid st :
  ¬ onBoard size (xGrid, yGrid) →
  GoBoard.recorderBoardClick size xGrid yGrid st = st ∧
  (∀ (S : Type) readOnly (callback : option (Z → Z → S → S)) (host : S),
     GoBoard.handleBoardClick size readOnly callback xGrid yGrid host = host) ∧
  (∀ x y, onBoard size (x, y) →
     GoBoard.recorderBoardClick size x y st
       = (GameLog.handleBoardClick size st x y).2) ∧
  (∀ (S : Type) (f : Z → Z → S → S) (host : S) i,
     0 < size → 0 ≤ i < size * size →
     ∃ c, onBoard size c ∧
          GoBoard.handleTargetClick size false (Some f) i host
            = f c.1 c.2 host).
Proof.
  intros Hout.
  assert (∀ (S : Type) readOnly (callback : option (Z → Z → S → S)) (host : S),
            GoBoard.handleBoardClick size readOnly callback xGrid yGrid host
            = host) as Hdrop.
  { intros S readOnly callback host. unfold GoBoard.handleBoardClick.
    destruct callback as [f|]; [|done]. destruct readOnly; [done|].
    case_decide as Hin; [|done]. exfalso. apply Hout. unfold onBoard. simpl.
    tauto. }
  split; [apply Hdrop|]. split; [exact Hdrop|]. split.
  - intros x y Hon. unfold GoBoard.recorderBoardClick, GoBoard.handleBoardClick.
    rewrite decide_True; [done|]. unfold onBoard in Hon. simpl in Hon. tauto.
  - intros S f host i Hs Hi. exists (i `mod` size, i `div` size).
    split; [|done]. unfold onBoard. simpl.
    pose proof (Z.mod_pos_bound i size Hs).
    assert (0 ≤ i `div` size) by (apply Z.div_pos; lia).
    assert (i `div` size < size) by (apply Z.div_lt_upper_bound; lia).
    lia.
Qed.

Lemma out_of_bounds_click_dropped_witness :
  ¬ onBoard 9 (-1, 0) ∧
  GoBoard.recorderBoardClick 9 (-1) 0 GameLog.resetRecorder
    = GameLog.resetRecorder.
Proof.
  assert (¬ onBoard 9 (-1, 0)) as Hout by (unfold onBoard; simpl; lia).
  split; [exact Hout|].
  apply (out_of_bounds_click_dropped 9 (-1) 0 GameLog.resetRecorder Hout).
Defined.

(** C6. For every sequence of accepted clicks, cut anywhere: replaying the
    recorded move list truncated to the first part gives exactly the board
    (and tally) the recorder held after the first part, and undoing the
    moves of the second part one by one, each undo replaying all the moves
    but the last, brings the recorder back to that state.  With a second
    part of one click this is the undo of the last move. *)
Theorem undo_restores_previous_position size clicks1 clicks2 st :
  live size (clicks1 ++ clicks2) = Some st →
  ∃ st1, live size clicks1 = Some st1 ∧
    GameLog.replayGame (take (length clicks1) (GameLog.moves st)) size
      = (GameLog.board st1, GameLog.captures st1) ∧
    Nat.iter (length clicks2) (GameLog.undoLastMove size) st = st1.
Proof.
  intros Hl. destruct (live_app size clicks1 clicks2 st Hl)
    as [st1 [H1 [Htake Hiter]]].
  exists st1. split; [done|]. split; [|done].
  rewrite Htake. by destruct (live_recorded size clicks1 st1 H1) as [[Hr _ _] _].
Qed.

Lemma undo_restores_previous_position_witness :
  live 9 (atariClicks ++ [(0, 1)]) = Some capturedState ∧
  (∃ st1, live 9 atariClicks = Some st1 ∧
     GameLog.replayGame
       (take (length atariClicks) (GameLog.moves capturedState)) 9
       = (GameLog.board st1, GameLog.captures st1) ∧
     Nat.iter (length [(0, 1)]) (GameLog.undoLastMove 9) capturedState = st1) ∧
  live 9 atariClicks = Some atariState ∧
  GameLog.board capturedState !! key 0 0 = None ∧
  GameLog.board atariState !! key 0 0 = Some white.
Proof.
  assert (live 9 (atariClicks ++ [(0, 1)]) = Some capturedState) as Hl
    by (vm_compute; reflexivity).
  split; [exact Hl|]. split.
  - exact (undo_restores_previous_position 9 atariClicks [(0, 1)] _ Hl).
  - split_and!; vm_compute; reflexivity.
Defined.

(** C7. For every board and every group of cells of the board,
    [countLiberties] is the number of distinct empty cells of the board that
    are 4-directionally adjacent to at least one member of the group: each
    such cell is counted once however many members it touches, and no
    coordinate outside the board is counted.  A single stone therefore has at
    most 4 liberties, at most 3 on an edge and at most 2 in a corner. *)
Theorem countLiberties_counts_distinct_empty_neighbors
    (board : BoardState) size (members : list (Z * Z)) :
  Forall (onBoard size) members →
  let group := keyOf <$> members in
  let libs := filter (isLiberty board group) (cells size) in
  countLiberties board group size = length libs ∧
  NoDup libs ∧
  (∀ c, c ∈ libs ↔
        onBoard size c ∧ board !! keyOf c = None ∧
        ∃ m, m ∈ members ∧ adjacent4 m c) ∧
  (∀ m, members = [m] →
        (countLiberties board group size ≤ 4)%nat ∧
        (m.1 = 0 ∨ m.1 = size - 1 ∨ m.2 = 0 ∨ m.2 = size - 1 →
         (countLiberties board group size ≤ 3)%nat) ∧
        ((m.1 = 0 ∨ m.1 = size - 1) ∧ (m.2 = 0 ∨ m.2 = size - 1) →
         (countLiberties board group size ≤ 2)%nat)).
Proof.
  intros Hon group libs.
  split_and!.
  - apply countLiberties_liberties. intros k [c [-> Hc]]%list_elem_of_fmap.
    exists c. split; [done|]. by eapply Forall_forall in Hon.
  - apply NoDup_filter, NoDup_cells.
  - intros c. unfold libs, isLiberty.
    rewrite list_elem_of_filter, elem_of_cells, Exists_exists.
    split.
    + intros [[Hempty [k [[m [-> Hm]]%list_elem_of_fmap Hadj]]] Hc].
      unfold memberAdjacent in Hadj. rewrite parseKey_keyOf in Hadj.
      split_and!; [done|done|]. by exists m.
    + intros [Hc [Hempty [m [Hm Hadj]]]]. split; [|done]. split; [done|].
      exists (keyOf m). split; [by apply list_elem_of_fmap; exists m|].
      unfold memberAdjacent. by rewrite parseKey_keyOf.
  - intros [x y] ->. subst group. cbn [fmap list_fmap fst snd].
    change (keyOf (x, y)) with (key x y).
    pose proof (countLiberties_single board size x y) as Hle.
    revert Hle. generalize (countLiberties board [key x y] size). intros n Hle.
    assert (Forall (onBoard size) [(x, y)]) as Hxy by done.
    apply Forall_singleton in Hxy. unfold onBoard in Hxy. simpl in Hxy.
    unfold getNeighbors in Hle. rewrite !length_app in Hle.
    split_and!.
    + repeat case_decide; simpl in Hle; lia.
    + intros Hedge. repeat case_decide; simpl in Hle; lia.
    + intros Hcorner. repeat case_decide; simpl in Hle; lia.
Qed.

Lemma countLiberties_counts_distinct_empty_neighbors_witness :
  Forall (onBoard 9) [(1, 0); (0, 1)] ∧
  countLiberties (GameLog.board cornerState) [key 1 0; key 0 1] 9
    = length (filter (isLiberty (GameLog.board cornerState) [key 1 0; key 0 1])
                (cells 9)) ∧
  countLiberties (GameLog.board cornerState) [key 1 0; key 0 1] 9 = 4%nat.
Proof.
  assert (Forall (onBoard 9) [(1, 0); (0, 1)]) as Hon
    by (repeat constructor; unfold onBoard; simpl; lia).
  split; [exact Hon|]. split; [|vm_compute; reflexivity].
  apply (countLiberties_counts_distinct_empty_neighbors
           (GameLog.board cornerState) 9 [(1, 0); (0, 1)] Hon).
Defined.

(** C8. For every target and actual board, the drill check puts a key
    occupied in the target in [correct] when the actual board holds the same
    color there and in [missing] otherwise (empty or wrong color), and puts a
    key occupied in the actual board in [extra] when the target is empty there
    or holds another color; a wrong-color cell is thus in both [missing] and
    [extra].  The two examples of the specification evaluate as stated. *)
Theorem diff_classification :
  (∀ (target actual : BoardState) k,
     (k ∈ App.correct (App.diff target actual) ↔
        ∃ c, target !! k = Some c ∧ actual !! k = Some c) ∧
     (k ∈ App.missing (App.diff target actual) ↔
        ∃ c, target !! k = Some c ∧ actual !! k ≠ Some c) ∧
     (k ∈ App.extra (App.diff target actual) ↔
        ∃ c, actual !! k = Some c ∧ target !! k ≠ Some c) ∧
     (∀ c c', target !! k = Some c → actual !! k = Some c' → c ≠ c' →
        k ∈ App.missing (App.diff target actual) ∧
        k ∈ App.extra (App.diff target actual))) ∧
  App.diff {[key 0 0 := black]} {[key 0 0 := white]}
    = {| App.missing := [key 0 0]; App.extra := [key 0 0];
         App.correct := [] |} ∧
  App.diff {[key 0 0 := black]} (<[key 1 1 := white]> {[key 0 0 := black]})
    = {| App.missing := []; App.extra := [key 1 1];
         App.correct := [key 0 0] |} ∧
  (∀ st target, App.drillTarget st = Some target →
     App.feedback (App.checkDrill st)
       = Some (App.diff target (App.stones st))).
Proof.
  split_and!; [|vm_compute; reflexivity|vm_compute; reflexivity|].
  - intros target actual k.
    pose proof (elem_of_correct target actual k) as Hc.
    pose proof (elem_of_missing target actual k) as Hm.
    pose proof (elem_of_extra target actual k) as He.
    split_and!; [done|done|done|].
    intros c c' Ht Ha Hne. split.
    + apply Hm. exists c. split; [done|]. congruence.
    + apply He. exists c'. split; [done|]. congruence.
  - intros st target Ht. unfold App.checkDrill. by rewrite Ht.
Qed.

(** C9, as stated, fails: with a black stone expected at (0,0) and a white
    stone placed there, the key is both in [missing] and in [extra]. *)
Lemma diff_not_disjoint :
  ¬ pairwiseDisjoint (App.diff {[key 0 0 := black]} {[key 0 0 := white]}).
Proof.
  intros [_ [_ H]]. apply (H (key 0 0)); vm_compute; left.
Qed.

(** C9, amended. [correct] is disjoint from [missing] and from [extra]; a
    key is in both [missing] and [extra] exactly when the target and the
    actual board hold stones of different colors there.  No array lists a
    key twice. *)
Theorem diff_overlap (target actual : BoardState) :
  (∀ k, k ∈ App.correct (App.diff target actual) →
        k ∉ App.missing (App.diff target actual)) ∧
  (∀ k, k ∈ App.correct (App.diff target actual) →
        k ∉ App.extra (App.diff target actual)) ∧
  (∀ k, k ∈ App.missing (App.diff target actual) ∧
        k ∈ App.extra (App.diff target actual) ↔
        ∃ c c', target !! k = Some c ∧ actual !! k = Some c' ∧ c ≠ c') ∧
  NoDup (App.correct (App.diff target actual)) ∧
  NoDup (App.missing (App.diff target actual)) ∧
  NoDup (App.extra (App.diff target actual)).
Proof.
  destruct (diff_NoDup target actual) as [N1 [N2 N3]].
  split_and!; try done.
  - intros k [c [Ht Ha]]%elem_of_correct [c' [Ht' Ha']]%elem_of_missing.
    congruence.
  - intros k [c [Ht Ha]]%elem_of_correct [c' [Ht' Ha']]%elem_of_extra.
    congruence.
  - intros k. rewrite elem_of_missing, elem_of_extra. split.
    + intros [[c [Ht Ha]] [c' [Ha' Ht']]]. exists c, c'.
      split_and!; [done|done|congruence].
    + intros [c [c' [Ht [Ha Hne]]]]. split.
      * exists c. split; [done|congruence].
      * exists c'. split; [done|congruence].
Qed.

(** C10. The replay checks no legality: for every move list, whatever the
    board before the last move, the stone of the last move is on the board
    after it.  A move onto an occupied cell overwrites the stone there, and a
    move the recorder refuses as suicide is replayed all the same. *)
Theorem replay_places_unconditionally :
  (∀ size moveList m,
     GameLog.replayGame (moveList ++ [m]) size
       = GameLog.replayMove size (GameLog.replayGame moveList size) m ∧
     (GameLog.replayGame (moveList ++ [m]) size).1 !! key (m_x m) (m_y m)
       = Some (m_color m)) ∧
  (GameLog.replayGame [mkMove 4 4 black None] 9).1 !! key 4 4 = Some black ∧
  (GameLog.replayGame [mkMove 4 4 black None; mkMove 4 4 white None] 9).1
     !! key 4 4 = Some white ∧
  GameLog.handleBoardClick 9 cornerState 0 0
    = (GameLog.SuicideMove, cornerState) ∧
  (GameLog.replayGame
     (GameLog.moves cornerState ++ [mkMove 0 0 white None]) 9).1
     !! key 0 0 = Some white.
Proof.
  split_and!; try (vm_compute; reflexivity).
  intros size moveList m. split; [apply replayGame_snoc|].
  rewrite replayGame_snoc.
  destruct (GameLog.replayGame moveList size) as [b c].
  rewrite replayMove_placeStone. cbn [fst]. apply placeStone_keeps.
Qed.

(** * Further properties of the code *)

(** ** Keys, neighbors and groups *)

(** X1. The key of a coordinate decodes to that coordinate, two coordinates
    never share a key, and a stone written under the key of one cell is read
    back there and leaves every other cell as it was. *)
Theorem key_round_trip :
  (∀ x y, parseKey (key x y) = Some (x, y)) ∧
  (∀ x y x' y', key x y = key x' y' → x = x' ∧ y = y') ∧
  (∀ (board : BoardState) color x y x' y',
     <[key x y := color]> board !! key x' y'
       = if decide ((x, y) = (x', y')) then Some color
         else board !! key x' y').
Proof.
  split; [apply parseKey_key|]. split; [apply key_inj|].
  intros board color x y x' y'. case_decide as Heq.
  - injection Heq as -> ->. apply lookup_insert_eq.
  - apply lookup_insert_ne. intros [-> ->]%key_inj. by apply Heq.
Qed.

Lemma getNeighbors_NoDup size x y : NoDup (getNeighbors x y size).
Proof.
  unfold getNeighbors.
  repeat case_decide; simpl;
    repeat (apply NoDup_cons_2;
            [rewrite ?elem_of_cons, ?elem_of_nil;
             intros Hin; intuition (simplify_eq; lia)|]);
    apply NoDup_nil_2.
Qed.

(** X2. For a cell of the board, [getNeighbors] lists, each once, exactly
    the 4-adjacent cells that are on the board; the relation is symmetric,
    and an interior cell has four neighbors. *)
Theorem getNeighbors_on_board size c :
  onBoard size c →
  NoDup (getNeighbors c.1 c.2 size) ∧
  (∀ c', c' ∈ getNeighbors c.1 c.2 size ↔ adjacent4 c c' ∧ onBoard size c') ∧
  (∀ c', c' ∈ getNeighbors c.1 c.2 size → c ∈ getNeighbors c'.1 c'.2 size) ∧
  (0 < c.1 < size - 1 → 0 < c.2 < size - 1 →
   length (getNeighbors c.1 c.2 size) = 4%nat).
Proof.
  intros Hc. split_and!.
  - apply getNeighbors_NoDup.
  - intros c'. by apply getNeighbors_onBoard.
  - intros c' Hn. by destruct (getNeighbors_sym size c c' Hc Hn).
  - intros Hx Hy. unfold getNeighbors.
    rewrite !decide_True by lia. done.
Qed.

Lemma getNeighbors_on_board_witness :
  onBoard 9 (0, 8) ∧
  getNeighbors 0 8 9 = [(1, 8); (0, 7)] ∧
  (∀ c', c' ∈ getNeighbors 0 8 9 ↔ adjacent4 (0, 8) c' ∧ onBoard 9 c').
Proof.
  assert (onBoard 9 (0, 8)) as Hc by (unfold onBoard; simpl; lia).
  split; [exact Hc|]. split; [vm_compute; reflexivity|].
  exact (proj1 (proj2 (getNeighbors_on_board 9 (0, 8) Hc))).
Defined.

(** X3. [getGroup] returns [null] exactly on an empty cell.  On a stone it
    returns, each once, the keys of exactly the cells connected to the start
    through stones of its color; the start is among them, all hold that
    color, and the loop ends by emptying its queue within as many iterations
    as the board has stones. *)
Theorem getGroup_exact (board : BoardState) size x y :
  (board !! key x y = None → getGroup board x y size = None) ∧
  (∀ color, board !! key x y = Some color →
     ∃ g, getGroup board x y size = Some g ∧
          NoDup g ∧ key x y ∈ g ∧
          (∀ k, k ∈ g ↔
                ∃ c, k = keyOf c ∧ connected board color size (x, y) c) ∧
          (∀ k, k ∈ g → board !! k = Some color) ∧
          (length g ≤ stdpp.base.size board)%nat ∧
          queue (search (stdpp.base.size board) board color size (start x y))
            = []).
Proof.
  split; [apply getGroup_None|]. intros color Hcol.
  destruct (getGroup_spec board size color x y Hcol) as [g [Hg [Hnd Hspec]]].
  exists g. split_and!; try done.
  - apply Hspec. exists (x, y). split; [done|constructor].
  - intros k Hk. by apply (getGroup_color board size color x y g k).
  - rewrite <- (size_list_to_set (C := gset string) g) by done.
    rewrite <- (size_dom (D := gset string) board). apply subseteq_size.
    intros k Hk%elem_of_list_to_set. apply elem_of_dom. exists color.
    by apply (getGroup_color board size color x y g k).
  - by apply getGroup_loop_exit.
Qed.

(** X4. On the board, groups partition the stones: started from any member
    of a group, [getGroup] finds the same stones. *)
Theorem getGroup_same_from_any_member (board : BoardState) size x y g c :
  onBoard size (x, y) →
  getGroup board x y size = Some g →
  keyOf c ∈ g →
  ∃ g', getGroup board c.1 c.2 size = Some g' ∧ ∀ k, k ∈ g' ↔ k ∈ g.
Proof.
  intros Hxy Hg Hc.
  destruct (getGroup_Some_inv board size x y g Hg) as [color Hcol].
  destruct (getGroup_spec board size color x y Hcol) as [g0 [Hg0 [_ Hspec]]].
  rewrite Hg in Hg0. injection Hg0 as Heq. rewrite <- Heq in Hspec.
  destruct (proj1 (Hspec _) Hc) as [c0 [<-%(inj keyOf) Hconn]].
  pose proof (connected_color board color size (x, y) c Hcol Hconn) as Hcc.
  pose proof (connected_onBoard board color size (x, y) c Hxy Hconn) as Hon.
  pose proof (connected_sym board color size (x, y) c Hxy Hcol Hconn) as Hback.
  destruct (getGroup_spec board size color c.1 c.2 Hcc) as [g' [Hg' [_ Hspec']]].
  exists g'. split; [done|]. intros k. rewrite Hspec, Hspec'.
  rewrite <- surjective_pairing.
  split; intros [d [-> Hd]]; exists d; (split; [done|]);
    by eapply connected_trans.
Qed.

Lemma getGroup_same_from_any_member_witness :
  onBoard 9 (0, 0) ∧
  getGroup (GameLog.board pairState) 0 0 9 = Some [key 0 0; key 0 1] ∧
  keyOf (0, 1) ∈ [key 0 0; key 0 1] ∧
  getGroup (GameLog.board pairState) 0 1 9 = Some [key 0 1; key 0 0] ∧
  ∃ g', getGroup (GameLog.board pairState) 0 1 9 = Some g' ∧
        ∀ k, k ∈ g' ↔ k ∈ [key 0 0; key 0 1].
Proof.
  assert (onBoard 9 (0, 0)) as Hc by (unfold onBoard; simpl; lia).
  assert (getGroup (GameLog.board pairState) 0 0 9 = Some [key 0 0; key 0 1])
    as Hg by (vm_compute; reflexivity).
  assert (keyOf (0, 1) ∈ [key 0 0; key 0 1]) as Hm by (right; left).
  split_and!; [exact Hc|exact Hg|exact Hm|vm_compute; reflexivity|].
  exact (getGroup_same_from_any_member _ 9 0 0 _ (0, 1) Hc Hg Hm).
Defined.

(** ** The recorder: what every reachable state satisfies *)

Section RecorderFacts.
Import GameLog.
Context (size : Z).

Lemma delete_all_size (g : list string) (b : BoardState) :
  NoDup g → (∀ k, k ∈ g → is_Some (b !! k)) →
  (stdpp.base.size (foldl (λ b k, delete k b) b g) + length g
   = stdpp.base.size b)%nat.
Proof.
  revert b. induction g as [|m g IH]; intros b Hnd Hin; cbn [foldl length].
  - lia.
  - apply NoDup_cons in Hnd as [Hm Hnd].
    assert (∀ k, k ∈ g → is_Some (delete m b !! k)) as Hin'.
    { intros k Hk. rewrite lookup_delete_ne; [apply Hin; by right|].
      intros ->. by apply Hm. }
    specialize (IH (delete m b) Hnd Hin').
    rewrite map_size_delete_Some in IH by (apply Hin; left).
    assert (stdpp.base.size b ≠ 0)%nat; [|lia].
    intros Hz%map_size_empty_inv. destruct (Hin m) as [? Hx]; [left|].
    by rewrite Hz, lookup_empty in Hx.
Qed.

(** One neighbor of the capture loop keeps the number of stones on the
    board plus the count. *)
Lemma captureNeighbor_conserves opp acc n :
  (stdpp.base.size (captureNeighbor opp size acc n).1
   + (captureNeighbor opp size acc n).2
   = stdpp.base.size acc.1 + acc.2)%nat.
Proof.
  unfold captureNeighbor. case_decide as Hn; [|done].
  destruct (getGroup_spec acc.1 size opp n.1 n.2 Hn) as [g [Hg [Hnd _]]].
  rewrite Hg. case_decide; [|done].
  destruct acc as [b cnt]. rewrite removeStone_fold. cbn [fst snd] in *.
  pose proof (delete_all_size g b Hnd) as Hsize.
  rewrite <- Hsize; [lia|]. intros k Hk. exists opp.
  by apply (getGroup_color b size opp n.1 n.2 g k).
Qed.

Lemma placeStone_conserves (b : BoardState) x y color :
  b !! key x y = None →
  (stdpp.base.size (placeStone size b x y color).1
   + (placeStone size b x y color).2 = S (stdpp.base.size b))%nat.
Proof.
  intros Hempty. unfold placeStone.
  assert (∀ ns acc,
            (stdpp.base.size
               (foldl (captureNeighbor (opponentOf color) size) acc ns).1
             + (foldl (captureNeighbor (opponentOf color) size) acc ns).2
             = stdpp.base.size acc.1 + acc.2)%nat) as Hfold.
  { induction ns as [|n ns IH]; intros acc; [done|].
    cbn [foldl]. rewrite IH. apply captureNeighbor_conserves. }
  rewrite Hfold. cbn [fst snd]. rewrite map_size_insert_None by done. lia.
Qed.

(** A neighbor of the capture loop leaves a cell as it was or empties a cell
    that held an opponent stone. *)
Lemma captureNeighbor_lookup opp acc n k :
  (captureNeighbor opp size acc n).1 !! k = acc.1 !! k ∨
  ((captureNeighbor opp size acc n).1 !! k = None ∧ acc.1 !! k = Some opp).
Proof.
  unfold captureNeighbor. case_decide as Hn; [|by left].
  destruct (getGroup acc.1 n.1 n.2 size) as [g|] eqn:Hg; [|by left].
  case_decide; [|by left].
  destruct acc as [b cnt]. rewrite removeStone_fold. cbn [fst snd] in *.
  rewrite lookup_delete_all. case_decide as Hk; [|by left].
  right. split; [done|]. by apply (getGroup_color b size opp n.1 n.2 g k).
Qed.

Lemma captureNeighbor_fold_lookup opp ns acc k :
  (foldl (captureNeighbor opp size) acc ns).1 !! k = acc.1 !! k ∨
  ((foldl (captureNeighbor opp size) acc ns).1 !! k = None
   ∧ acc.1 !! k = Some opp).
Proof.
  revert acc. induction ns as [|n ns IH]; intros acc; [by left|].
  cbn [foldl].
  destruct (IH (captureNeighbor opp size acc n)) as [Heq|[Hnone Hopp]];
    destruct (captureNeighbor_lookup opp acc n k) as [Heq'|[Hnone' Hopp']];
    try (left; congruence); try (right; split; congruence).
Qed.

(** When the count grows on a neighbor, the cell of that neighbor is
    emptied. *)
Lemma captureNeighbor_empties opp acc n :
  (acc.2 < (captureNeighbor opp size acc n).2)%nat →
  (captureNeighbor opp size acc n).1 !! keyOf n = None.
Proof.
  unfold captureNeighbor. case_decide as Hn; [|lia].
  destruct (getGroup_spec acc.1 size opp n.1 n.2 Hn) as [g [Hg [_ Hspec]]].
  rewrite Hg. case_decide; [|lia]. intros _.
  destruct acc as [b cnt]. rewrite removeStone_fold. cbn [fst snd] in *.
  rewrite lookup_delete_all. rewrite decide_True; [done|].
  apply Hspec. exists n. split; [done|]. rewrite <- surjective_pairing.
  constructor.
Qed.

Lemma captureNeighbor_count_le opp acc n :
  (acc.2 ≤ (captureNeighbor opp size acc n).2)%nat.
Proof.
  unfold captureNeighbor. case_decide; [|done].
  destruct (getGroup acc.1 n.1 n.2 size) as [g|]; [|done].
  case_decide; [|done].
  destruct acc as [b cnt]. rewrite removeStone_fold. cbn [snd]. lia.
Qed.

Lemma captureNeighbor_fold_empties opp ns acc :
  (acc.2 < (foldl (captureNeighbor opp size) acc ns).2)%nat →
  ∃ n, n ∈ ns ∧ (foldl (captureNeighbor opp size) acc ns).1 !! keyOf n = None.
Proof.
  revert acc. induction ns as [|n ns IH]; intros acc; cbn [foldl]; [lia|].
  intros Hlt.
  destruct (decide (acc.2 < (captureNeighbor opp size acc n).2)%nat) as [Hn|Hn].
  - exists n. split; [by left|].
    destruct (captureNeighbor_fold_lookup opp ns
                (captureNeighbor opp size acc n) (keyOf n)) as [->|[-> _]];
      [|done].
    by apply captureNeighbor_empties.
  - destruct (IH (captureNeighbor opp size acc n)) as [n' [Hn' Hnone]].
    + pose proof (captureNeighbor_count_le opp acc n). lia.
    + exists n'. split; [by right|done].
Qed.

(** An empty neighbor of the start is a liberty of its group. *)
Lemma countLiberties_empty_neighbor (b : BoardState) x y g n :
  getGroup b x y size = Some g →
  n ∈ getNeighbors x y size → b !! keyOf n = None →
  countLiberties b g size ≠ 0%nat.
Proof.
  intros Hg Hn Hempty.
  destruct (getGroup_Some_inv b size x y g Hg) as [color Hcol].
  destruct (getGroup_spec b size color x y Hcol) as [g0 [Hg0 [_ Hspec]]].
  rewrite Hg in Hg0. injection Hg0 as Heq. rewrite <- Heq in Hspec.
  unfold countLiberties. apply size_non_empty_iff.
  intros Hemp. apply (not_elem_of_empty (C := gset string) (keyOf n)).
  rewrite <- Hemp. apply elem_of_libertySet.
  exists (key x y), (x, y), n. split_and!; try done.
  - apply Hspec. exists (x, y). split; [done|constructor].
  - apply parseKey_key.
Qed.

(** An accepted click, with what the suicide check found. *)
Lemma handleBoardClick_placed_alive st x y st' :
  handleBoardClick size st x y = (Placed, st') →
  ∃ g, getGroup (board st') x y size = Some g ∧
       countLiberties (board st') g size ≠ 0%nat.
Proof.
  intros Hc. pose proof Hc as [_ Hst']%handleBoardClick_placed.
  unfold handleBoardClick in Hc.
  destruct (board st !! key x y); [done|].
  destruct (placeStone size (board st) x y (turn st)) as [newBoard cnt] eqn:Hp.
  cbn [fst snd] in Hst'. subst st'. cbn [board].
  pose proof (placeStone_keeps size (board st) x y (turn st)) as Hkeep.
  rewrite Hp in Hkeep. cbn [fst] in Hkeep.
  destruct (getGroup_spec newBoard size _ x y Hkeep) as [g [Hg _]].
  rewrite Hg in Hc. exists g. split; [done|].
  by case_decide.
Qed.

Lemma live_conserves clicks st :
  live size clicks = Some st →
  (stdpp.base.size (board st) + cap_black (captures st)
   + cap_white (captures st) = length (moves st))%nat.
Proof.
  revert st. induction clicks as [|c clicks IH] using rev_ind; intros st.
  - intros [= <-]. done.
  - rewrite live_snoc. intros [prev [Hprev Hclick]]%liveStep_Some.
    specialize (IH prev Hprev).
    apply handleBoardClick_placed in Hclick as [Hempty ->].
    cbn [board captures moves]. rewrite length_app. cbn [length].
    pose proof (placeStone_conserves (board prev) c.1 c.2 (turn prev) Hempty).
    destruct (turn prev); unfold addCap; cbn [cap_black cap_white]; lia.
Qed.

Lemma live_moves_alternate clicks st :
  live size clicks = Some st →
  ∀ i m, moves st !! i = Some m →
         m_color m = toPlay i ∧ is_Some (m_captures m).
Proof.
  revert st. induction clicks as [|c clicks IH] using rev_ind; intros st.
  - intros [= <-] i m Hm. by destruct i.
  - rewrite live_snoc. intros [prev [Hprev Hclick]]%liveStep_Some.
    destruct (live_recorded size clicks prev Hprev) as [[_ _ Hturn] _].
    apply handleBoardClick_placed in Hclick as [_ ->]. cbn [moves].
    intros i m [Hm|[Hi Hm]]%lookup_app_Some; [by apply (IH prev Hprev)|].
    apply list_lookup_singleton_Some in Hm as [Hz <-]. cbn [m_color m_captures].
    split; [|by eexists]. rewrite Hturn. f_equal. lia.
Qed.

End RecorderFacts.

(** X5. In every state the recorder can reach, by clicks accepted or
    refused and by undos, the board and the capture tally are those of the
    replay of the move list, the colors of the moves alternate from black,
    every move carries its capture count, and it is the turn of the color
    that follows the last move. *)
Theorem reachable_replay_consistent size st :
  reachable size st →
  GameLog.replayGame (GameLog.moves st) size
    = (GameLog.board st, GameLog.captures st) ∧
  GameLog.turn st = toPlay (length (GameLog.moves st)) ∧
  (∀ i m, GameLog.moves st !! i = Some m →
          m_color m = toPlay i ∧ is_Some (m_captures m)).
Proof.
  intros [clicks Hl]%reachable_live.
  destruct (live_recorded size clicks st Hl) as [[Hr _ Ht] _].
  split; [done|]. split; [done|]. by apply (live_moves_alternate size clicks).
Qed.

Lemma reachable_replay_consistent_witness :
  reachable 9 wanderState ∧
  GameLog.moves wanderState = [mkMove 1 0 black (Some 0%nat)] ∧
  GameLog.replayGame (GameLog.moves wanderState) 9
    = (GameLog.board wanderState, GameLog.captures wanderState) ∧
  GameLog.turn wanderState = white.
Proof.
  assert (reachable 9 wanderState) as Hr
    by (do 1 apply reachable_undo; do 3 apply reachable_click;
        apply reachable_reset).
  destruct (reachable_replay_consistent 9 wanderState Hr) as [Hreplay [Ht _]].
  split_and!; [exact Hr|vm_compute; reflexivity|exact Hreplay|].
  rewrite Ht. vm_compute. reflexivity.
Defined.

(** X6. In every reachable state of the recorder, the stones on the board
    plus the stones captured by Black and by White are as many as the moves
    played. *)
Theorem stones_plus_captures size st :
  reachable size st →
  (stdpp.base.size (GameLog.board st)
   + GameLog.cap_black (GameLog.captures st)
   + GameLog.cap_white (GameLog.captures st)
   = length (GameLog.moves st))%nat.
Proof.
  intros [clicks Hl]%reachable_live. by apply (live_conserves size clicks).
Qed.

Lemma stones_plus_captures_witness :
  reachable 9 capturedState ∧
  stdpp.base.size (GameLog.board capturedState) = 2%nat ∧
  GameLog.captures capturedState = GameLog.mkCaptures 1 0 ∧
  (stdpp.base.size (GameLog.board capturedState)
   + GameLog.cap_black (GameLog.captures capturedState)
   + GameLog.cap_white (GameLog.captures capturedState)
   = length (GameLog.moves capturedState))%nat.
Proof.
  assert (reachable 9 capturedState) as Hr.
  { replace capturedState with
      (GameLog.handleBoardClick 9
         (GameLog.handleBoardClick 9
            (GameLog.handleBoardClick 9 GameLog.resetRecorder 1 0).2 0 0).2
         0 1).2 by (vm_compute; reflexivity).
    do 3 apply reachable_click. apply reachable_reset. }
  split_and!; [exact Hr|vm_compute; reflexivity|vm_compute; reflexivity|].
  exact (stones_plus_captures 9 capturedState Hr).
Defined.

(** X7. An accepted move puts its stone on the clicked cell, adds no other
    stone, never removes a stone of the mover, and removes only stones of the
    opponent. *)
Theorem capture_spares_own_stones size st x y st' :
  GameLog.handleBoardClick size st x y = (GameLog.Placed, st') →
  GameLog.board st' !! key x y = Some (GameLog.turn st) ∧
  (∀ k color, k ≠ key x y → GameLog.board st' !! k = Some color →
              GameLog.board st !! k = Some color) ∧
  (∀ k, GameLog.board st !! k = Some (GameLog.turn st) →
        GameLog.board st' !! k = Some (GameLog.turn st)) ∧
  (∀ k color, GameLog.board st !! k = Some color →
              GameLog.board st' !! k = None →
              color = GameLog.opponentOf (GameLog.turn st)).
Proof.
  intros [Hempty ->]%handleBoardClick_placed. cbn [GameLog.board].
  assert (∀ k,
    (GameLog.placeStone size (GameLog.board st) x y (GameLog.turn st)).1 !! k
      = <[key x y := GameLog.turn st]> (GameLog.board st) !! k ∨
    ((GameLog.placeStone size (GameLog.board st) x y (GameLog.turn st)).1 !! k
      = None ∧
     <[key x y := GameLog.turn st]> (GameLog.board st) !! k
      = Some (GameLog.opponentOf (GameLog.turn st)))) as Hlook.
  { intros k. apply captureNeighbor_fold_lookup. }
  split_and!.
  - apply placeStone_keeps.
  - intros k color Hne Hk. destruct (Hlook k) as [Heq|[Hnone _]]; [|congruence].
    rewrite Heq, lookup_insert_ne in Hk by done. done.
  - intros k Hk. assert (k ≠ key x y) as Hne by congruence.
    destruct (Hlook k) as [Heq|[_ Hopp]].
    + by rewrite Heq, lookup_insert_ne.
    + rewrite lookup_insert_ne, Hk in Hopp by done.
      injection Hopp as Hopp. by destruct (GameLog.turn st).
  - intros k color Hk Hnone. assert (k ≠ key x y) as Hne by congruence.
    destruct (Hlook k) as [Heq|[_ Hopp]].
    + rewrite Heq, lookup_insert_ne, Hk in Hnone by done. done.
    + rewrite lookup_insert_ne, Hk in Hopp by done. congruence.
Qed.

Lemma capture_spares_own_stones_witness :
  GameLog.handleBoardClick 9 atariState 0 1 = (GameLog.Placed, capturedState) ∧
  GameLog.board capturedState !! key 0 1 = Some black ∧
  GameLog.board capturedState !! key 1 0 = Some black ∧
  GameLog.board atariState !! key 0 0 = Some white ∧
  GameLog.board capturedState !! key 0 0 = None.
Proof.
  assert (GameLog.handleBoardClick 9 atariState 0 1
          = (GameLog.Placed, capturedState)) as Hc by (vm_compute; reflexivity).
  destruct (capture_spares_own_stones 9 atariState 0 1 capturedState Hc)
    as [Hnew [_ [Hown _]]].
  split_and!; [exact Hc| | |vm_compute; reflexivity|vm_compute; reflexivity].
  - rewrite Hnew. vm_compute. reflexivity.
  - apply Hown. vm_compute. reflexivity.
Defined.

(** X8. A click on an empty cell that captures at least one stone is never
    refused: the cell of a captured neighbor is a liberty of the new
    stone. *)
Theorem capturing_move_accepted size st x y :
  GameLog.board st !! key x y = None →
  (0 < (GameLog.placeStone size (GameLog.board st) x y (GameLog.turn st)).2)%nat →
  (GameLog.handleBoardClick size st x y).1 = GameLog.Placed.
Proof.
  intros Hempty Hcnt. unfold GameLog.handleBoardClick. rewrite Hempty.
  pose proof (placeStone_keeps size (GameLog.board st) x y (GameLog.turn st))
    as Hkeep.
  destruct (captureNeighbor_fold_empties size
              (GameLog.opponentOf (GameLog.turn st)) (getNeighbors x y size)
              (<[key x y := GameLog.turn st]> (GameLog.board st), 0%nat) Hcnt)
    as [n [Hn Hnone]].
  fold (GameLog.placeStone size (GameLog.board st) x y (GameLog.turn st))
    in Hnone.
  destruct (GameLog.placeStone size (GameLog.board st) x y (GameLog.turn st))
    as [newBoard cnt].
  cbn [fst snd] in *.
  destruct (getGroup newBoard x y size) as [g|] eqn:Hg; [|done].
  rewrite decide_False; [done|].
  by apply (countLiberties_empty_neighbor size newBoard x y g n).
Qed.

Lemma capturing_move_accepted_witness :
  GameLog.board atariState !! key 0 1 = None ∧
  (GameLog.placeStone 9 (GameLog.board atariState) 0 1
     (GameLog.turn atariState)).2 = 1%nat ∧
  (GameLog.handleBoardClick 9 atariState 0 1).1 = GameLog.Placed.
Proof.
  split; [vm_compute; reflexivity|]. split; [vm_compute; reflexivity|].
  apply (capturing_move_accepted 9 atariState 0 1).
  - vm_compute. reflexivity.
  - vm_compute. lia.
Defined.

(** ** The recorder keeps the position legal *)

Section Legal.
Import GameLog.
Context (size : Z).

(** [countLiberties] of the group of a stone is not zero exactly when the
    group has a liberty. *)
Lemma liberty_iff (b : BoardState) c color g :
  b !! keyOf c = Some color → getGroup b c.1 c.2 size = Some g →
  countLiberties b g size ≠ 0%nat ↔ hasLiberty b color size c.
Proof.
  intros Hcol Hg.
  destruct (getGroup_spec b size color c.1 c.2 Hcol) as [g0 [Hg0 [_ Hspec]]].
  rewrite Hg in Hg0. injection Hg0 as Heq. rewrite <- Heq in Hspec.
  rewrite <- surjective_pairing in Hspec.
  unfold countLiberties. rewrite size_non_empty_iff. split.
  - intros [k Hk]%set_choose.
    apply elem_of_libertySet in Hk as [m [c1 [c2 [Hm [Hp [Hn [-> Hemp]]]]]]].
    destruct (proj1 (Hspec m) Hm) as [c1' [-> Hconn]].
    rewrite parseKey_keyOf in Hp. injection Hp as ->.
    by exists c1, c2.
  - intros [c1 [c2 [Hconn [Hn Hemp]]]] Hempty.
    apply (not_elem_of_empty (C := gset string) (keyOf c2)).
    rewrite <- Hempty. apply elem_of_libertySet.
    exists (keyOf c1), c1, c2. split_and!; try done.
    + apply Hspec. by exists c1.
    + apply parseKey_keyOf.
Qed.

(** After a stone is placed on the board and the dead groups of its
    neighbors are removed, every group has a liberty as soon as the group of
    the new stone has one and every group had one before. *)
Lemma placed_alive (b : BoardState) p t :
  onBoard size p → b !! keyOf p = None →
  (∀ c col, onBoard size c → b !! keyOf c = Some col →
            hasLiberty b col size c) →
  let b1 := <[keyOf p := t]> b in
  let D := deadStones b1 (opponentOf t) size (getNeighbors p.1 p.2 size) in
  hasLiberty (without D b1) t size p →
  ∀ c col, onBoard size c → without D b1 !! keyOf c = Some col →
           hasLiberty (without D b1) col size c.
Proof.
  intros Hp Hempty Hall b1 D Hown c col Hc Hcol.
  set (opp := opponentOf t) in *.
  assert (t ≠ opp) as Hto by apply opponentOf_ne.
  assert (sealed b1 opp size D) as HD.
  { apply deadStones_sealed. rewrite (surjective_pairing p) in Hp.
    by apply getNeighbors_Forall_onBoard. }
  assert (∀ k, k ∈ D → b1 !! k = Some opp) as HDopp.
  { intros k Hk. by destruct (sealed_stone b1 opp size D HD k Hk)
      as [? [_ [_ ?]]]. }
  assert (∀ c', c' ≠ p → b1 !! keyOf c' = b !! keyOf c') as Hb1.
  { intros c' Hne. unfold b1. apply lookup_insert_ne.
    intros Heq%(inj keyOf). by apply Hne. }
  assert (b1 !! keyOf p = Some t) as Hb1p by apply lookup_insert_eq.
  assert (∀ k, b1 !! k = None → without D b1 !! k = None) as Hnone.
  { intros k Hk. rewrite lookup_without. by case_decide. }
  assert (∀ c', b !! keyOf c' = Some t → without D b1 !! keyOf c' = Some t)
    as Hkeep.
  { intros c' Hc'. assert (c' ≠ p) as Hne by (intros ->; congruence).
    rewrite lookup_without. rewrite decide_False; [by rewrite Hb1|].
    intros Hin%HDopp. rewrite Hb1, Hc' in Hin by done. congruence. }
  assert (without D b1 !! keyOf p = Some t) as Hb2p.
  { rewrite lookup_without. rewrite decide_False; [done|].
    intros Hin%HDopp. congruence. }
  rewrite lookup_without in Hcol. case_decide as HcD; [done|].
  destruct (decide (col = t)) as [->|Hne].
  - (* a stone of the mover *)
    destruct (decide (c = p)) as [->|Hcp]; [done|].
    rewrite Hb1 in Hcol by done.
    destruct (Hall c t Hc Hcol) as [c1 [c2 [Hconn [Hn Hemp]]]].
    assert (connected (without D b1) t size c c1) as Hconn2.
    { clear Hn. induction Hconn as [|d d' _ IH Hn' Hd']; [constructor|].
      eapply connected_step; [done|done|]. by apply Hkeep. }
    destruct (decide (c2 = p)) as [->|Hc2].
    + destruct Hown as [p1 [p2 [Hpp [Hn2 Hemp2]]]].
      exists p1, p2. split; [|done].
      eapply connected_trans; [|done]. by eapply connected_step.
    + exists c1, c2. split; [done|]. split; [done|].
      apply Hnone. by rewrite Hb1.
  - (* a stone of the opponent *)
    assert (col = opp) as -> by (unfold opp; by destruct col, t).
    assert (c ≠ p) as Hcp by (intros ->; congruence).
    pose proof Hcol as Hcolb. rewrite Hb1 in Hcolb by done.
    destruct (Hall c opp Hc Hcolb) as [c1 [c2 [Hconn [Hn Hemp]]]].
    assert (connected b1 opp size c c1) as Hconn1.
    { clear Hn. induction Hconn as [|d d' _ IH Hn' Hd']; [constructor|].
      eapply connected_step; [done|done|].
      rewrite Hb1; [done|]. intros ->. congruence. }
    pose proof (proj2 (connected_without b1 opp size D HD c Hc Hcol HcD c1)
                  Hconn1) as Hconn2.
    destruct (decide (c2 = p)) as [->|Hc2].
    + pose proof (connected_onBoard b1 opp size c c1 Hc Hconn1) as Hc1.
      destruct (getNeighbors_sym size c1 p Hc1 Hn) as [_ Hback].
      pose proof (connected_color b1 opp size c c1 Hcol Hconn1) as Hcol1.
      pose proof (connected_apart b1 opp size D HD c Hc Hcol HcD c1 Hconn1)
        as Hc1D.
      destruct (getGroup_spec b1 size opp c1.1 c1.2 Hcol1)
        as [g1 [Hg1 [_ Hspec1]]].
      assert (countLiberties b1 g1 size ≠ 0%nat) as Hlib.
      { intros Hzero. apply Hc1D. apply elem_of_deadStones.
        exists c1. split; [done|]. unfold deadGroup.
        rewrite decide_True by done. rewrite Hg1.
        rewrite decide_True by done. apply Hspec1. exists c1.
        split; [done|]. rewrite <- surjective_pairing. constructor. }
      apply (liberty_iff b1 c1 opp g1 Hcol1 Hg1) in Hlib
        as [d1 [d2 [Hd1 [Hnd Hempd]]]].
      exists d1, d2. split; [|split; [done|by apply Hnone]].
      apply (connected_without b1 opp size D HD c Hc Hcol HcD).
      by eapply connected_trans.
    + exists c1, c2. split; [done|]. split; [done|].
      apply Hnone. by rewrite Hb1.
Qed.

Lemma live_legal clicks st :
  Forall (onBoard size) clicks → live size clicks = Some st →
  onBoardPosition size (board st) ∧
  (∀ c col, onBoard size c → board st !! keyOf c = Some col →
            hasLiberty (board st) col size c).
Proof.
  revert st. induction clicks as [|p clicks IH] using rev_ind; intros st Hon.
  - intros [= <-]. change (board resetRecorder) with (∅ : BoardState). split.
    + intros k [? Hk]. by rewrite lookup_empty in Hk.
    + intros c col _ Hk. by rewrite lookup_empty in Hk.
  - apply Forall_app in Hon as [Hon Hp]. rewrite Forall_singleton in Hp.
    rewrite live_snoc. intros [prev [Hprev Hclick]]%liveStep_Some.
    destruct (IH prev Hon Hprev) as [Hpos Hall].
    destruct (handleBoardClick_placed_alive size prev p.1 p.2 st Hclick)
      as [g [Hg Hlib]].
    pose proof Hclick as [Hempty Hst]%handleBoardClick_placed.
    assert (board st = (placeStone size (board prev) p.1 p.2 (turn prev)).1)
      as Hboard by (by rewrite Hst).
    assert (onBoard size (p.1, p.2)) as Hp' by (by destruct p).
    rewrite (placeStone_spec size (board prev) p.1 p.2 (turn prev) Hp')
      in Hboard.
    cbn [fst] in Hboard. change (key p.1 p.2) with (keyOf p) in *.
    assert (board st !! keyOf p = Some (turn prev)) as Hnew.
    { rewrite Hst. cbn [board]. apply placeStone_keeps. }
    apply (liberty_iff (board st) p (turn prev) g Hnew Hg) in Hlib.
    rewrite Hboard in Hlib |- *. split.
    + intros k [col Hk]. rewrite lookup_without in Hk.
      case_decide; [done|].
      destruct (decide (k = keyOf p)) as [->|Hne]; [by exists p|].
      rewrite lookup_insert_ne in Hk by done. apply Hpos. by exists col.
    + by apply placed_alive.
Qed.

End Legal.

(** X9. After any sequence of accepted clicks on the board, every stone of
    the recorder lies on the board and no group is without liberty:
    [countLiberties] of the group of every stone is at least one. *)
Theorem no_group_without_liberty size clicks st :
  Forall (onBoard size) clicks →
  live size clicks = Some st →
  onBoardPosition size (GameLog.board st) ∧ alive size (GameLog.board st).
Proof.
  intros Hon Hl. destruct (live_legal size clicks st Hon Hl) as [Hpos Hall].
  split; [done|]. intros c color Hc.
  destruct (getGroup_spec (GameLog.board st) size color c.1 c.2 Hc)
    as [g [Hg _]].
  exists g. split; [done|].
  apply (liberty_iff size (GameLog.board st) c color g Hc Hg).
  apply Hall; [|done].
  destruct (Hpos (keyOf c)) as [c' [->%(inj keyOf) Hc']]; [by exists color|done].
Qed.

Lemma no_group_without_liberty_witness :
  Forall (onBoard 9) (atariClicks ++ [(0, 1)]) ∧
  live 9 (atariClicks ++ [(0, 1)]) = Some capturedState ∧
  onBoardPosition 9 (GameLog.board capturedState) ∧
  alive 9 (GameLog.board capturedState).
Proof.
  assert (Forall (onBoard 9) (atariClicks ++ [(0, 1)])) as Hon
    by (repeat constructor; unfold onBoard; simpl; lia).
  assert (live 9 (atariClicks ++ [(0, 1)]) = Some capturedState) as Hl
    by (vm_compute; reflexivity).
  split; [exact Hon|]. split; [exact Hl|].
  exact (no_group_without_liberty 9 _ _ Hon Hl).
Defined.

(** ** The drill check: scores *)

Section Scores.
Import App.

Lemma filter_split_length {A} (P : A → Prop) `{!∀ x, Decision (P x)}
    (l : list A) :
  (length (filter P l) + length (filter (λ x, ¬ P x) l) = length l)%nat.
Proof.
  induction l as [|x l IH]; [done|].
  rewrite !filter_cons. destruct (decide (P x)) as [Hx|Hx].
  - rewrite decide_False by tauto. simpl. lia.
  - rewrite decide_True by done. simpl. lia.
Qed.

Lemma diff_target_count (target actual : BoardState) :
  (length (correct (diff target actual)) + length (missing (diff target actual))
   = stdpp.base.size target)%nat.
Proof.
  rewrite diff_lists. cbn [correct missing]. rewrite !length_fmap.
  rewrite <- length_map_to_list.
  apply (filter_split_length (λ e, actual !! e.1 = Some e.2)).
Qed.

Lemma diff_actual_count (target actual : BoardState) :
  (length (correct (diff target actual)) + length (extra (diff target actual))
   = stdpp.base.size actual)%nat.
Proof.
  destruct (diff_NoDup target actual) as [Hc [_ _]].
  assert (length (correct (diff target actual))
          = length (filter (λ k, ¬ (target !! k = None
                                    ∨ actual !! k ≠ target !! k))
                      (map_to_list actual).*1)) as ->.
  { apply Permutation_length, NoDup_Permutation; [done| |].
    - apply NoDup_filter, NoDup_fst_map_to_list.
    - intros k. rewrite elem_of_correct, list_elem_of_filter, list_elem_of_fmap.
      split.
      + intros [c [Ht Ha]]. split.
        * intros [?|?]; congruence.
        * exists (k, c). split; [done|]. by apply elem_of_map_to_list.
      + intros [Hk [[k' c] [-> Ha%elem_of_map_to_list]]]. simpl in *.
        exists c. split; [|done].
        destruct (target !! k') as [c'|] eqn:Ht; [|by destruct Hk; left].
        destruct (decide (c = c')) as [->|Hne]; [done|].
        destruct Hk. right. congruence. }
  rewrite diff_lists. cbn [extra].
  rewrite Nat.add_comm.
  rewrite (filter_split_length
             (λ k, target !! k = None ∨ actual !! k ≠ target !! k)).
  by rewrite length_fmap, length_map_to_list.
Qed.

End Scores.

(** X10. The drill check reports nothing missing and nothing extra exactly
    when the rebuilt board equals the target; then every stone of the target
    is reported correct. *)
Theorem diff_perfect_iff_equal (target actual : BoardState) :
  (App.missing (App.diff target actual) = [] ∧
   App.extra (App.diff target actual) = [] ↔ target = actual) ∧
  (target = actual →
   ∀ k, k ∈ App.correct (App.diff target actual) ↔ is_Some (target !! k)).
Proof.
  split; [split|].
  - intros [Hm He]. apply map_eq. intros k.
    destruct (target !! k) as [c|] eqn:Ht.
    + destruct (decide (actual !! k = Some c)) as [Ha|Ha]; [done|].
      assert (k ∈ App.missing (App.diff target actual)) as Hin
        by (apply elem_of_missing; by exists c).
      rewrite Hm in Hin. by apply elem_of_nil in Hin.
    + destruct (actual !! k) as [c|] eqn:Ha; [|done].
      assert (k ∈ App.extra (App.diff target actual)) as Hin
        by (apply elem_of_extra; exists c; split; [done|congruence]).
      rewrite He in Hin. by apply elem_of_nil in Hin.
  - intros <-. split; apply elem_of_nil_inv; intros k.
    + intros [c [Ht Hne]]%elem_of_missing. done.
    + intros [c [Ht Hne]]%elem_of_extra. done.
  - intros <- k. rewrite elem_of_correct. split.
    + intros [c [Ht _]]. by exists c.
    + intros [c Ht]. by exists c.
Qed.

(** X11. The drill check classifies every stone once: the correct and the
    missing keys are as many as the stones of the target, and the correct and
    the extra keys are as many as the stones placed. *)
Theorem diff_counts (target actual : BoardState) :
  (length (App.correct (App.diff target actual))
   + length (App.missing (App.diff target actual))
   = stdpp.base.size target)%nat ∧
  (length (App.correct (App.diff target actual))
   + length (App.extra (App.diff target actual))
   = stdpp.base.size actual)%nat.
Proof.
  split; [apply diff_target_count|apply diff_actual_count].
Qed.

(** ** What the board draws *)

Section Drawing.
Import BoardView.

Lemma elem_of_stoneViews (stones : BoardState) lastMove feedback v :
  v ∈ stoneViews stones lastMove feedback ↔
    ∃ k c, stones !! k = Some c ∧
           included App.missing feedback k = false ∧
           v = {| sv_key := k; sv_at := parseKey k; sv_color := c;
                  sv_lastMove := isLastMove lastMove (parseKey k);
                  sv_extra := included App.extra feedback k;
                  sv_correct := included App.correct feedback k |}.
Proof.
  unfold stoneViews. rewrite list_elem_of_omap. split.
  - intros [[k c] [Hk%elem_of_map_to_list Hv]]. unfold stoneView in Hv.
    cbn [fst snd] in Hv.
    destruct (included App.missing feedback k) eqn:Hm; [done|].
    injection Hv as <-. by exists k, c.
  - intros [k [c [Hk [Hm ->]]]]. exists (k, c).
    split; [by apply elem_of_map_to_list|].
    unfold stoneView. cbn [fst snd]. by rewrite Hm.
Qed.

End Drawing.

(** X12. What the drill board draws once the answer is checked.  A stone
    of the rebuilt board is drawn unless the target expects another color
    there; a drawn stone carries exactly one marker, the green dot when the
    target holds the same stone and the red cross when the target is empty
    there; the ghosts are the target stones that are absent or have the wrong
    color.  So each stone of the target shows as a dotted stone or as a
    ghost, never both, and a stone of the wrong color is hidden behind its
    ghost without a cross. *)
Theorem feedback_view (target actual : BoardState) lastMove :
  let feedback := Some (App.diff target actual) in
  let views := BoardView.stoneViews actual lastMove feedback in
  (∀ k, (∃ v, v ∈ views ∧ BoardView.sv_key v = k) ↔
        ∃ c, actual !! k = Some c ∧
             (target !! k = None ∨ target !! k = Some c)) ∧
  (∀ v, v ∈ views →
        actual !! BoardView.sv_key v = Some (BoardView.sv_color v) ∧
        (BoardView.sv_extra v = true ↔ target !! BoardView.sv_key v = None) ∧
        (BoardView.sv_correct v = true ↔
           target !! BoardView.sv_key v = Some (BoardView.sv_color v)) ∧
        BoardView.sv_extra v = negb (BoardView.sv_correct v)) ∧
  (∀ k, k ∈ BoardView.ghosts feedback ↔
        ∃ c, target !! k = Some c ∧ actual !! k ≠ Some c) ∧
  (∀ k c, target !! k = Some c →
        (k ∈ BoardView.ghosts feedback ↔
         ¬ ∃ v, v ∈ views ∧ BoardView.sv_key v = k)).
Proof.
  intros feedback views.
  assert (∀ k, BoardView.included App.missing feedback k = false ↔
               ¬ ∃ c, target !! k = Some c ∧ actual !! k ≠ Some c) as Hmiss.
  { intros k. unfold feedback, BoardView.included.
    rewrite bool_decide_eq_false. by rewrite elem_of_missing. }
  assert (∀ k, BoardView.included App.extra feedback k = true ↔
               ∃ c, actual !! k = Some c ∧ target !! k ≠ Some c) as Hextra.
  { intros k. unfold feedback, BoardView.included.
    rewrite bool_decide_eq_true. by rewrite elem_of_extra. }
  assert (∀ k, BoardView.included App.correct feedback k = true ↔
               ∃ c, target !! k = Some c ∧ actual !! k = Some c) as Hcorrect.
  { intros k. unfold feedback, BoardView.included.
    rewrite bool_decide_eq_true. by rewrite elem_of_correct. }
  assert (∀ k, (∃ v, v ∈ views ∧ BoardView.sv_key v = k) ↔
               ∃ c, actual !! k = Some c ∧
                    (target !! k = None ∨ target !! k = Some c)) as Hdrawn.
  { intros k. split.
    - intros [v [Hv <-]].
      apply elem_of_stoneViews in Hv as [k [c [Ha [Hm ->]]]].
      cbn [BoardView.sv_key]. exists c. split; [done|].
      apply Hmiss in Hm. destruct (target !! k) as [c'|] eqn:Ht; [|by left].
      right. destruct (decide (c' = c)) as [->|Hne]; [done|].
      destruct Hm. exists c'. split; [done|congruence].
    - intros [c [Ha Ht]]. eexists. split.
      + apply elem_of_stoneViews. exists k, c. split; [done|].
        split; [|done]. apply Hmiss. intros [c' [Ht' Hne]].
        destruct Ht; congruence.
      + done. }
  split_and!.
  - exact Hdrawn.
  - intros v Hv. apply elem_of_stoneViews in Hv as [k [c [Ha [Hm ->]]]].
    cbn [BoardView.sv_key BoardView.sv_color BoardView.sv_extra
         BoardView.sv_correct].
    apply Hmiss in Hm.
    assert (target !! k = None ∨ target !! k = Some c) as Ht.
    { destruct (target !! k) as [c'|] eqn:Ht; [|by left].
      right. destruct (decide (c' = c)) as [->|Hne]; [done|].
      destruct Hm. exists c'. split; [done|congruence]. }
    assert (BoardView.included App.extra feedback k = true
            ↔ target !! k = None) as He.
    { rewrite Hextra. split.
      - intros [c' [Ha' Hne]]. destruct Ht; congruence.
      - intros Hn. exists c. split; [done|congruence]. }
    assert (BoardView.included App.correct feedback k = true
            ↔ target !! k = Some c) as Hc.
    { rewrite Hcorrect. split.
      - intros [c' [Ht' Ha']]. congruence.
      - intros Hs. by exists c. }
    split_and!; try done.
    destruct (BoardView.included App.extra feedback k) eqn:E1;
      destruct (BoardView.included App.correct feedback k) eqn:E2;
      try done.
    + assert (target !! k = None) by (by apply He).
      assert (target !! k = Some c) by (by apply Hc). congruence.
    + destruct Ht as [Ht|Ht].
      * apply He in Ht. congruence.
      * apply Hc in Ht. congruence.
  - intros k. unfold feedback. cbn [BoardView.ghosts]. apply elem_of_missing.
  - intros k c Ht. unfold feedback at 1. cbn [BoardView.ghosts].
    rewrite elem_of_missing, Hdrawn. split.
    + intros [c' [Ht' Hne]] [c'' [Ha [Hn|Hs]]]; congruence.
    + intros Hno. exists c. split; [done|]. intros Ha. apply Hno.
      exists c. split; [done|by right].
Qed.

(** ** The editor and the drill *)

Section TrainerFacts.
Import Trainer.

Lemma toggleStone_lookup k tool (prev : BoardState) k' :
  toggleStone k tool prev !! k' =
    if decide (k' = k)
    then match prev !! k with Some _ => None | None => Some tool end
    else prev !! k'.
Proof.
  unfold toggleStone. destruct (prev !! k) as [c|] eqn:Hk.
  - case_decide as Hkk; [subst; apply lookup_delete_eq|].
    by apply lookup_delete_ne.
  - case_decide as Hkk; [subst; apply lookup_insert_eq|].
    by apply lookup_insert_ne.
Qed.

Lemma toggleStone_twice k tool (prev : BoardState) :
  toggleStone k tool (toggleStone k tool prev) = prev ↔
    prev !! k = None ∨ prev !! k = Some tool.
Proof.
  split.
  - intros Heq. pose proof (toggleStone_lookup k tool
      (toggleStone k tool prev) k) as H2.
    rewrite Heq, decide_True in H2 by done.
    rewrite toggleStone_lookup, decide_True in H2 by done.
    destruct (prev !! k); [by right|by left].
  - intros Hk. apply map_eq. intros k'.
    rewrite !toggleStone_lookup.
    case_decide as Hkk; [subst k'|done].
    rewrite decide_True by done.
    destruct Hk as [->| ->]; done.
Qed.

Lemma handleIntersectionClick_open st x y :
  drillPhase st = App.idle ∨ drillPhase st = App.rebuild →
  handleIntersectionClick st x y =
    setStones (toggleStone (key x y) (currentToolColor st) (stones st)) st.
Proof. unfold handleIntersectionClick. by intros [-> | ->]. Qed.

Lemma handleIntersectionClick_locked st x y :
  drillPhase st = App.memorize ∨ drillPhase st = App.feedbackPhase →
  handleIntersectionClick st x y = st.
Proof. unfold handleIntersectionClick. by intros [-> | ->]. Qed.

Lemma handleIntersectionClick_frame st x y :
  handleIntersectionClick st x y =
    setStones (stones (handleIntersectionClick st x y)) st.
Proof.
  unfold handleIntersectionClick. destruct (drillPhase st); try done.
  all: by destruct st.
Qed.

(** A click on a board of the trainer is dropped, or is a call of
    [handleIntersectionClick] at a cell of the board. *)
Lemma boardClicked_inv st st' :
  0 < boardSize st → boardClicked st st' →
  st' = st ∨ ∃ c, onBoard (boardSize st) c ∧
                  st' = handleIntersectionClick st c.1 c.2.
Proof.
  intros Hsize Hc. revert Hsize.
  destruct Hc as [s x y|s x y|s i Hi]; intros Hsize.
  - unfold editorBoardClick, GoBoard.handleBoardClick.
    case_decide as Hon; [|by left]. right. by exists (x, y).
  - unfold drillBoardClick, GoBoard.handleBoardClick.
    destruct (match drillPhase s with
              | App.memorize | App.feedbackPhase => true | _ => false end);
      [by left|].
    case_decide as Hon; [|by left]. right. by exists (x, y).
  - unfold targetClick, GoBoard.handleTargetClick. right.
    exists (i `mod` boardSize s, i `div` boardSize s). split; [|done].
    unfold onBoard. cbn [fst snd].
    pose proof (Z.mod_pos_bound i (boardSize s) Hsize).
    assert (0 ≤ i `div` boardSize s) by (apply Z.div_pos; lia).
    assert (i `div` boardSize s < boardSize s)
      by (apply Z.div_lt_upper_bound; lia).
    lia.
Qed.

Lemma boardClicked_locked st st' :
  drillPhase st = App.memorize ∨ drillPhase st = App.feedbackPhase →
  boardClicked st st' → st' = st.
Proof.
  intros Hp Hc. revert Hp.
  destruct Hc as [s x y|s x y|s i Hi]; intros Hp.
  - unfold editorBoardClick, GoBoard.handleBoardClick.
    case_decide; [|done]. by apply handleIntersectionClick_locked.
  - unfold drillBoardClick, GoBoard.handleBoardClick.
    destruct (match drillPhase s with
              | App.memorize | App.feedbackPhase => true | _ => false end);
      [done|].
    case_decide; [|done]. by apply handleIntersectionClick_locked.
  - unfold targetClick, GoBoard.handleTargetClick.
    by apply handleIntersectionClick_locked.
Qed.

Lemma toggleStone_onBoard size c tool (prev : BoardState) :
  onBoard size c → onBoardPosition size prev →
  onBoardPosition size (toggleStone (keyOf c) tool prev).
Proof.
  intros Hc Hprev k [col Hk]. rewrite toggleStone_lookup in Hk.
  case_decide as Hkk; [subst k; by exists c|].
  apply Hprev. by exists col.
Qed.

Lemma drillTick_iter st (n : nat) :
  drillPhase st = App.memorize → 0 ≤ drillTimer st →
  (Z.of_nat n ≤ drillTimer st →
   Nat.iter n drillTick st =
     {| view := view st; mobileMenuOpen := mobileMenuOpen st;
        boardSize := boardSize st; stones := stones st;
        currentToolColor := currentToolColor st;
        savedShapes := savedShapes st; newShapeName := newShapeName st;
        drillPhase := App.memorize; drillTarget := drillTarget st;
        drillTimer := drillTimer st - Z.of_nat n;
        feedback := feedback st; selectedShapeId := selectedShapeId st |}) ∧
  (drillTimer st < Z.of_nat n →
   Nat.iter n drillTick st =
     {| view := view st; mobileMenuOpen := mobileMenuOpen st;
        boardSize := boardSize st; stones := ∅;
        currentToolColor := currentToolColor st;
        savedShapes := savedShapes st; newShapeName := newShapeName st;
        drillPhase := App.rebuild; drillTarget := drillTarget st;
        drillTimer := 0;
        feedback := feedback st; selectedShapeId := selectedShapeId st |}).
Proof.
  intros Hp Ht. induction n as [|n [IH1 IH2]].
  - split; [|lia]. intros _. change (Nat.iter 0 drillTick st) with st.
    rewrite Z.sub_0_r. destruct st; cbn in *. by subst.
  - split.
    + intros Hn. rewrite Nat.iter_succ, IH1 by lia.
      unfold drillTick. cbn [drillPhase drillTimer].
      rewrite decide_True by lia. cbn. f_equal. lia.
    + intros Hn. rewrite Nat.iter_succ.
      destruct (decide (drillTimer st < Z.of_nat n)) as [Hlt|Hge].
      * rewrite IH2 by done. done.
      * rewrite IH1 by lia. unfold drillTick. cbn [drillPhase drillTimer].
        rewrite decide_False by lia. rewrite decide_True by lia.
        cbn. f_equal. lia.
Qed.

End TrainerFacts.

(** X13. In the editor and while rebuilding, a click on a cell toggles it:
    an empty cell receives a stone of the selected color, an occupied cell is
    emptied, every other cell and every other state variable stays as it is.
    A second click on the same cell brings the board back exactly when the
    cell was empty or held a stone of the selected color. *)
Theorem editor_click_toggles st x y :
  Trainer.drillPhase st = App.idle ∨ Trainer.drillPhase st = App.rebuild →
  let st' := Trainer.handleIntersectionClick st x y in
  Trainer.stones st' !! key x y =
    match Trainer.stones st !! key x y with
    | Some _ => None
    | None => Some (Trainer.currentToolColor st)
    end ∧
  (∀ x' y', (x', y') ≠ (x, y) →
     Trainer.stones st' !! key x' y' = Trainer.stones st !! key x' y') ∧
  st' = Trainer.setStones (Trainer.stones st') st ∧
  (Trainer.stones (Trainer.handleIntersectionClick st' x y) = Trainer.stones st
   ↔ Trainer.stones st !! key x y = None
     ∨ Trainer.stones st !! key x y = Some (Trainer.currentToolColor st)).
Proof.
  intros Hp st'. unfold st'.
  rewrite (handleIntersectionClick_open st x y Hp).
  cbn [Trainer.stones Trainer.setStones]. split_and!.
  - by rewrite toggleStone_lookup, decide_True.
  - intros x' y' Hne. rewrite toggleStone_lookup, decide_False; [done|].
    intros Heq. apply Hne.
    by apply (inj keyOf (x', y') (x, y)).
  - done.
  - rewrite handleIntersectionClick_open by done.
    cbn [Trainer.stones Trainer.setStones Trainer.currentToolColor].
    apply toggleStone_twice.
Qed.

Lemma editor_click_toggles_witness :
  (Trainer.drillPhase Trainer.initialState = App.idle
   ∨ Trainer.drillPhase Trainer.initialState = App.rebuild) ∧
  Trainer.stones (Trainer.handleIntersectionClick Trainer.initialState 2 2)
    !! key 2 2 =
    match Trainer.stones Trainer.initialState !! key 2 2 with
    | Some _ => None
    | None => Some (Trainer.currentToolColor Trainer.initialState)
    end.
Proof.
  assert (Trainer.drillPhase Trainer.initialState = App.idle
          ∨ Trainer.drillPhase Trainer.initialState = App.rebuild) as Hp
    by (left; reflexivity).
  split; [exact Hp|].
  exact (proj1 (editor_click_toggles Trainer.initialState 2 2 Hp)).
Defined.

(** X14. A drill shows the shape for five seconds and then hides it: for
    five ticks of the timer after [startDrill] the board holds the stones of
    the shape, the phase is [memorize] and no click on a board changes
    anything; from the sixth tick on the phase is [rebuild] and the board is
    empty.  All along the target is the shape and the board has its size. *)
Theorem drill_memorize_then_rebuild shape st (n : nat) :
  let st' := Nat.iter n Trainer.drillTick (Trainer.startDrill shape st) in
  Trainer.view st' = Trainer.drill ∧
  Trainer.boardSize st' = Trainer.shape_size shape ∧
  Trainer.drillTarget st' = Some (Trainer.shape_stones shape) ∧
  Trainer.feedback st' = None ∧
  ((n ≤ 5)%nat →
     Trainer.drillPhase st' = App.memorize ∧
     Trainer.stones st' = Trainer.shape_stones shape ∧
     Trainer.drillTimer st' = 5 - Z.of_nat n ∧
     ∀ st'', boardClicked st' st'' → st'' = st') ∧
  ((5 < n)%nat →
     Trainer.drillPhase st' = App.rebuild ∧ Trainer.stones st' = ∅).
Proof.
  intros st'.
  destruct (drillTick_iter (Trainer.startDrill shape st) n) as [H1 H2];
    [done|done|].
  cbn [Trainer.startDrill Trainer.drillTimer] in H1, H2.
  destruct (decide (n ≤ 5)%nat) as [Hn|Hn].
  - assert (st' = _) as Hst by (apply H1; lia).
    assert (Trainer.drillPhase st' = App.memorize) as Hp by (by rewrite Hst).
    split_and!; try (by rewrite Hst); try lia.
    intros _. split_and!; try (by rewrite Hst).
    intros st'' Hc. apply (boardClicked_locked st' st''); [by left|done].
  - assert (st' = _) as Hst by (apply H2; lia).
    split_and!; try (by rewrite Hst); lia.
Qed.

Section TrainerBoards.
Import Trainer.

Lemma handleIntersectionClick_onBoard st c :
  onBoard (boardSize st) c → onBoardPosition (boardSize st) (stones st) →
  onBoardPosition (boardSize st)
    (stones (handleIntersectionClick st c.1 c.2)).
Proof.
  intros Hc Hst. unfold handleIntersectionClick.
  destruct (drillPhase st); try done.
  all: by apply (toggleStone_onBoard (boardSize st) c).
Qed.

Lemma setStones_setStones b1 b2 st :
  setStones b1 (setStones b2 st) = setStones b1 st.
Proof. done. Qed.

Lemma boardClicked_rtc_inv st st' :
  rtc boardClicked st st' →
  0 < boardSize st → onBoardPosition (boardSize st) (stones st) →
  onBoardPosition (boardSize st') (stones st') ∧
  st' = setStones (stones st') st.
Proof.
  induction 1 as [st|st st1 st2 Hstep Hrtc IH]; intros Hsize Hon.
  - split; [done|]. by destruct st.
  - assert (onBoardPosition (boardSize st) (stones st1)
            ∧ st1 = setStones (stones st1) st) as [Hon1 Hst1].
    { destruct (boardClicked_inv st st1 Hsize Hstep) as [->|[c [Hc ->]]].
      - split; [done|]. by destruct st.
      - split; [by apply handleIntersectionClick_onBoard|].
        apply handleIntersectionClick_frame. }
    assert (boardSize st1 = boardSize st) as Hb by (by rewrite Hst1).
    destruct IH as [Hon2 Hst2]; [by rewrite Hb|by rewrite Hb|].
    split; [done|]. rewrite Hst2 at 1. rewrite Hst1.
    apply setStones_setStones.
Qed.

Lemma boardClicked_rtc_locked st st' :
  drillPhase st = App.memorize ∨ drillPhase st = App.feedbackPhase →
  rtc boardClicked st st' → st' = st.
Proof.
  intros Hp Hrtc. induction Hrtc as [st|st st1 st2 Hstep Hrtc IH]; [done|].
  pose proof (boardClicked_locked st st1 Hp Hstep) as ->. by apply IH.
Qed.

Lemma list_find_filter {A} (P Q : A → Prop) `{!∀ x, Decision (P x)}
    `{!∀ x, Decision (Q x)} (l : list A) :
  (∀ x, P x → Q x) →
  snd <$> list_find P (filter Q l) = snd <$> list_find P l.
Proof.
  intros HPQ. induction l as [|x l IH]; [done|].
  rewrite filter_cons. destruct (decide (Q x)) as [Hq|Hq].
  - cbn [list_find]. destruct (decide (P x)); [done|].
    destruct (list_find P (filter Q l)) as [[i a]|],
      (list_find P l) as [[j b]|]; simpl in *; congruence.
  - cbn [list_find]. destruct (decide (P x)) as [Hp|Hp]; [by destruct Hq; auto|].
    rewrite IH. by destruct (list_find P l) as [[j b]|].
Qed.

End TrainerBoards.

(** X15. Whatever boards of the trainer the user clicks, through the board
    itself or through its interaction targets, only the stones change, and
    every stone stays on the board. *)
Theorem trainer_clicks_stay_on_board st st' :
  rtc boardClicked st st' →
  0 < Trainer.boardSize st →
  onBoardPosition (Trainer.boardSize st) (Trainer.stones st) →
  onBoardPosition (Trainer.boardSize st') (Trainer.stones st') ∧
  st' = Trainer.setStones (Trainer.stones st') st.
Proof. apply boardClicked_rtc_inv. Qed.

Lemma trainer_clicks_stay_on_board_witness :
  rtc boardClicked Trainer.initialState
    (Trainer.editorBoardClick 2 2 Trainer.initialState) ∧
  0 < Trainer.boardSize Trainer.initialState ∧
  onBoardPosition (Trainer.boardSize Trainer.initialState)
    (Trainer.stones Trainer.initialState) ∧
  onBoardPosition
    (Trainer.boardSize (Trainer.editorBoardClick 2 2 Trainer.initialState))
    (Trainer.stones (Trainer.editorBoardClick 2 2 Trainer.initialState)) ∧
  Trainer.editorBoardClick 2 2 Trainer.initialState =
    Trainer.setStones
      (Trainer.stones (Trainer.editorBoardClick 2 2 Trainer.initialState))
      Trainer.initialState.
Proof.
  assert (rtc boardClicked Trainer.initialState
            (Trainer.editorBoardClick 2 2 Trainer.initialState)) as Hc
    by (apply rtc_once, clicked_editor).
  assert (0 < Trainer.boardSize Trainer.initialState) as Hs
    by (simpl; lia).
  assert (onBoardPosition (Trainer.boardSize Trainer.initialState)
            (Trainer.stones Trainer.initialState)) as Hon.
  { intros k [c Hk]. simpl in Hk. by rewrite lookup_empty in Hk. }
  split; [exact Hc|]. split; [exact Hs|]. split; [exact Hon|].
  exact (trainer_clicks_stay_on_board _ _ Hc Hs Hon).
Defined.

(** X16. Checking a drill compares the board with the target and locks the
    board: the phase becomes [feedback], the feedback is the diff of the
    target and the board, board and target are kept, no click on a board
    changes anything afterwards, and a second check changes nothing. *)
Theorem drill_check_locks st target :
  Trainer.drillTarget st = Some target →
  let st' := Trainer.checkDrill st in
  Trainer.drillPhase st' = App.feedbackPhase ∧
  Trainer.feedback st' = Some (App.diff target (Trainer.stones st)) ∧
  Trainer.stones st' = Trainer.stones st ∧
  Trainer.drillTarget st' = Some target ∧
  drillOf st' = App.checkDrill (drillOf st) ∧
  (∀ st'', rtc boardClicked st' st'' → st'' = st') ∧
  Trainer.checkDrill st' = st'.
Proof.
  intros Ht st'. unfold st', Trainer.checkDrill. rewrite Ht.
  cbn [Trainer.drillPhase Trainer.feedback Trainer.stones
       Trainer.drillTarget].
  split_and!; try done.
  - unfold App.checkDrill, drillOf. cbn. by rewrite Ht.
  - intros st'' Hc. revert Hc. apply boardClicked_rtc_locked. by right.
Qed.

Lemma drill_check_locks_witness :
  Trainer.drillTarget rebuildState
    = Some (Trainer.shape_stones cornerShape) ∧
  Trainer.feedback (Trainer.checkDrill rebuildState)
    = Some (App.diff (Trainer.shape_stones cornerShape)
              (Trainer.stones rebuildState)).
Proof.
  assert (Trainer.drillTarget rebuildState
          = Some (Trainer.shape_stones cornerShape)) as Ht
    by (vm_compute; reflexivity).
  split; [exact Ht|].
  exact (proj1 (proj2 (drill_check_locks rebuildState _ Ht))).
Defined.

(** X17. Deleting a shape from the library, once confirmed, removes the
    shapes of that id and no other, stores the new library, and changes no
    state variable but the library and the selection.  When the deleted shape
    is the selected one, the selection is cleared and a retry does nothing;
    otherwise the selection is kept and the deletion commutes with a retry of
    the drill.  A deletion that is not confirmed changes nothing. *)
Theorem retry_after_delete stringify id st storage :
  let w' := Trainer.deleteShape stringify true id (st, storage) in
  (∀ s, s ∈ Trainer.savedShapes w'.1 ↔
        s ∈ Trainer.savedShapes st ∧ Trainer.shape_id s ≠ id) ∧
  w'.2 !! Storage.SHAPES_KEY = Some (stringify (Trainer.savedShapes w'.1)) ∧
  (Trainer.selectedShapeId st = id →
     Trainer.selectedShapeId w'.1 = "" ∧ Trainer.retryDrill w'.1 = w'.1) ∧
  (Trainer.selectedShapeId st ≠ id →
     Trainer.selectedShapeId w'.1 = Trainer.selectedShapeId st ∧
     Trainer.retryDrill w'.1 =
       (Trainer.deleteShape stringify true id
          (Trainer.retryDrill st, storage)).1) ∧
  w'.1 =
    Trainer.setSelectedShapeId (Trainer.selectedShapeId w'.1)
      (Trainer.setSavedShapes (Trainer.savedShapes w'.1) st) ∧
  Trainer.deleteShape stringify false id (st, storage) = (st, storage).
Proof.
  intros w'. unfold w', Trainer.deleteShape. cbn [fst snd].
  split_and!.
  - intros s. cbn [Trainer.savedShapes]. rewrite list_elem_of_filter. tauto.
  - cbn [Trainer.savedShapes]. unfold Storage.saveShapes, Storage.save.
    apply lookup_insert_eq.
  - intros Hsel. split.
    { cbn [Trainer.selectedShapeId]. by rewrite (decide_True _ _ Hsel). }
    unfold Trainer.retryDrill at 1.
    cbn [Trainer.selectedShapeId]. rewrite (decide_True _ _ Hsel).
    by rewrite decide_True.
  - intros Hsel. split.
    { cbn [Trainer.selectedShapeId]. by rewrite (decide_False _ _ Hsel). }
    unfold Trainer.retryDrill.
    cbn [Trainer.selectedShapeId Trainer.savedShapes].
    rewrite (decide_False _ _ Hsel).
    destruct (decide (Trainer.selectedShapeId st = "")) as [He|He].
    + cbn. by rewrite decide_False.
    + pose proof (list_find_filter
        (λ s, Trainer.shape_id s = Trainer.selectedShapeId st)
        (λ s, Trainer.shape_id s ≠ id) (Trainer.savedShapes st)) as Hf.
      destruct (list_find _ (filter _ _)) as [[i a]|],
        (list_find _ (Trainer.savedShapes st)) as [[j b]|];
        cbn in Hf.
      * assert (a = b) as -> by (assert (Some a = Some b) by (apply Hf; congruence); congruence).
        cbn. by rewrite decide_False.
      * assert (Some a = None) by (apply Hf; congruence). done.
      * assert (None = Some b) by (apply Hf; congruence). done.
      * cbn. by rewrite decide_False.
  - done.
  - done.
Qed.

(** ** Storage *)

Section StorageFacts.
Import Storage.

Lemma load_save {A} KEY (parse : string → option (list A)) stringify v storage :
  codecFor parse stringify v →
  load KEY parse (save KEY stringify v storage) = v.
Proof.
  intros [Hp Hne]. unfold load, save. rewrite lookup_insert_eq.
  rewrite decide_False by done. by rewrite Hp.
Qed.

Lemma load_save_ne {A B} KEY KEY' (parse : string → option (list B))
    (stringify : list A → string) v storage :
  KEY' ≠ KEY →
  load KEY' parse (save KEY stringify v storage) = load KEY' parse storage.
Proof.
  intros Hne. unfold load, save. by rewrite lookup_insert_ne.
Qed.

Lemma migrate_idem log : Viewer.migrate (Viewer.migrate log) = Viewer.migrate log.
Proof.
  unfold Viewer.migrate. cbn. f_equal.
  - unfold Viewer.orElse. repeat case_decide; congruence.
  - unfold Viewer.orElse. repeat case_decide; congruence.
Qed.

Lemma migrated_handleSubmit now today form rec log form' rec' :
  Viewer.handleSubmit now today form rec = (Some log, form', rec') →
  migrated log.
Proof.
  unfold Viewer.handleSubmit. case_decide; [done|].
  intros [= <- _ _]. unfold migrated, Viewer.migrate. cbn. f_equal.
  - unfold Viewer.orElse. repeat case_decide; congruence.
  - unfold Viewer.orElse. repeat case_decide; congruence.
Qed.

End StorageFacts.

(** X18. What is saved under a key is what is loaded from it afterwards,
    for any value that [JSON.parse] reads back from its [JSON.stringify]. *)
Theorem load_after_save {A} KEY (parse : string → option (list A))
    stringify v storage :
  codecFor parse stringify v →
  Storage.load KEY parse (Storage.save KEY stringify v storage) = v.
Proof. apply load_save. Qed.

Lemma load_after_save_witness :
  codecFor (λ _, Some [1; 2]) (λ _ : list Z, "[1,2]") [1; 2] ∧
  Storage.load Storage.LOGS_KEY (λ _, Some [1; 2])
    (Storage.save Storage.LOGS_KEY (λ _ : list Z, "[1,2]") [1; 2] ∅)
  = [1; 2].
Proof.
  assert (codecFor (λ _, Some [1; 2]) (λ _ : list Z, "[1,2]") [1; 2]) as Hc
    by (split; [reflexivity|discriminate]).
  split; [exact Hc|].
  exact (load_after_save Storage.LOGS_KEY _ _ _ ∅ Hc).
Defined.

(** X19. The shapes and the logs are stored apart: saving the one never
    changes what is loaded for the other.  And loading never fails: an entry
    that is absent, empty or unreadable loads as the empty list. *)
Theorem shapes_and_logs_stored_apart {A B}
    (parseA : string → option (list A)) (parseB : string → option (list B))
    (stringifyA : list A → string) (stringifyB : list B → string)
    shapes logs storage :
  Storage.loadLogs parseB (Storage.saveShapes stringifyA shapes storage)
    = Storage.loadLogs parseB storage ∧
  Storage.loadShapes parseA (Storage.saveLogs stringifyB logs storage)
    = Storage.loadShapes parseA storage ∧
  (parseA (stringifyA shapes) = None ∨ stringifyA shapes = "" →
   Storage.loadShapes parseA (Storage.saveShapes stringifyA shapes storage)
     = []) ∧
  (parseB (stringifyB logs) = None ∨ stringifyB logs = "" →
   Storage.loadLogs parseB (Storage.saveLogs stringifyB logs storage) = []) ∧
  Storage.loadShapes parseA ∅ = [] ∧ Storage.loadLogs parseB ∅ = [].
Proof.
  split_and!.
  - by apply load_save_ne.
  - by apply load_save_ne.
  - intros H. unfold Storage.loadShapes, Storage.saveShapes, Storage.load,
      Storage.save. rewrite lookup_insert_eq.
    case_decide; [done|]. destruct H as [-> | ?]; done.
  - intros H. unfold Storage.loadLogs, Storage.saveLogs, Storage.load,
      Storage.save. rewrite lookup_insert_eq.
    case_decide; [done|]. destruct H as [-> | ?]; done.
  - done.
  - done.
Qed.

(** X20. A shape saved under a name that is not blank is appended to the
    library with the board and the size of the editor, and is there after a
    reload; a drill of it shows the board that was saved.  The logs in
    storage are not touched. *)
Theorem saved_shape_survives_reload trim stringify parse now1 now2 st storage :
  trim (Trainer.newShapeName st) ≠ "" →
  codecFor parse stringify
    (Trainer.savedShapes
       (Trainer.saveShape trim stringify now1 now2 (st, storage)).1) →
  let w' := Trainer.saveShape trim stringify now1 now2 (st, storage) in
  Storage.loadShapes parse w'.2 = Trainer.savedShapes w'.1 ∧
  (∃ shape,
     Trainer.savedShapes w'.1 = Trainer.savedShapes st ++ [shape] ∧
     Trainer.shape_name shape = Trainer.newShapeName st ∧
     Trainer.stones (Trainer.startDrill shape w'.1) = Trainer.stones st ∧
     Trainer.boardSize (Trainer.startDrill shape w'.1)
       = Trainer.boardSize st) ∧
  Trainer.newShapeName w'.1 = "" ∧
  (∀ B (p : string → option (list B)),
     Storage.loadLogs p w'.2 = Storage.loadLogs p storage).
Proof.
  unfold Trainer.saveShape. cbn [fst snd]. intros Hname.
  rewrite (decide_False _ _ Hname). cbn [fst snd Trainer.savedShapes].
  intros Hc. split_and!.
  - by apply load_save.
  - eexists. split; [done|]. done.
  - done.
  - intros B p. by apply load_save_ne.
Qed.

Lemma saved_shape_survives_reload_witness :
  (λ s : string, s) (Trainer.newShapeName tengenEditor) ≠ "" ∧
  codecFor (λ _, Some [tengenShape]) (λ _, "[tengen]")
    (Trainer.savedShapes
       (Trainer.saveShape (λ s, s) (λ _, "[tengen]") 7 8
          (tengenEditor, ∅)).1) ∧
  Storage.loadShapes (λ _, Some [tengenShape])
    (Trainer.saveShape (λ s, s) (λ _, "[tengen]") 7 8 (tengenEditor, ∅)).2
  = Trainer.savedShapes
      (Trainer.saveShape (λ s, s) (λ _, "[tengen]") 7 8 (tengenEditor, ∅)).1.
Proof.
  assert ((λ s : string, s) (Trainer.newShapeName tengenEditor) ≠ "") as Hn
    by discriminate.
  assert (codecFor (λ _, Some [tengenShape]) (λ _, "[tengen]")
            (Trainer.savedShapes
               (Trainer.saveShape (λ s, s) (λ _, "[tengen]") 7 8
                  (tengenEditor, ∅)).1)) as Hc
    by (split; [reflexivity|discriminate]).
  split; [exact Hn|]. split; [exact Hc|].
  exact (proj1 (saved_shape_survives_reload (λ s, s) (λ _, "[tengen]")
                  (λ _, Some [tengenShape]) 7 8 tengenEditor ∅ Hn Hc)).
Defined.

(** X21. A record submitted from the form is there after a reload: the
    migration that [App] applies to the logs it loads leaves the submitted
    record, and every record already migrated, as it is. *)
Theorem logs_survive_reload parse stringify now today form rec
    log form' rec' logs storage :
  Forall migrated logs →
  Viewer.handleSubmit now today form rec = (Some log, form', rec') →
  codecFor parse stringify (Viewer.addLog stringify log (logs, storage)).1 →
  let w' := Viewer.addLog stringify log (logs, storage) in
  Viewer.initialLogs parse w'.2 = w'.1 ∧
  w'.1 = logs ++ [log] ∧
  Forall migrated w'.1.
Proof.
  intros Hlogs Hsub Hc w'.
  assert (Forall migrated w'.1) as Hall.
  { unfold w', Viewer.addLog. cbn [fst]. apply Forall_app. split; [done|].
    apply Forall_singleton. by eapply migrated_handleSubmit. }
  split_and!; [|done|done].
  unfold Viewer.initialLogs, Storage.loadLogs.
  unfold w' at 1, Viewer.addLog at 1. cbn [snd fst].
  unfold Storage.saveLogs. rewrite load_save by exact Hc.
  change (logs ++ [log]) with w'.1.
  induction Hall as [|l ls Hl _ IH]; [done|].
  rewrite fmap_cons. by rewrite Hl, IH.
Qed.

Lemma logs_survive_reload_witness :
  Forall migrated [] ∧
  Viewer.handleSubmit 1700000000000 "2024-02-02" exampleForm capturedState
    = (Some exampleRecord,
       Viewer.mkForm false "2024-02-02" "" "" 9 "" "",
       GameLog.resetRecorder) ∧
  codecFor (λ _, Some [exampleRecord]) (λ _, "[record]")
    (Viewer.addLog (λ _, "[record]") exampleRecord ([], ∅)).1 ∧
  Viewer.initialLogs (λ _, Some [exampleRecord])
    (Viewer.addLog (λ _, "[record]") exampleRecord ([], ∅)).2
  = (Viewer.addLog (λ _, "[record]") exampleRecord ([], ∅)).1.
Proof.
  assert (Forall migrated []) as Hl by constructor.
  assert (Viewer.handleSubmit 1700000000000 "2024-02-02" exampleForm
            capturedState
          = (Some exampleRecord,
             Viewer.mkForm false "2024-02-02" "" "" 9 "" "",
             GameLog.resetRecorder)) as Hs by (vm_compute; reflexivity).
  assert (codecFor (λ _, Some [exampleRecord]) (λ _, "[record]")
            (Viewer.addLog (λ _, "[record]") exampleRecord ([], ∅)).1) as Hc
    by (split; [reflexivity|discriminate]).
  split; [exact Hl|]. split; [exact Hs|]. split; [exact Hc|].
  exact (proj1 (logs_survive_reload (λ _, Some [exampleRecord])
                  (λ _, "[record]") _ _ _ _ _ _ _ [] ∅ Hl Hs Hc)).
Defined.

(** X22. The migration of the logs gives every record a name for both
    players, keeps every other field, and is idempotent; the logs of [App]
    after its initialization are all migrated, whatever the storage holds.  A
    legacy record takes the name of White from its [opponent] field. *)
Theorem migrate_idempotent parse storage log :
  Viewer.migrate (Viewer.migrate log) = Viewer.migrate log ∧
  Viewer.gr_blackPlayer (Viewer.migrate log) ≠ "" ∧
  Viewer.gr_whitePlayer (Viewer.migrate log) ≠ "" ∧
  (Viewer.gr_blackPlayer log ≠ "" →
   Viewer.gr_blackPlayer (Viewer.migrate log) = Viewer.gr_blackPlayer log) ∧
  (Viewer.gr_whitePlayer log ≠ "" →
   Viewer.gr_whitePlayer (Viewer.migrate log) = Viewer.gr_whitePlayer log) ∧
  (∀ name, Viewer.gr_whitePlayer log = "" →
     Viewer.gr_opponent log = Some name → name ≠ "" →
     Viewer.gr_whitePlayer (Viewer.migrate log) = name) ∧
  Viewer.gr_moves (Viewer.migrate log) = Viewer.gr_moves log ∧
  Viewer.gr_finalStones (Viewer.migrate log) = Viewer.gr_finalStones log ∧
  Viewer.gr_captures (Viewer.migrate log) = Viewer.gr_captures log ∧
  Viewer.gr_size (Viewer.migrate log) = Viewer.gr_size log ∧
  Viewer.gr_id (Viewer.migrate log) = Viewer.gr_id log ∧
  Viewer.gr_date (Viewer.migrate log) = Viewer.gr_date log ∧
  Viewer.gr_result (Viewer.migrate log) = Viewer.gr_result log ∧
  Viewer.gr_notes (Viewer.migrate log) = Viewer.gr_notes log ∧
  Forall migrated (Viewer.initialLogs parse storage).
Proof.
  split_and!.
  - apply migrate_idem.
  - cbn. unfold Viewer.orElse. by case_decide.
  - cbn. unfold Viewer.orElse. by repeat case_decide.
  - intros H. cbn. unfold Viewer.orElse. by rewrite decide_False.
  - intros H. cbn. unfold Viewer.orElse. by rewrite decide_False.
  - intros name Hw Ho Hn. cbn. unfold Viewer.orElse. rewrite Hw, Ho. cbn.
    rewrite decide_True by done. by rewrite decide_False.
  - done.
  - done.
  - done.
  - done.
  - done.
  - done.
  - done.
  - done.
  - unfold Viewer.initialLogs. apply Forall_fmap, Forall_forall.
    intros l _. apply migrate_idem.
Qed.

(** ** The replay viewer *)

Section ViewerFacts.
Import Viewer.

Lemma showZ_nonempty n : showZ n ≠ "".
Proof.
  unfold showZ. destruct (Z.to_int n) as [d|d]; [|done].
  by destruct d.
Qed.

Lemma handleSubmit_Some now today form rec log form' rec' :
  handleSubmit now today form rec = (Some log, form', rec') →
  gr_id log = showZ now ∧ gr_size log = size form ∧
  gr_moves log = Some (GameLog.moves rec) ∧
  gr_finalStones log = GameLog.board rec ∧
  gr_captures log = GameLog.captures rec ∧
  rec' = GameLog.resetRecorder ∧
  ¬ (blackPlayer form = "" ∧ whitePlayer form = "").
Proof.
  unfold handleSubmit. case_decide as Hn; [done|].
  by intros [= <- _ <-].
Qed.

Lemma slice0_take {A} (l : list A) (i : nat) :
  slice0 l (Z.of_nat i - 1 + 1) = take i l.
Proof.
  unfold slice0. rewrite decide_False by lia. f_equal. lia.
Qed.

(** The replay of the first [i] moves of a recorder reached by accepted
    clicks is the recorder after the first [i] clicks. *)
Lemma live_prefix size clicks st (i : nat) :
  live size clicks = Some st → (i ≤ length clicks)%nat →
  ∃ st_i, live size (take i clicks) = Some st_i ∧
          GameLog.moves st_i = take i (GameLog.moves st) ∧
          GameLog.replayGame (take i (GameLog.moves st)) size
            = (GameLog.board st_i, GameLog.captures st_i).
Proof.
  intros Hl Hi. rewrite <- (take_drop i clicks) in Hl.
  destruct (live_app size _ _ _ Hl) as [st_i [Hli [Hm _]]].
  rewrite length_take, Nat.min_l in Hm by done.
  exists st_i. split; [done|]. split; [done|].
  rewrite Hm. apply (rec_replay size st_i).
  by destruct (live_recorded size _ _ Hli).
Qed.

Lemma currentReplayState_at logs r log clicks st (i : nat) :
  live (gr_size log) clicks = Some st →
  gr_moves log = Some (GameLog.moves st) →
  gr_id log ≠ "" →
  findLog logs (gr_id log) = Some log →
  expandedLogId r = Some (gr_id log) →
  replayMoveIndex r = Z.of_nat i - 1 →
  (i ≤ length clicks)%nat →
  ∃ st_i, live (gr_size log) (take i clicks) = Some st_i ∧
          currentReplayState logs r = Some (viewOf st_i).
Proof.
  intros Hl Hm Hid Hf He Hidx Hi.
  destruct (live_prefix _ _ _ i Hl Hi) as [st_i [Hli [Hmi Hr]]].
  exists st_i. split; [done|].
  unfold currentReplayState. rewrite He, (decide_False _ _ Hid), Hf, Hm, Hidx.
  rewrite slice0_take, Hr. unfold viewOf. cbn [fst snd]. by rewrite Hmi.
Qed.

Lemma controlled_range logs n id log moveList r r' :
  findLog logs id = Some log → gr_moves log = Some moveList →
  n = length moveList →
  expandedLogId r = Some id →
  -1 ≤ replayMoveIndex r ≤ Z.of_nat n - 1 →
  controlled logs n r r' →
  expandedLogId r' = Some id ∧ -1 ≤ replayMoveIndex r' ≤ Z.of_nat n - 1.
Proof.
  intros Hf Hm Hn He Hr Hc. revert He Hr.
  destruct Hc as [r|r|r|r|r|r]; intros He Hr; cbn; try (split; [done|lia]).
  unfold autoTick. rewrite He.
  destruct (negb (replayAuto r) || bool_decide (id = "")); [done|].
  rewrite Hf, Hm. case_decide; cbn; (split; [done|lia]).
Qed.

Lemma controlled_rtc_range logs n id log moveList r r' :
  findLog logs id = Some log → gr_moves log = Some moveList →
  n = length moveList →
  expandedLogId r = Some id →
  -1 ≤ replayMoveIndex r ≤ Z.of_nat n - 1 →
  rtc (controlled logs n) r r' →
  expandedLogId r' = Some id ∧ -1 ≤ replayMoveIndex r' ≤ Z.of_nat n - 1.
Proof.
  intros Hf Hm Hn He Hr Hc. revert He Hr.
  induction Hc as [r|r r1 r2 Hstep Hrtc IH]; intros He Hr; [done|].
  destruct (controlled_range _ _ _ _ _ _ _ Hf Hm Hn He Hr Hstep) as [He1 Hr1].
  by apply IH.
Qed.

Lemma autoTick_iter logs id log moveList r (k : nat) :
  expandedLogId r = Some id → id ≠ "" →
  findLog logs id = Some log → gr_moves log = Some moveList →
  replayAuto r = true →
  replayMoveIndex r ≤ Z.of_nat (length moveList) - 1 →
  (replayMoveIndex r + Z.of_nat k ≤ Z.of_nat (length moveList) - 1 →
   Nat.iter k (autoTick logs) r =
     {| expandedLogId := Some id;
        replayMoveIndex := replayMoveIndex r + Z.of_nat k;
        replayAuto := true |}) ∧
  (Z.of_nat (length moveList) - 1 < replayMoveIndex r + Z.of_nat k →
   Nat.iter k (autoTick logs) r =
     {| expandedLogId := Some id;
        replayMoveIndex := Z.of_nat (length moveList) - 1;
        replayAuto := false |}).
Proof.
  intros He Hid Hf Hm Ha Hr. induction k as [|k [IH1 IH2]].
  - split; [|lia]. intros _. change (Nat.iter 0 (autoTick logs) r) with r.
    rewrite Z.add_0_r. destruct r; cbn in *. by subst.
  - split.
    + intros Hk. rewrite Nat.iter_succ, IH1 by lia.
      unfold autoTick. cbn [expandedLogId replayAuto replayMoveIndex negb orb].
      rewrite bool_decide_eq_false_2 by done. rewrite Hf, Hm.
      rewrite decide_True by lia. f_equal. lia.
    + intros Hk. rewrite Nat.iter_succ.
      destruct (decide (Z.of_nat (length moveList) - 1
                        < replayMoveIndex r + Z.of_nat k)) as [Hlt|Hge].
      * rewrite IH2 by done. done.
      * rewrite IH1 by lia. unfold autoTick.
        cbn [expandedLogId replayAuto replayMoveIndex negb orb].
        rewrite bool_decide_eq_false_2 by done. rewrite Hf, Hm.
        rewrite decide_False by lia. f_equal. lia.
Qed.

End ViewerFacts.

(** X23. The viewer shows the game as it was played.  For a record
    submitted from a recorder that was reached by accepted clicks, the viewer
    at the index [i - 1] shows the board, the tally and the last move of the
    recorder after the first [i] clicks; at the last index these are the
    final stones and the captures stored in the record. *)
Theorem replay_view_is_history clicks st now today form log form' rec'
    logs r (i : nat) :
  live (Viewer.size form) clicks = Some st →
  Viewer.handleSubmit now today form st = (Some log, form', rec') →
  Viewer.findLog logs (Viewer.gr_id log) = Some log →
  Viewer.expandedLogId r = Some (Viewer.gr_id log) →
  Viewer.replayMoveIndex r = Z.of_nat i - 1 →
  (i ≤ length clicks)%nat →
  ∃ st_i,
    live (Viewer.size form) (take i clicks) = Some st_i ∧
    Viewer.currentReplayState logs r = Some (viewOf st_i) ∧
    (i = length clicks →
     GameLog.board st_i = Viewer.gr_finalStones log ∧
     GameLog.captures st_i = Viewer.gr_captures log).
Proof.
  intros Hl Hs Hf He Hidx Hi.
  destruct (handleSubmit_Some _ _ _ _ _ _ _ Hs)
    as [Hid [Hsize [Hm [Hfin [Hcap _]]]]].
  rewrite <- Hsize in Hl |- *.
  destruct (currentReplayState_at logs r log clicks st i) as [st_i [Hli Hv]];
    try done.
  { rewrite Hid. apply showZ_nonempty. }
  exists st_i. split; [done|]. split; [done|].
  intros ->. rewrite firstn_all in Hli.
  assert (st_i = st) as -> by congruence. by rewrite Hfin, Hcap.
Qed.

Lemma replay_view_is_history_witness :
  live (Viewer.size exampleForm) (atariClicks ++ [(0, 1)])
    = Some capturedState ∧
  Viewer.handleSubmit 1700000000000 "2024-02-02" exampleForm capturedState
    = (Some exampleRecord,
       Viewer.mkForm false "2024-02-02" "" "" 9 "" "",
       GameLog.resetRecorder) ∧
  Viewer.findLog [exampleRecord] (Viewer.gr_id exampleRecord)
    = Some exampleRecord ∧
  Viewer.expandedLogId exampleReplay = Some (Viewer.gr_id exampleRecord) ∧
  Viewer.replayMoveIndex exampleReplay = Z.of_nat 2 - 1 ∧
  (2 ≤ length (atariClicks ++ [(0%Z, 1%Z)]))%nat ∧
  ∃ st_i,
    live (Viewer.size exampleForm) (take 2 (atariClicks ++ [(0, 1)]))
      = Some st_i ∧
    Viewer.currentReplayState [exampleRecord] exampleReplay
      = Some (viewOf st_i) ∧
    (2%nat = length (atariClicks ++ [(0, 1)]) →
     GameLog.board st_i = Viewer.gr_finalStones exampleRecord ∧
     GameLog.captures st_i = Viewer.gr_captures exampleRecord).
Proof.
  assert (live (Viewer.size exampleForm) (atariClicks ++ [(0, 1)])
          = Some capturedState) as Hl by (vm_compute; reflexivity).
  assert (Viewer.handleSubmit 1700000000000 "2024-02-02" exampleForm
            capturedState
          = (Some exampleRecord,
             Viewer.mkForm false "2024-02-02" "" "" 9 "" "",
             GameLog.resetRecorder)) as Hs by (vm_compute; reflexivity).
  assert (Viewer.findLog [exampleRecord] (Viewer.gr_id exampleRecord)
          = Some exampleRecord) as Hf by (vm_compute; reflexivity).
  assert (Viewer.expandedLogId exampleReplay
          = Some (Viewer.gr_id exampleRecord)) as He by reflexivity.
  assert (Viewer.replayMoveIndex exampleReplay = Z.of_nat 2 - 1) as Hi
    by reflexivity.
  assert (2 ≤ length (atariClicks ++ [(0%Z, 1%Z)]))%nat as Hn
    by (vm_compute; lia).
  split; [exact Hl|]. split; [exact Hs|]. split; [exact Hf|].
  split; [exact He|]. split; [exact Hi|]. split; [exact Hn|].
  exact (replay_view_is_history _ _ _ _ _ _ _ _ _ _ 2 Hl Hs Hf He Hi Hn).
Defined.

(** X24. Whatever replay controls are pressed after a log is opened, and
    however often the auto-play fires, the move index stays within the game,
    from the empty board to the last move, and the viewer shows the position
    after that many of the clicks that were recorded.  Opening the log shows
    its last move. *)
Theorem replay_controls_show_a_prefix clicks st now today form log form'
    rec' logs r0 r' :
  live (Viewer.size form) clicks = Some st →
  Viewer.handleSubmit now today form st = (Some log, form', rec') →
  Viewer.findLog logs (Viewer.gr_id log) = Some log →
  Viewer.expandedLogId r0 ≠ Some (Viewer.gr_id log) →
  rtc (controlled logs (length clicks)) (Viewer.toggleLog log r0) r' →
  Viewer.replayMoveIndex (Viewer.toggleLog log r0)
    = Z.of_nat (length clicks) - 1 ∧
  Viewer.gr_moves log = Some (GameLog.moves st) ∧
  length (GameLog.moves st) = length clicks ∧
  ∃ (i : nat) st_i,
    (i ≤ length clicks)%nat ∧
    Viewer.replayMoveIndex r' = Z.of_nat i - 1 ∧
    live (Viewer.size form) (take i clicks) = Some st_i ∧
    Viewer.currentReplayState logs r' = Some (viewOf st_i).
Proof.
  intros Hl Hs Hf He Hc.
  destruct (handleSubmit_Some _ _ _ _ _ _ _ Hs)
    as [Hid [Hsize [Hm [Hfin [Hcap _]]]]].
  assert (length (GameLog.moves st) = length clicks) as Hlen.
  { destruct (live_recorded _ _ _ Hl) as [_ <-]. by rewrite length_fmap. }
  assert (Viewer.replayMoveIndex (Viewer.toggleLog log r0)
          = Z.of_nat (length clicks) - 1) as Hidx.
  { unfold Viewer.toggleLog. rewrite (decide_True _ _ He).
    cbn [Viewer.replayMoveIndex]. by rewrite Hm, Hlen. }
  assert (Viewer.expandedLogId (Viewer.toggleLog log r0)
          = Some (Viewer.gr_id log)) as Hexp.
  { unfold Viewer.toggleLog. by rewrite (decide_True _ _ He). }
  split; [done|]. split; [done|]. split; [done|].
  destruct (controlled_rtc_range logs (length clicks) (Viewer.gr_id log) log
              (GameLog.moves st) _ r' Hf Hm (eq_sym Hlen) Hexp)
    as [He' Hr']; [lia|done|].
  exists (Z.to_nat (Viewer.replayMoveIndex r' + 1)).
  rewrite <- Hsize in Hl |- *.
  destruct (currentReplayState_at logs r' log clicks st
              (Z.to_nat (Viewer.replayMoveIndex r' + 1)))
    as [st_i [Hli Hv]]; try done; try lia.
  { rewrite Hid. apply showZ_nonempty. }
  exists st_i. split_and!; try done; lia.
Qed.

Lemma replay_controls_show_a_prefix_witness :
  live (Viewer.size exampleForm) (atariClicks ++ [(0, 1)])
    = Some capturedState ∧
  Viewer.handleSubmit 1700000000000 "2024-02-02" exampleForm capturedState
    = (Some exampleRecord,
       Viewer.mkForm false "2024-02-02" "" "" 9 "" "",
       GameLog.resetRecorder) ∧
  Viewer.findLog [exampleRecord] (Viewer.gr_id exampleRecord)
    = Some exampleRecord ∧
  Viewer.expandedLogId Viewer.initialReplay
    ≠ Some (Viewer.gr_id exampleRecord) ∧
  rtc (controlled [exampleRecord] (length (atariClicks ++ [(0, 1)])))
    (Viewer.toggleLog exampleRecord Viewer.initialReplay)
    (Viewer.stepBack (Viewer.toggleLog exampleRecord Viewer.initialReplay)) ∧
  Viewer.replayMoveIndex (Viewer.toggleLog exampleRecord Viewer.initialReplay)
    = Z.of_nat (length (atariClicks ++ [(0, 1)])) - 1.
Proof.
  assert (live (Viewer.size exampleForm) (atariClicks ++ [(0, 1)])
          = Some capturedState) as Hl by (vm_compute; reflexivity).
  assert (Viewer.handleSubmit 1700000000000 "2024-02-02" exampleForm
            capturedState
          = (Some exampleRecord,
             Viewer.mkForm false "2024-02-02" "" "" 9 "" "",
             GameLog.resetRecorder)) as Hs by (vm_compute; reflexivity).
  assert (Viewer.findLog [exampleRecord] (Viewer.gr_id exampleRecord)
          = Some exampleRecord) as Hf by (vm_compute; reflexivity).
  assert (Viewer.expandedLogId Viewer.initialReplay
          ≠ Some (Viewer.gr_id exampleRecord)) as He by discriminate.
  assert (rtc (controlled [exampleRecord]
                 (length (atariClicks ++ [(0, 1)])))
            (Viewer.toggleLog exampleRecord Viewer.initialReplay)
            (Viewer.stepBack
               (Viewer.toggleLog exampleRecord Viewer.initialReplay))) as Hc
    by (apply rtc_once, controlled_stepBack).
  split; [exact Hl|]. split; [exact Hs|]. split; [exact Hf|].
  split; [exact He|]. split; [exact Hc|].
  exact (proj1 (replay_controls_show_a_prefix _ _ _ _ _ _ _ _ _ _ _
                  Hl Hs Hf He Hc)).
Defined.

(** X25. Auto-play runs to the end of the game and stops there: while
    moves are left each firing of the interval shows one move more, the
    firing after the last move switches auto-play off, and once it is off a
    firing changes nothing. *)
Theorem autoplay_runs_to_the_end logs id log moveList r (k : nat) :
  Viewer.expandedLogId r = Some id → id ≠ "" →
  Viewer.findLog logs id = Some log →
  Viewer.gr_moves log = Some moveList →
  Viewer.replayAuto r = true →
  Viewer.replayMoveIndex r ≤ Z.of_nat (length moveList) - 1 →
  let r' := Nat.iter k (Viewer.autoTick logs) r in
  Viewer.expandedLogId r' = Some id ∧
  (Viewer.replayMoveIndex r + Z.of_nat k ≤ Z.of_nat (length moveList) - 1 →
   Viewer.replayMoveIndex r' = Viewer.replayMoveIndex r + Z.of_nat k ∧
   Viewer.replayAuto r' = true) ∧
  (Z.of_nat (length moveList) - 1 < Viewer.replayMoveIndex r + Z.of_nat k →
   Viewer.replayMoveIndex r' = Z.of_nat (length moveList) - 1 ∧
   Viewer.replayAuto r' = false ∧
   Viewer.autoTick logs r' = r').
Proof.
  intros He Hid Hf Hm Ha Hr r'.
  destruct (autoTick_iter logs id log moveList r k He Hid Hf Hm Ha Hr)
    as [H1 H2].
  destruct (decide (Viewer.replayMoveIndex r + Z.of_nat k
                    ≤ Z.of_nat (length moveList) - 1)) as [Hk|Hk].
  - assert (r' = _) as Hr' by (by apply H1).
    split_and!; try (by rewrite Hr'); lia.
  - assert (r' = _) as Hr' by (apply H2; lia).
    split_and!; try (by rewrite Hr'); lia.
Qed.

Lemma autoplay_runs_to_the_end_witness :
  Viewer.expandedLogId exampleReplay = Some "1700000000000" ∧
  "1700000000000" ≠ "" ∧
  Viewer.findLog [exampleRecord] "1700000000000" = Some exampleRecord ∧
  Viewer.gr_moves exampleRecord = Some (GameLog.moves capturedState) ∧
  Viewer.replayAuto exampleReplay = true ∧
  Viewer.replayMoveIndex exampleReplay
    ≤ Z.of_nat (length (GameLog.moves capturedState)) - 1 ∧
  Viewer.expandedLogId
    (Nat.iter 3 (Viewer.autoTick [exampleRecord]) exampleReplay)
    = Some "1700000000000".
Proof.
  assert (Viewer.expandedLogId exampleReplay = Some "1700000000000") as He
    by reflexivity.
  assert ("1700000000000" ≠ "") as Hid by discriminate.
  assert (Viewer.findLog [exampleRecord] "1700000000000"
          = Some exampleRecord) as Hf by (vm_compute; reflexivity).
  assert (Viewer.gr_moves exampleRecord
          = Some (GameLog.moves capturedState)) as Hm by reflexivity.
  assert (Viewer.replayAuto exampleReplay = true) as Ha by reflexivity.
  assert (Viewer.replayMoveIndex exampleReplay
          ≤ Z.of_nat (length (GameLog.moves capturedState)) - 1) as Hr
    by (vm_compute; discriminate).
  split; [exact He|]. split; [exact Hid|]. split; [exact Hf|].
  split; [exact Hm|]. split; [exact Ha|]. split; [exact Hr|].
  exact (proj1 (autoplay_runs_to_the_end [exampleRecord] "1700000000000"
                  exampleRecord (GameLog.moves capturedState) exampleReplay 3
                  He Hid Hf Hm Ha Hr)).
Defined.

(** ** The interaction targets *)

(** X26. The interaction targets of a board that is not read-only are its
    cells, each once; a read-only board has none.  A click on a target is the
    click on the board at the coordinates of the target. *)
Theorem targets_cover_board size :
  0 < size →
  NoDup (BoardView.targets size false) ∧
  (∀ c, c ∈ BoardView.targets size false ↔ onBoard size c) ∧
  length (BoardView.targets size false) = Z.to_nat (size * size) ∧
  BoardView.targets size true = [] ∧
  (∀ (S : Type) (f : option (Z → Z → S → S)) i host,
     0 ≤ i < size * size →
     BoardView.targets size false !! Z.to_nat i
       = Some (i `mod` size, i `div` size) ∧
     GoBoard.handleTargetClick size false f i host
       = GoBoard.handleBoardClick size false f
           (i `mod` size) (i `div` size) host).
Proof.
  intros Hsize. unfold BoardView.targets. split_and!.
  - apply NoDup_fmap_2; [|apply NoDup_seqZ].
    intros i j [= Hm Hd].
    rewrite (Z.div_mod i size), (Z.div_mod j size) by lia. congruence.
  - intros [x y]. rewrite list_elem_of_fmap. unfold onBoard. cbn [fst snd].
    split.
    + intros [i [[= -> ->] Hi%elem_of_seqZ]].
      pose proof (Z.mod_pos_bound i size Hsize).
      assert (0 ≤ i `div` size) by (apply Z.div_pos; lia).
      assert (i `div` size < size) by (apply Z.div_lt_upper_bound; lia).
      lia.
    + intros Hc. exists (y * size + x). split.
      * f_equal.
        -- rewrite Z.add_comm, Z.mod_add by lia. by rewrite Z.mod_small by lia.
        -- rewrite Z.add_comm, Z.div_add by lia.
           rewrite Z.div_small by lia. lia.
      * apply elem_of_seqZ. nia.
  - by rewrite length_fmap, length_seqZ.
  - done.
  - intros S f i host Hi. split.
    + rewrite list_lookup_fmap.
      rewrite (lookup_seqZ_lt 0 (size * size) (Z.to_nat i)) by lia.
      cbn. do 3 f_equal; lia.
    + unfold GoBoard.handleTargetClick, GoBoard.handleBoardClick.
      destruct f as [f|]; [|done].
      rewrite decide_True; [done|].
      pose proof (Z.mod_pos_bound i size Hsize).
      assert (0 ≤ i `div` size) by (apply Z.div_pos; lia).
      assert (i `div` size < size) by (apply Z.div_lt_upper_bound; lia).
      lia.
Qed.

Lemma targets_cover_board_witness :
  0 < 9 ∧ NoDup (BoardView.targets 9 false).
Proof.
  assert (0 < 9) as Hs by lia.
  split; [exact Hs|].
  exact (proj1 (targets_cover_board 9 Hs)).
Defined.

(** ** The drill, over all the states of [App] *)

Section AppFacts.
Import Trainer.
Context (trim : string → string) (stringify : list SavedShape → string).

Local Ltac drill_inv :=
  constructor; cbn; intros; try done;
  intuition (try congruence; try lia; eauto).

Lemma drillInv_initialize parse storage :
  drillInv (initialize parse storage).1.
Proof. drill_inv. Qed.

Lemma drillInv_startDrill shape st : drillInv (startDrill shape st).
Proof. drill_inv. Qed.

Lemma drillInv_editor_idle st :
  drillInv st → view st = editor →
  drillPhase st = App.idle ∧ drillTarget st = None ∧ feedback st = None.
Proof. intros [H _ _ _ _]. apply H. Qed.

Lemma drillInv_setStones_idle b st :
  drillInv st → drillPhase st = App.idle → drillInv (setStones b st).
Proof.
  intros [H1 H2 H3 H4 H5] Hp. destruct st; cbn in *. subst. drill_inv.
Qed.

Lemma drillInv_handleIntersectionClick st x y :
  drillInv st → drillInv (handleIntersectionClick st x y).
Proof.
  intros Hinv. unfold handleIntersectionClick.
  destruct (drillPhase st) eqn:Hp; try done.
  - by apply drillInv_setStones_idle.
  - destruct Hinv as [H1 H2 H3 H4 H5]. destruct st; cbn in *. subst.
    drill_inv.
Qed.

Lemma step_drillInv w w' :
  step trim stringify w w' → drillInv w.1 → drillInv w'.1.
Proof.
  intros Hstep. destruct Hstep; destruct w as [st storage];
    cbn [fst snd onState] in *; intros Hinv.
  - (* navigate *)
    destruct Hinv as [I1 I2 I3 I4 I5].
    destruct id; destruct st; cbn in *; drill_inv.
  - destruct Hinv as [I1 I2 I3 I4 I5]. destruct st; cbn in *. drill_inv.
  - (* chooseSize *)
    destruct (drillInv_editor_idle st Hinv) as [Hp [Ht Hf]]; [done|].
    destruct st; cbn in *. subst. drill_inv.
  - destruct Hinv as [I1 I2 I3 I4 I5]. destruct st; cbn in *. drill_inv.
  - destruct Hinv as [I1 I2 I3 I4 I5]. destruct st; cbn in *. drill_inv.
  - (* saveShape *)
    unfold saveShape. cbn [fst snd]. case_decide; [done|]. cbn [fst].
    destruct Hinv as [I1 I2 I3 I4 I5]. destruct st; cbn in *. drill_inv.
  - (* clearBoard *)
    destruct (drillInv_editor_idle st Hinv) as [Hp [Ht Hf]]; [done|].
    unfold clearBoard. rewrite Hp. by apply drillInv_setStones_idle.
  - (* the board of the editor *)
    unfold editorBoardClick, GoBoard.handleBoardClick.
    case_decide; [|done]. by apply drillInv_handleIntersectionClick.
  - unfold targetClick, GoBoard.handleTargetClick.
    by apply drillInv_handleIntersectionClick.
  - (* loadShape *)
    destruct (drillInv_editor_idle st Hinv) as [Hp [Ht Hf]]; [done|].
    destruct st; cbn in *. subst. drill_inv.
  - (* deleteShape *)
    unfold deleteShape. destruct confirmed; [|done]. cbn [fst].
    destruct Hinv as [I1 I2 I3 I4 I5]. destruct st; cbn in *. drill_inv.
  - (* startRandomDrill *)
    unfold startRandomDrill. case_decide; [done|].
    destruct (savedShapes st !! random); [|done].
    apply drillInv_startDrill.
  - apply drillInv_startDrill.
  - (* the board of the drill *)
    unfold drillBoardClick, GoBoard.handleBoardClick.
    destruct (match drillPhase st with
              | App.memorize | App.feedbackPhase => true | _ => false end);
      [done|].
    case_decide; [|done]. by apply drillInv_handleIntersectionClick.
  - unfold drillTargetClick, targetClick, GoBoard.handleTargetClick.
    destruct (match drillPhase st with
              | App.memorize | App.feedbackPhase => true | _ => false end);
      [done|].
    by apply drillInv_handleIntersectionClick.
  - (* checkDrill *)
    unfold checkDrill. destruct (drillTarget st) as [target|] eqn:Ht; [|done].
    destruct Hinv as [I1 I2 I3 I4 I5]. destruct st; cbn in *. subst.
    drill_inv.
  - (* retryDrill *)
    unfold retryDrill. case_decide; [done|].
    destruct (list_find _ _) as [[i shape]|]; [|done].
    apply drillInv_startDrill.
  - (* done *)
    destruct Hinv as [I1 I2 I3 I4 I5]. destruct st; cbn in *. subst.
    drill_inv.
  - (* endDrill *)
    destruct Hinv as [I1 I2 I3 I4 I5]. destruct st; cbn in *. drill_inv.
  - (* drillTick *)
    unfold drillTick. destruct (drillPhase st) eqn:Hp; try done.
    destruct Hinv as [I1 I2 I3 I4 I5].
    repeat case_decide; try done.
    + destruct st; cbn in *. subst.
      destruct I4 as [Ht Hr]; [done|].
      constructor; cbn; intros; try done.
      * destruct I1 as [? _]; [done|congruence].
      * split; [done|lia].
      * by apply I5; left.
    + destruct st; cbn in *. subst.
      constructor; cbn; intros; try done.
      * destruct I1 as [? _]; [done|congruence].
      * by apply I2.
      * by apply I5; left.
Qed.

Lemma appReachable_drillInv w :
  appReachable trim stringify w → drillInv w.1.
Proof.
  intros [parse [storage Hrtc]].
  pose proof (drillInv_initialize parse storage) as Hinit.
  induction Hrtc as [w|w w1 w2 Hstep Hrtc IH]; [done|].
  apply IH. by apply (step_drillInv w w1).
Qed.

End AppFacts.

(** X27. The editor is never in a drill.  In every state of [App] that
    the user can reach, whatever the storage held at the start, the editor
    view has no drill phase, no target and no feedback; so a click on a cell
    of the editor always toggles it, and clearing the board only empties
    it. *)
Theorem editor_is_never_in_a_drill trim stringify w :
  appReachable trim stringify w →
  Trainer.view w.1 = Trainer.editor →
  Trainer.drillPhase w.1 = App.idle ∧
  Trainer.drillTarget w.1 = None ∧
  Trainer.feedback w.1 = None ∧
  (∀ x y, Trainer.handleIntersectionClick w.1 x y =
          Trainer.setStones
            (Trainer.toggleStone (key x y) (Trainer.currentToolColor w.1)
               (Trainer.stones w.1)) w.1) ∧
  Trainer.clearBoard w.1 = Trainer.setStones ∅ w.1.
Proof.
  intros Hr Hv.
  destruct (drillInv_editor_idle w.1 (appReachable_drillInv _ _ w Hr) Hv)
    as [Hp [Ht Hf]].
  split_and!; try done.
  - intros x y. apply handleIntersectionClick_open. by left.
  - unfold Trainer.clearBoard. by rewrite Hp.
Qed.

Lemma editor_is_never_in_a_drill_witness :
  appReachable (λ s, s) (λ _, "[]")
    (Trainer.onState (Trainer.editorBoardClick 3 3)
       (Trainer.initialize (λ _, None) ∅)) ∧
  Trainer.view
    (Trainer.onState (Trainer.editorBoardClick 3 3)
       (Trainer.initialize (λ _, None) ∅)).1 = Trainer.editor ∧
  Trainer.drillPhase
    (Trainer.onState (Trainer.editorBoardClick 3 3)
       (Trainer.initialize (λ _, None) ∅)).1 = App.idle.
Proof.
  assert (appReachable (λ s, s) (λ _, "[]")
            (Trainer.onState (Trainer.editorBoardClick 3 3)
               (Trainer.initialize (λ _, None) ∅))) as Hr.
  { exists (λ _, None), ∅. apply rtc_once.
    apply Trainer.step_editorBoard. reflexivity. }
  assert (Trainer.view
            (Trainer.onState (Trainer.editorBoardClick 3 3)
               (Trainer.initialize (λ _, None) ∅)).1 = Trainer.editor) as Hv
    by reflexivity.
  split; [exact Hr|]. split; [exact Hv|].
  exact (proj1 (editor_is_never_in_a_drill _ _ _ Hr Hv)).
Defined.

(** X28. The drill is consistent in every state of [App] that the user can
    reach.  Outside the idle phase there is a target, so the check never
    returns early.  While memorizing, the board shows the target and the
    timer is between 0 and 5.  While memorizing and rebuilding no feedback
    is shown.  In the feedback phase the feedback shown is the diff of the
    target and the board as they are. *)
Theorem drill_state_consistent trim stringify w :
  appReachable trim stringify w →
  (Trainer.drillPhase w.1 ≠ App.idle → is_Some (Trainer.drillTarget w.1)) ∧
  (Trainer.drillPhase w.1 = App.memorize →
     Trainer.drillTarget w.1 = Some (Trainer.stones w.1) ∧
     0 ≤ Trainer.drillTimer w.1 ≤ 5) ∧
  (Trainer.drillPhase w.1 = App.memorize
   ∨ Trainer.drillPhase w.1 = App.rebuild →
     Trainer.feedback w.1 = None) ∧
  (Trainer.drillPhase w.1 = App.feedbackPhase →
     ∃ target, Trainer.drillTarget w.1 = Some target ∧
               Trainer.feedback w.1
                 = Some (App.diff target (Trainer.stones w.1))).
Proof.
  intros Hr. destruct (appReachable_drillInv _ _ w Hr) as [_ H2 H3 H4 H5].
  done.
Qed.

Lemma drill_state_consistent_witness :
  appReachable (λ s, s) (λ _, "[]") memorizeWorld ∧
  (Trainer.drillPhase memorizeWorld.1 = App.memorize →
     Trainer.drillTarget memorizeWorld.1
       = Some (Trainer.stones memorizeWorld.1) ∧
     0 ≤ Trainer.drillTimer memorizeWorld.1 ≤ 5).
Proof.
  assert (appReachable (λ s, s) (λ _, "[]") memorizeWorld) as Hr.
  { exists (λ _, Some [cornerShape]), {[ Storage.SHAPES_KEY := "[corner]" ]}.
    eapply rtc_l; [apply (Trainer.step_navigate _ _ Trainer.drill)|].
    apply rtc_once. apply Trainer.step_selectShape.
    - reflexivity.
    - reflexivity.
    - assert (Trainer.savedShapes
                (Trainer.onState (Trainer.navigate Trainer.drill)
                   (Trainer.initialize (λ _, Some [cornerShape])
                      {[ Storage.SHAPES_KEY := "[corner]" ]})).1
              = [cornerShape]) as -> by (vm_compute; reflexivity).
      apply list_elem_of_here. }
  split; [exact Hr|].
  exact (proj1 (proj2 (drill_state_consistent _ _ _ Hr))).
Defined.

(** ** The mark of the last move *)

Section LastMove.
Import BoardView.

Lemma stoneViews_keys (stones : BoardState) lastMove :
  sv_key <$> stoneViews stones lastMove None = (map_to_list stones).*1.
Proof.
  unfold stoneViews. induction (map_to_list stones) as [|e l IH]; [done|].
  cbn. by rewrite IH.
Qed.

End LastMove.

(** X29. The board of the recorder marks the move just played and no other
    stone.  After an accepted click at [c] that follows accepted clicks on
    the board, the stone at [c] is drawn, in the color of the mover, with the
    mark of the last move, and no other stone has the mark; every stone of
    the recorder is drawn once, without feedback markers. *)
Theorem last_move_marked size clicks c st :
  Forall (onBoard size) (clicks ++ [c]) →
  live size (clicks ++ [c]) = Some st →
  (∃ v, v ∈ Viewer.recorderBoard st ∧
        BoardView.sv_key v = keyOf c ∧ BoardView.sv_at v = Some c ∧
        BoardView.sv_color v = toPlay (length clicks) ∧
        BoardView.sv_lastMove v = true) ∧
  (∀ v, v ∈ Viewer.recorderBoard st →
        (BoardView.sv_lastMove v = true ↔ BoardView.sv_key v = keyOf c) ∧
        BoardView.sv_extra v = false ∧ BoardView.sv_correct v = false ∧
        GameLog.board st !! BoardView.sv_key v
          = Some (BoardView.sv_color v)) ∧
  NoDup (BoardView.sv_key <$> Viewer.recorderBoard st) ∧
  length (Viewer.recorderBoard st) = stdpp.base.size (GameLog.board st).
Proof.
  intros Hon Hl.
  destruct (live_legal size _ _ Hon Hl) as [Hpos _].
  pose proof Hl as Hl'. rewrite live_snoc in Hl'.
  apply liveStep_Some in Hl' as [prev [Hprev Hclick]].
  destruct (live_recorded size clicks prev Hprev) as [[_ _ Hturn] Hcoords].
  assert (length (GameLog.moves prev) = length clicks) as Hlen
    by (by rewrite <- Hcoords, length_fmap).
  pose proof (placeStone_keeps size (GameLog.board prev) c.1 c.2
                (GameLog.turn prev)) as Hkeep.
  apply handleBoardClick_placed in Hclick as [_ Hst].
  assert (GameLog.board st !! keyOf c = Some (toPlay (length clicks))) as Hc.
  { rewrite Hst. cbn [GameLog.board]. by rewrite <- Hlen, <- Hturn. }
  assert ((λ m, (m_x m, m_y m)) <$> last (GameLog.moves st) = Some c) as Hlast.
  { rewrite Hst. cbn [GameLog.moves]. rewrite last_snoc. cbn.
    by destruct c. }
  unfold Viewer.recorderBoard. rewrite Hlast. split_and!.
  - eexists. split.
    + apply elem_of_stoneViews. exists (keyOf c), (toPlay (length clicks)).
      split; [done|]. split; [done|]. reflexivity.
    + cbn. rewrite parseKey_keyOf. split_and!; try done.
      cbn. by apply bool_decide_eq_true.
  - intros v [k [col [Hk [_ ->]]]]%elem_of_stoneViews. cbn.
    destruct (Hpos k) as [c' [-> Hc']]; [by exists col|].
    rewrite parseKey_keyOf. cbn. split_and!; try done.
    rewrite bool_decide_eq_true. split; [by intros ->|].
    by intros ->%(inj keyOf).
  - rewrite stoneViews_keys. apply NoDup_fst_map_to_list.
  - rewrite <- (length_fmap BoardView.sv_key), stoneViews_keys.
    by rewrite length_fmap, length_map_to_list.
Qed.

Lemma last_move_marked_witness :
  Forall (onBoard 9) (atariClicks ++ [(0, 1)]) ∧
  live 9 (atariClicks ++ [(0, 1)]) = Some capturedState ∧
  NoDup (BoardView.sv_key <$> Viewer.recorderBoard capturedState).
Proof.
  assert (Forall (onBoard 9) (atariClicks ++ [(0, 1)])) as Hon
    by (repeat constructor; unfold onBoard; simpl; lia).
  assert (live 9 (atariClicks ++ [(0, 1)]) = Some capturedState) as Hl
    by (vm_compute; reflexivity).
  split; [exact Hon|]. split; [exact Hl|].
  exact (proj1 (proj2 (proj2 (last_move_marked 9 _ _ _ Hon Hl)))).
Defined.

(** ** Deleting a record *)

(** X30. A record deleted from the log, once confirmed, stays deleted: no
    record of that id is left, the others are kept and are there after a
    reload, and a viewer that had the record expanded shows nothing and stops
    its auto-play.  A deletion that is not confirmed changes nothing. *)
Theorem deleted_log_stays_deleted parse stringify id logs storage r :
  Forall migrated logs →
  codecFor parse stringify
    (Viewer.deleteLog stringify true id (logs, storage)).1 →
  let w' := Viewer.deleteLog stringify true id (logs, storage) in
  Viewer.initialLogs parse w'.2 = w'.1 ∧
  (∀ l, l ∈ w'.1 ↔ l ∈ logs ∧ Viewer.gr_id l ≠ id) ∧
  Viewer.findLog w'.1 id = None ∧
  (Viewer.expandedLogId r = Some id →
     Viewer.currentReplayState w'.1 r = None ∧
     (Viewer.replayAuto r = true → id ≠ "" →
      Viewer.replayAuto (Viewer.autoTick w'.1 r) = false ∧
      Viewer.replayMoveIndex (Viewer.autoTick w'.1 r)
        = Viewer.replayMoveIndex r)) ∧
  Viewer.deleteLog stringify false id (logs, storage) = (logs, storage).
Proof.
  intros Hlogs Hc w'.
  assert (Viewer.findLog w'.1 id = None) as Hfind.
  { unfold Viewer.findLog, w', Viewer.deleteLog. cbn [fst].
    assert (list_find (λ l, Viewer.gr_id l = id)
              (filter (λ l, Viewer.gr_id l ≠ id) logs) = None) as ->; [|done].
    apply list_find_None, Forall_forall.
    by intros l [Hl _]%list_elem_of_filter. }
  split_and!.
  - clear Hfind. unfold Viewer.initialLogs, Storage.loadLogs.
    unfold w' at 1, Viewer.deleteLog at 1. cbn [snd fst].
    unfold Storage.saveLogs. rewrite load_save by exact Hc.
    assert (Forall migrated w'.1) as Hall.
    { unfold w', Viewer.deleteLog. cbn [fst]. apply Forall_forall.
      intros l [_ Hl]%list_elem_of_filter.
      by apply (proj1 (Forall_forall _ _) Hlogs). }
    change (filter (λ l, Viewer.gr_id l ≠ id) logs) with w'.1.
    induction Hall as [|l ls Hl _ IH]; [done|].
    rewrite fmap_cons. by rewrite Hl, IH.
  - intros l. unfold w', Viewer.deleteLog. cbn [fst].
    rewrite list_elem_of_filter. tauto.
  - done.
  - intros He. split.
    + unfold Viewer.currentReplayState. rewrite He.
      case_decide; [done|]. by rewrite Hfind.
    + intros Ha Hid. unfold Viewer.autoTick. rewrite He, Ha.
      cbn [negb orb]. rewrite bool_decide_eq_false_2 by done.
      by rewrite Hfind.
  - done.
Qed.

Lemma deleted_log_stays_deleted_witness :
  Forall migrated [exampleRecord] ∧
  codecFor (λ _, Some []) (λ _, "[]")
    (Viewer.deleteLog (λ _, "[]") true "1700000000000"
       ([exampleRecord], ∅)).1 ∧
  Viewer.initialLogs (λ _, Some [])
    (Viewer.deleteLog (λ _, "[]") true "1700000000000"
       ([exampleRecord], ∅)).2
  = (Viewer.deleteLog (λ _, "[]") true "1700000000000"
       ([exampleRecord], ∅)).1.
Proof.
  assert (Forall migrated [exampleRecord]) as Hl
    by (apply Forall_singleton; reflexivity).
  assert (codecFor (λ _, Some []) (λ _, "[]")
            (Viewer.deleteLog (λ _, "[]") true "1700000000000"
               ([exampleRecord], ∅)).1) as Hc
    by (split; [reflexivity|discriminate]).
  split; [exact Hl|]. split; [exact Hc|].
  exact (proj1 (deleted_log_stays_deleted (λ _, Some []) (λ _, "[]")
                  "1700000000000" [exampleRecord] ∅ Viewer.initialReplay
                  Hl Hc)).
Defined.
